(** * dwave-cloud-client: the asynchronous submission pipeline and the
      solver catalog query of [dwave/cloud/client.py]

    A shallow embedding of [Client] (class constants, [_poll],
    [_handle_problem_status], the submission, poll and cancel workers, and
    [get_solvers] with its filter operators), followed by the properties of
    the pipeline that are established on it.

    Conventions of the embedding.
    - A [Future] is a shared mutable Python object: futures live in a heap
      [futures : gmap handle Future] and queues hold handles, so that two
      queue entries naming one future alias the same object.
    - Python code that raises is embedded in a state-and-exception monad
      [M]: the heap and the queues keep every write made before the raise.
    - Each worker iteration, and the block guarded by
      [future._single_cancel_lock], is one atomic function on the client.
    - Time stamps are [float] seconds in the source and exact rationals
      here; every read of the system clock consumes one value of the
      oracle [sys_clock].
    - The HTTP session is the environment: a worker iteration takes the
      reply of its request as an argument, and [delete_log] records, for
      each DELETE request issued, the queue items whose ids make its
      body. *)

From Stdlib Require Import ZArith QArith Ascii String List Permutation Sorted Lia.
From stdpp Require Import base option list gmap strings fin_maps.

Local Open Scope Z_scope.
Local Open Scope string_scope.

(** ** Class constants of [Client] *)

Module Const.
Definition STATUS_IN_PROGRESS : string := "IN_PROGRESS".
Definition STATUS_PENDING : string := "PENDING".
Definition STATUS_COMPLETE : string := "COMPLETED".
Definition STATUS_FAILED : string := "FAILED".
Definition STATUS_CANCELLED : string := "CANCELLED".
Definition ANY_STATUS_ONGOING : list string := [STATUS_IN_PROGRESS; STATUS_PENDING].

Definition _SUBMIT_BATCH_SIZE : nat := 20.
Definition _STATUS_QUERY_SIZE : nat := 100.

Definition _POLL_BACKOFF_MIN : Z := 1.
Definition _POLL_BACKOFF_MAX : Z := 60.
Definition _CLOCK_DIFF_MAX : Z := 1.
Definition _POLL_GROUP_TIMEFRAME : Z := 2.
End Const.
Import Const.

(** ** Exceptions

    [dwave/cloud/exceptions.py] is not part of the sources at hand; the
    classes [client.py] raises are taken to derive from [Exception], so that
    both [except Exception] and [except BaseException] catch them. *)

Inductive Exn : Type :=
| RequestTimeout
| SolverAuthenticationError
| SolverFailureError (msg : string)
| SolverOfflineError (msg : string)
| InvalidAPIResponseError (msg : string)
| CanceledFutureError
| PollingTimeout
| HTTPError (status_code : Z)
| TransportError (what : string)
| ValueError (what : string)
| KeyError (key : string)
| AttributeError (what : string)
| TypeError (what : string)
| StopIteration
| IOError (cause : Exn).

Definition is_SolverAuthenticationError (e : Exn) : bool :=
  match e with SolverAuthenticationError => true | _ => false end.

(** ** Status records

    A status record is the JSON object of the problem resource.  A field is
    [None] when its key is absent ([key in message] is [is_Some]).  ISO 8601
    strings are represented by what [dateutil.parser.parse] makes of them. *)

Inductive DateField : Type :=
| DateEmpty
| DateOk (t : Q)
| DateBad.

Record Message : Type := mkMessage {
  m_error_code : option Z;
  m_error_msg : option string;
  m_status : option string;
  m_id : option string;
  m_answer : option string;
  m_error_message : option string;
  m_submitted_on : option DateField;
  m_solved_on : option DateField;
  m_earliest_estimated_completion : option DateField;
  m_latest_estimated_completion : option DateField
}.

(** ** Futures

    [dwave/cloud/computation.py] is not part of the sources at hand.  The
    record holds the attributes of [Future] that [client.py] reads and
    writes; [outcome] stands for the result/error pair behind its methods
    [_set_message], [_set_error] and [done]. *)

Inductive Outcome : Type :=
| Result (message : Message)
| Error (error : Exn) (exc_info : Exn).

Record Future : Type := mkFuture {
  id : option string;
  remote_status : option string;
  _cancel_requested : bool;
  _cancel_sent : bool;
  _poll_backoff : option Z;
  time_created : Q;
  time_received : option Q;
  time_solved : option Q;
  eta_min : option Q;
  eta_max : option Q;
  clock_diff : option Q;
  outcome : option Outcome
}.

Definition handle : Type := nat.

Definition set_id (v : option string) (f : Future) : Future :=
  mkFuture v (remote_status f) (_cancel_requested f) (_cancel_sent f)
    (_poll_backoff f) (time_created f) (time_received f) (time_solved f)
    (eta_min f) (eta_max f) (clock_diff f) (outcome f).
Definition set_remote_status (v : option string) (f : Future) : Future :=
  mkFuture (id f) v (_cancel_requested f) (_cancel_sent f)
    (_poll_backoff f) (time_created f) (time_received f) (time_solved f)
    (eta_min f) (eta_max f) (clock_diff f) (outcome f).
Definition set_cancel_requested (v : bool) (f : Future) : Future :=
  mkFuture (id f) (remote_status f) v (_cancel_sent f)
    (_poll_backoff f) (time_created f) (time_received f) (time_solved f)
    (eta_min f) (eta_max f) (clock_diff f) (outcome f).
Definition set_cancel_sent (v : bool) (f : Future) : Future :=
  mkFuture (id f) (remote_status f) (_cancel_requested f) v
    (_poll_backoff f) (time_created f) (time_received f) (time_solved f)
    (eta_min f) (eta_max f) (clock_diff f) (outcome f).
Definition set_poll_backoff (v : option Z) (f : Future) : Future :=
  mkFuture (id f) (remote_status f) (_cancel_requested f) (_cancel_sent f)
    v (time_created f) (time_received f) (time_solved f)
    (eta_min f) (eta_max f) (clock_diff f) (outcome f).
Definition set_time_received (v : option Q) (f : Future) : Future :=
  mkFuture (id f) (remote_status f) (_cancel_requested f) (_cancel_sent f)
    (_poll_backoff f) (time_created f) v (time_solved f)
    (eta_min f) (eta_max f) (clock_diff f) (outcome f).
Definition set_time_solved (v : option Q) (f : Future) : Future :=
  mkFuture (id f) (remote_status f) (_cancel_requested f) (_cancel_sent f)
    (_poll_backoff f) (time_created f) (time_received f) v
    (eta_min f) (eta_max f) (clock_diff f) (outcome f).
Definition set_eta_min (v : option Q) (f : Future) : Future :=
  mkFuture (id f) (remote_status f) (_cancel_requested f) (_cancel_sent f)
    (_poll_backoff f) (time_created f) (time_received f) (time_solved f)
    v (eta_max f) (clock_diff f) (outcome f).
Definition set_eta_max (v : option Q) (f : Future) : Future :=
  mkFuture (id f) (remote_status f) (_cancel_requested f) (_cancel_sent f)
    (_poll_backoff f) (time_created f) (time_received f) (time_solved f)
    (eta_min f) v (clock_diff f) (outcome f).
Definition set_clock_diff (v : option Q) (f : Future) : Future :=
  mkFuture (id f) (remote_status f) (_cancel_requested f) (_cancel_sent f)
    (_poll_backoff f) (time_created f) (time_received f) (time_solved f)
    (eta_min f) (eta_max f) v (outcome f).
Definition set_outcome (v : option Outcome) (f : Future) : Future :=
  mkFuture (id f) (remote_status f) (_cancel_requested f) (_cancel_sent f)
    (_poll_backoff f) (time_created f) (time_received f) (time_solved f)
    (eta_min f) (eta_max f) (clock_diff f) v.

(** Modelled from the spec: [Future.done], [Future._set_error] and
    [Future._set_message] of the absent [computation.py].  "Settlement is
    single-shot: the first call to settle(result) or settle(error) wins;
    subsequent calls are silently ignored"; [done] is the non-blocking
    predicate "terminal".  [_set_error(error, exc_info)] settles with
    [error], the error kind the future fails with; the second argument is
    what [sys.exc_info()] holds at the call, the exception being handled. *)
Definition done (f : Future) : bool :=
  match outcome f with Some _ => true | None => false end.

Definition settle (o : Outcome) (f : Future) : Future :=
  match outcome f with
  | Some _ => f
  | None => set_outcome (Some o) f
  end.

(** ** Queues

    [queue.Queue]: FIFO items and the counter of unfinished tasks that
    [task_done] decrements and [join] waits on.  [queue.PriorityQueue] keeps
    its items ordered by the first component; entries with equal time keep
    their insertion order. *)

Record Queue (A : Type) : Type := mkQueue {
  items : list A;
  unfinished_tasks : Z
}.
Arguments mkQueue {A} _ _.
Arguments items {A} _.
Arguments unfinished_tasks {A} _.

Definition empty_queue {A : Type} : Queue A := mkQueue [] 0.

Definition put {A : Type} (x : A) (q : Queue A) : Queue A :=
  mkQueue (items q ++ [x]) (unfinished_tasks q + 1).

Definition task_done {A : Type} (q : Queue A) : Queue A :=
  mkQueue (items q) (unfinished_tasks q - 1).

Definition get_nowait {A : Type} (q : Queue A) : option (A * Queue A) :=
  match items q with
  | [] => None
  | x :: rest => Some (x, mkQueue rest (unfinished_tasks q))
  end.

Definition Qleb (a b : Q) : bool := Qle_bool a b.

Fixpoint insert_by_time {A : Type} (x : Q * A) (l : list (Q * A)) : list (Q * A) :=
  match l with
  | [] => [x]
  | y :: rest =>
      if Qleb (fst y) (fst x) then y :: insert_by_time x rest else x :: y :: rest
  end.

Definition put_priority {A : Type} (x : Q * A) (q : Queue (Q * A)) : Queue (Q * A) :=
  mkQueue (insert_by_time x (items q)) (unfinished_tasks q + 1).

(** ** The client *)

Record SubmitMessage : Type := mkSubmitMessage {
  body : string;
  future : handle
}.

Record Client : Type := mkClient {
  polling_timeout : option Q;
  futures : gmap handle Future;
  _submission_queue : Queue (option SubmitMessage);
  _cancel_queue : Queue (option (string * option handle));
  _poll_queue : Queue (Q * option handle);
  _load_queue : Queue (option handle);
  sys_clock : nat -> Q;
  clock_reads : nat;
  delete_log : list (list (string * option handle))
}.

Definition with_futures (v : gmap handle Future) (c : Client) : Client :=
  mkClient (polling_timeout c) v (_submission_queue c) (_cancel_queue c)
    (_poll_queue c) (_load_queue c) (sys_clock c) (clock_reads c) (delete_log c).
Definition with_submission_queue (v : Queue (option SubmitMessage)) (c : Client) : Client :=
  mkClient (polling_timeout c) (futures c) v (_cancel_queue c)
    (_poll_queue c) (_load_queue c) (sys_clock c) (clock_reads c) (delete_log c).
Definition with_cancel_queue (v : Queue (option (string * option handle))) (c : Client) : Client :=
  mkClient (polling_timeout c) (futures c) (_submission_queue c) v
    (_poll_queue c) (_load_queue c) (sys_clock c) (clock_reads c) (delete_log c).
Definition with_poll_queue (v : Queue (Q * option handle)) (c : Client) : Client :=
  mkClient (polling_timeout c) (futures c) (_submission_queue c) (_cancel_queue c)
    v (_load_queue c) (sys_clock c) (clock_reads c) (delete_log c).
Definition with_load_queue (v : Queue (option handle)) (c : Client) : Client :=
  mkClient (polling_timeout c) (futures c) (_submission_queue c) (_cancel_queue c)
    (_poll_queue c) v (sys_clock c) (clock_reads c) (delete_log c).
Definition with_clock_reads (v : nat) (c : Client) : Client :=
  mkClient (polling_timeout c) (futures c) (_submission_queue c) (_cancel_queue c)
    (_poll_queue c) (_load_queue c) (sys_clock c) v (delete_log c).
Definition with_delete_log (v : list (list (string * option handle))) (c : Client) : Client :=
  mkClient (polling_timeout c) (futures c) (_submission_queue c) (_cancel_queue c)
    (_poll_queue c) (_load_queue c) (sys_clock c) (clock_reads c) v.

(** ** State and exceptions *)

Inductive Res (A : Type) : Type :=
| Ok (a : A)
| Raise (e : Exn).
Arguments Ok {A} _.
Arguments Raise {A} _.

Definition M (A : Type) : Type := Client -> Client * Res A.

Definition ret {A : Type} (a : A) : M A := fun c => (c, Ok a).

Definition bind {A B : Type} (m : M A) (k : A -> M B) : M B :=
  fun c =>
    match m c with
    | (c', Ok a) => k a c'
    | (c', Raise e) => (c', Raise e)
    end.

Definition raise {A : Type} (e : Exn) : M A := fun c => (c, Raise e).

Definition try_except {A : Type} (m : M A) (handler : Exn -> M A) : M A :=
  fun c =>
    match m c with
    | (c', Ok a) => (c', Ok a)
    | (c', Raise e) => handler e c'
    end.

Definition modify (f : Client -> Client) : M unit := fun c => (f c, Ok tt).

Definition gets {A : Type} (f : Client -> A) : M A := fun c => (c, Ok (f c)).

Declare Scope py_scope.
Delimit Scope py_scope with py.
Notation "'let*' x ':=' m 'in' k" := (bind m (fun x => k))
  (at level 10, x name, m at level 100, k at level 200) : py_scope.
Notation "m ';;' k" := (bind m (fun _ => k))
  (at level 100, k at level 200, right associativity) : py_scope.
Local Open Scope py_scope.

Fixpoint for_each {A : Type} (l : list A) (body : A -> M unit) : M unit :=
  match l with
  | [] => ret tt
  | x :: rest => body x ;; for_each rest body
  end.

Definition exec {A : Type} (m : M A) (c : Client) : Client := fst (m c).

(** Attribute access on a future object. *)
Definition read_future (h : handle) : M Future :=
  fun c =>
    match futures c !! h with
    | Some f => (c, Ok f)
    | None => (c, Raise (AttributeError "future"))
    end.

Definition update_future (h : handle) (g : Future -> Future) : M unit :=
  fun c =>
    match futures c !! h with
    | Some f => (with_futures (<[h := g f]> (futures c)) c, Ok tt)
    | None => (c, Raise (AttributeError "future"))
    end.

Definition _set_error (h : handle) (error exc_info : Exn) : M unit :=
  update_future h (settle (Error error exc_info)).

Definition _set_message (h : handle) (message : Message) : M unit :=
  update_future h (settle (Result message)).

(** [time.time()], [utcnow()] and [epochnow()]: one read of the clock. *)
Definition read_clock : M Q :=
  fun c => (with_clock_reads (S (clock_reads c)) c, Ok (sys_clock c (clock_reads c))).

(** ** [Client._cancel], [Client._load] *)

Definition _cancel (id_ : string) (h : handle) : M unit :=
  modify (fun c => with_cancel_queue (put (Some (id_, Some h)) (_cancel_queue c)) c).

Definition _load (h : handle) : M unit :=
  modify (fun c => with_load_queue (put (Some h) (_load_queue c)) c).

(** ** [Client._poll] *)

Definition next_backoff (prev : option Z) : Z :=
  match prev with
  | None => _POLL_BACKOFF_MIN
  | Some b => Z.max _POLL_BACKOFF_MIN (Z.min (b * 2) _POLL_BACKOFF_MAX)
  end.

Definition polling_timeout_exceeded (timeout : option Q) (future_age_on_next_poll : Q) : bool :=
  match timeout with
  | None => false
  | Some limit => negb (Qleb future_age_on_next_poll limit)
  end.

Definition _poll (h : handle) : M unit :=
  let* f := read_future h in
  let backoff := next_backoff (_poll_backoff f) in
  update_future h (set_poll_backoff (Some backoff)) ;;
  let* t := read_clock in
  let at_ := (t + inject_Z backoff)%Q in
  let* now := read_clock in
  let future_age := (now - time_created f)%Q in
  let future_age_on_next_poll := (future_age + (at_ - now))%Q in
  let* timeout := gets polling_timeout in
  if polling_timeout_exceeded timeout future_age_on_next_poll
  then raise PollingTimeout
  else modify (fun c => with_poll_queue (put_priority (at_, Some h) (_poll_queue c)) c).

(** ** [Client._handle_problem_status] *)

Definition lower_ascii (a : ascii) : ascii :=
  let n := nat_of_ascii a in
  if ((65 <=? n)%nat && (n <=? 90)%nat)%bool then ascii_of_nat (n + 32) else a.

Fixpoint lower (s : string) : string :=
  match s with
  | EmptyString => EmptyString
  | String a rest => String (lower_ascii a) (lower rest)
  end.

(** [needle in hay] on Python strings. *)
Fixpoint str_contains (needle hay : string) : bool :=
  if String.prefix needle hay then true
  else match hay with
       | EmptyString => false
       | String _ rest => str_contains needle rest
       end.

(** [parse_datetime(message[key])] guarded by [message.get(key)]. *)
Definition truthy_date (d : option DateField) : bool :=
  match d with
  | Some (DateOk _) | Some DateBad => true
  | Some DateEmpty | None => false
  end.

Definition parse_datetime (d : option DateField) : M Q :=
  match d with
  | Some (DateOk t) => ret t
  | _ => raise (ValueError "Unknown string format")
  end.

Definition update_time (h : handle) (get : Future -> option Q)
    (set : option Q -> Future -> Future) (field : option DateField) : M unit :=
  let* f := read_future h in
  if (negb (bool_decide (is_Some (get f))) && truthy_date field)%bool
  then let* t := parse_datetime field in update_future h (set (Some t))
  else ret tt.

(** The block run under [future._single_cancel_lock]. *)
Definition cancel_under_lock (status : string) (id_ : string) (h : handle) : M unit :=
  let* f := read_future h in
  if _cancel_requested f then
    (if (negb (_cancel_sent f) && bool_decide (status = STATUS_PENDING))%bool
     then _cancel id_ h
     else ret tt) ;;
    update_future h (set_cancel_sent true)
  else ret tt.

(** The four timing fields, each set once. *)
Definition update_times (message : Message) (h : handle) : M unit :=
  update_time h time_received set_time_received (m_submitted_on message) ;;
  update_time h time_solved set_time_solved (m_solved_on message) ;;
  update_time h eta_min set_eta_min (m_earliest_estimated_completion message) ;;
  update_time h eta_max set_eta_max (m_latest_estimated_completion message).

(** The routing on [status] that ends the [try] block. *)
Definition route_status (status : string) (message : Message) (h : handle) : M unit :=
  if bool_decide (status = STATUS_COMPLETE) then
    match m_answer message with
    | Some _ => _set_message h message
    | None => _load h
    end
  else if bool_decide (status ∈ ANY_STATUS_ONGOING) then
    _poll h
  else if bool_decide (status = STATUS_CANCELLED) then
    raise CanceledFutureError
  else
    let errmsg := default "An unknown error has occurred." (m_error_message message) in
    if str_contains "solver is offline" (lower errmsg)
    then raise (SolverOfflineError errmsg)
    else raise (SolverFailureError errmsg).

Definition dispatch_accepted (status id_ : string) (message : Message) (h : handle) : M unit :=
  update_future h (set_id (Some id_)) ;;
  update_future h (set_remote_status (Some status)) ;;
  cancel_under_lock status id_ h ;;
  update_times message h ;;
  route_status status message h.

Definition dispatch_body (message : Message) (h : handle) : M unit :=
  match m_error_code message, m_error_msg message with
  | Some _, Some msg => raise (SolverFailureError msg)
  | _, _ =>
      match m_status message with
      | None => raise (InvalidAPIResponseError "'status' missing in problem description response")
      | Some status =>
          match m_id message with
          | None => raise (InvalidAPIResponseError "'id' missing in problem description response")
          | Some id_ => dispatch_accepted status id_ message h
          end
      end
  end.

Definition _handle_problem_status (message : Message) (h : handle) : M unit :=
  try_except (dispatch_body message h) (fun error => _set_error h error error).

(** ** HTTP replies

    What one call on [self.session] does: it raises
    [requests.exceptions.Timeout], raises another transport exception, or
    returns a response.  [json] is [None] when [response.json()] raises; a
    reply that parses is an array of status records. *)

Inductive HttpReply : Type :=
| Timeout
| TransportFailure (what : string)
| Response (status_code : Z) (date : Q) (json : option (list Message)).

Definition session_call (reply : HttpReply) : M (Z * Q * option (list Message)) :=
  match reply with
  | Timeout => raise RequestTimeout
  | TransportFailure what => raise (TransportError what)
  | Response code date json => ret (code, date, json)
  end.

(** [response.raise_for_status()] *)
Definition raise_for_status (status_code : Z) : M unit :=
  if ((400 <=? status_code)%Z && (status_code <? 600)%Z)%bool
  then raise (HTTPError status_code)
  else ret tt.

(** [response.json()] *)
Definition response_json (json : option (list Message)) : M (list Message) :=
  match json with
  | Some statuses => ret statuses
  | None => raise (ValueError "No JSON object could be decoded")
  end.

(** The [except BaseException] clause shared by the workers. *)
Definition wrap_exception (exception : Exn) : Exn :=
  if is_SolverAuthenticationError exception then exception else IOError exception.

(** Modelled from the spec: [Future._set_clock_diff] of the absent
    [computation.py]; "signed seconds between server Date header and local
    clock at the moment of submission response; set once". *)
Definition _set_clock_diff (h : handle) (server_date localtime : Q) : M unit :=
  update_future h (fun f =>
    match clock_diff f with
    | Some _ => f
    | None => set_clock_diff (Some (server_date - localtime)%Q) f
    end).

(** ** [Client._do_submit_problems]: one iteration of the worker loop *)

Inductive Worker : Type :=
| Blocked
| Exited
| Continue.

(** [while len(ready_problems) < limit: ready_problems.append(get_nowait())] *)
Fixpoint drain {A : Type} (limit : nat) (ready pending : list A) : list A * list A :=
  if (length ready <? limit)%nat then
    match pending with
    | [] => (ready, [])
    | x :: rest => drain limit (ready ++ [x]) rest
    end
  else (ready, pending).

Definition submission_task_done : M unit :=
  modify (fun c => with_submission_queue (task_done (_submission_queue c)) c).

(** [mess.body for mess in ready_problems], read to build the body of the
    request: the sentinel [None] has no [body]. *)
Definition as_message (item : option SubmitMessage) : M SubmitMessage :=
  match item with
  | Some mess => ret mess
  | None => raise (AttributeError "body")
  end.

Fixpoint all_messages (ready : list (option SubmitMessage)) : M (list SubmitMessage) :=
  match ready with
  | [] => ret []
  | item :: rest =>
      let* mess := as_message item in
      let* others := all_messages rest in
      ret (mess :: others)
  end.

Definition post_problems (reply : HttpReply) : M (Q * Q * list Message) :=
  let* response := (let* r := session_call reply in
                    let* localtime_of_response := read_clock in
                    ret (r, localtime_of_response)) in
  let '(code, date, json, localtime_of_response) := response in
  (if bool_decide (code = 401) then raise SolverAuthenticationError else ret tt) ;;
  raise_for_status code ;;
  let* message := response_json json in
  ret (date, localtime_of_response, message).

Fixpoint zip {A B : Type} (l : list A) (k : list B) : list (A * B) :=
  match l, k with
  | x :: l', y :: k' => (x, y) :: zip l' k'
  | _, _ => []
  end.

Definition submit_batch (ready : list SubmitMessage) (reply : HttpReply) : M unit :=
  let* posted :=
    try_except
      (let* r := post_problems reply in ret (Some r))
      (fun exception =>
         let exception' := wrap_exception exception in
         for_each ready (fun mess =>
           _set_error (future mess) exception' exception ;;
           submission_task_done) ;;
         ret None) in
  match posted with
  | None => ret tt
  | Some (date, localtime_of_response, message) =>
      for_each (zip ready message) (fun '(submission, res) =>
        _set_clock_diff (future submission) date localtime_of_response ;;
        _handle_problem_status res (future submission) ;;
        submission_task_done)
  end.

(** [ready_problems]: the item the blocking [get] returned and what the
    non-blocking reads add to it. *)
Definition gather_batch (item : option SubmitMessage) (q : Queue (option SubmitMessage))
  : list (option SubmitMessage) * Queue (option SubmitMessage) :=
  let '(ready, rest) := drain _SUBMIT_BATCH_SIZE [item] (items q) in
  (ready, mkQueue rest (unfinished_tasks q)).

Definition _do_submit_problems (reply : HttpReply) : M Worker :=
  let* q := gets _submission_queue in
  match get_nowait q with
  | None => ret Blocked
  | Some (None, q') => modify (with_submission_queue q') ;; ret Exited
  | Some (Some item, q') =>
      let '(ready_problems, q'') := gather_batch (Some item) q' in
      modify (with_submission_queue q'') ;;
      try_except
        (let* batch := all_messages ready_problems in
         submit_batch batch reply ;;
         ret Continue)
        (fun err => ret Exited)
  end.

(** ** [Client._do_poll_problems]: one iteration of the worker loop

    [frame_futures] is a dict from [future.id] to the future; the list keeps
    the insertion order that [values()] and [keys()] iterate in. *)

Definition Frame : Type := list (option string * handle).

Definition frame_has (k : option string) (frame : Frame) : bool :=
  bool_decide (k ∈ map fst frame).

Fixpoint frame_get (k : option string) (frame : Frame) : option handle :=
  match frame with
  | [] => None
  | (k', h) :: rest => if bool_decide (k' = k) then Some h else frame_get k rest
  end.

Definition poll_task_done : M unit :=
  modify (fun c => with_poll_queue (task_done (_poll_queue c)) c).

Definition set_poll_items (v : list (Q * option handle)) (c : Client) : Client :=
  with_poll_queue (mkQueue v (unfinished_tasks (_poll_queue c))) c.

(** The nested [add(future)]: returns whether the worker lives on, and the
    frame. *)
Definition add (fh : option handle) (frame : Frame) : M (bool * Frame) :=
  match fh with
  | None => poll_task_done ;; ret (false, frame)
  | Some h =>
      let* f := read_future h in
      if (negb (frame_has (id f) frame) && negb (done f))%bool
      then ret (true, (frame ++ [(id f, h)])%list)
      else poll_task_done ;; ret (true, frame)
  end.

(** [while len(frame_futures) < _STATUS_QUERY_SIZE]: [pending] is what the
    queue holds, in the order [get_nowait] hands it out. *)
Fixpoint group (frame_earliest : Q) (pending : list (Q * option handle)) (frame : Frame)
  : M (bool * Frame) :=
  if (length frame <? _STATUS_QUERY_SIZE)%nat then
    match pending with
    | [] => ret (true, frame)
    | task :: rest =>
        modify (set_poll_items rest) ;;
        if Qleb (fst task - frame_earliest) (inject_Z _POLL_GROUP_TIMEFRAME) then
          let* r := add (snd task) frame in
          if fst r then group frame_earliest rest (snd r) else ret r
        else
          poll_task_done ;;
          modify (fun c => with_poll_queue (put_priority task (_poll_queue c)) c) ;;
          ret (true, frame)
    end
  else ret (true, frame).

(** [','.join(ids)] over [future.id] of the frame members. *)
Fixpoint join_ids (frame : Frame) : M (list string) :=
  match frame with
  | [] => ret []
  | (Some k, _) :: rest => let* ids := join_ids rest in ret (k :: ids)
  | (None, _) :: _ => raise (TypeError "sequence item: expected string")
  end.

Definition status_future (status : Message) (frame : Frame) : M handle :=
  match m_id status with
  | None => raise (KeyError "id")
  | Some k =>
      match frame_get (Some k) frame with
      | Some h => ret h
      | None => raise (KeyError k)
      end
  end.

(** The [try] block around the poll request and its [except] clause. *)
Definition poll_response (reply : HttpReply) (frame : Frame) : M unit :=
  try_except
    (let* response := session_call reply in
     let '(code, date, json) := response in
     (if bool_decide (code = 401) then raise SolverAuthenticationError else ret tt) ;;
     if ((500 <=? code)%Z && (code <? 600)%Z)%bool then
       for_each (map snd frame) _poll
     else
       raise_for_status code ;;
       let* statuses := response_json json in
       for_each statuses (fun status =>
         let* h := status_future status frame in
         _handle_problem_status status h))
    (fun exception =>
       let exception' := wrap_exception exception in
       for_each (map snd frame) (fun h => _set_error h (IOError exception') exception)).

(** The frame a worker builds: the blocking [get] and the grouping loop. *)
Definition build_frame : M (option (Q * bool * Frame)) :=
  let* q := gets _poll_queue in
  match get_nowait q with
  | None => ret None
  | Some (task, q') =>
      modify (with_poll_queue q') ;;
      let frame_earliest := fst task in
      let* first := add (snd task) [] in
      if fst first then
        let* grouped := group frame_earliest (items q') (snd first) in
        ret (Some (frame_earliest, fst grouped, snd grouped))
      else ret (Some (frame_earliest, false, snd first))
  end.

Definition _do_poll_problems (reply : HttpReply) : M Worker :=
  try_except
    (let* built := build_frame in
     match built with
     | None => ret Blocked
     | Some (frame_earliest, false, _) => ret Exited
     | Some (frame_earliest, true, frame_futures) =>
         let* ids := join_ids frame_futures in
         match ids with
         | [] => ret Continue
         | _ =>
             (* delay = frame_earliest - time.time() *)
             let* now := read_clock in
             poll_response reply frame_futures ;;
             for_each frame_futures (fun _ => poll_task_done) ;;
             ret Continue
         end
     end)
    (fun err => ret Exited).

(** ** [Client._do_cancel_problems]: one iteration of the worker loop *)

Definition cancel_task_done : M unit :=
  modify (fun c => with_cancel_queue (task_done (_cancel_queue c)) c).

(** [item[0] for item in item_list]: subscripting the sentinel raises. *)
Fixpoint unpack_items (item_list : list (option (string * option handle)))
  : M (list (string * option handle)) :=
  match item_list with
  | [] => ret []
  | Some item :: rest => let* others := unpack_items rest in ret (item :: others)
  | None :: _ => raise (TypeError "'NoneType' object is not subscriptable")
  end.

Definition delete_body (item_list : list (string * option handle)) : list string :=
  map fst item_list.

Definition session_delete (item_list : list (string * option handle)) (reply : HttpReply)
  : M unit :=
  modify (fun c => with_delete_log (delete_log c ++ [item_list])%list c) ;;
  match reply with
  | Timeout => raise RequestTimeout
  | TransportFailure what => raise (TransportError what)
  | Response _ _ _ => ret tt
  end.

(** The request for what was drained, and the acknowledgements. *)
Definition cancel_batch (item_list : list (option (string * option handle)))
    (reply : HttpReply) : M Worker :=
  try_except
    (try_except
       (let* unpacked := unpack_items item_list in session_delete unpacked reply)
       (fun err =>
          for_each item_list (fun item =>
            match item with
            | Some (_, Some h) => _set_error h err err
            | Some (_, None) => ret tt
            | None => raise (TypeError "cannot unpack non-iterable NoneType object")
            end)) ;;
     for_each item_list (fun _ => cancel_task_done) ;;
     ret Continue)
    (fun err => ret Exited).

Definition _do_cancel_problems (reply : HttpReply) : M Worker :=
  let* q := gets _cancel_queue in
  match get_nowait q with
  | None => ret Blocked
  | Some (None, q') => modify (with_cancel_queue q') ;; ret Exited
  | Some (Some item, q') =>
      modify (with_cancel_queue (mkQueue [] (unfinished_tasks q'))) ;;
      cancel_batch (Some item :: items q') reply
  end.

(** Modelled from the spec: [Future.cancel] of the absent [computation.py].
    "If remote_id is already known, cancel() enqueues (remote_id, future)
    directly" (phase A); "if remote_id is not yet known, set
    cancel_requested under a per-future lock" (phase B); "Cancel is
    idempotent; the second call is a no-op", also after the terminal state.
    The component contract words phase A as "remote_id is known and status
    is PENDING"; [pending_only] selects that reading.  Phase A marks the
    request as sent, which is what lets the dispatcher, under the same lock,
    send at most once. *)
Definition cancel (pending_only : bool) (h : handle) : M unit :=
  let* f := read_future h in
  if (done f || _cancel_requested f)%bool then ret tt
  else
    update_future h (set_cancel_requested true) ;;
    match id f with
    | Some id_ =>
        if (negb (_cancel_sent f) &&
            (negb pending_only || bool_decide (remote_status f = Some STATUS_PENDING)))%bool
        then update_future h (set_cancel_sent true) ;; _cancel id_ h
        else ret tt
    | None => ret tt
    end.

(** ** [Client.get_solvers]: values of solver features

    Feature values and filter arguments are JSON-like Python values; tuples
    and sets given as filter arguments are lists here.  Comparisons follow
    Python 3: numbers (with [bool]) compare with numbers, strings with
    strings, lists with lists, anything else raises [TypeError]. *)

#[local] Set Warnings "-register-all".

Inductive Value : Type :=
| VNone
| VBool (b : bool)
| VInt (z : Z)
| VStr (s : string)
| VList (elements : list Value)
| VDict (entries : list (string * Value)).

Definition as_number (v : Value) : option Z :=
  match v with
  | VBool true => Some 1
  | VBool false => Some 0
  | VInt z => Some z
  | _ => None
  end.

Fixpoint dict_get (key : string) (entries : list (string * Value)) : option Value :=
  match entries with
  | [] => None
  | (k, v) :: rest => if bool_decide (k = key) then Some v else dict_get key rest
  end.

(** [a == b] *)
Fixpoint py_eq (a b : Value) : bool :=
  match as_number a, as_number b with
  | Some x, Some y => (x =? y)%Z
  | _, _ =>
      match a, b with
      | VNone, VNone => true
      | VStr s, VStr t => bool_decide (s = t)
      | VList l, VList k =>
          (fix all2 (l k : list Value) : bool :=
             match l, k with
             | [], [] => true
             | x :: l', y :: k' => py_eq x y && all2 l' k'
             | _, _ => false
             end) l k
      | VDict d, VDict e =>
          (length d =? length e)%nat &&
          (fix each (d : list (string * Value)) : bool :=
             match d with
             | [] => true
             | (key, v) :: d' =>
                 match dict_get key e with
                 | Some w => py_eq v w
                 | None => false
                 end && each d'
             end) d
      | _, _ => false
      end
  end.

(** Three-way comparison behind [<], [<=], [>], [>=]; [None] is
    [TypeError]. *)
Fixpoint py_cmp (a b : Value) : option comparison :=
  match as_number a, as_number b with
  | Some x, Some y => Some (x ?= y)%Z
  | _, _ =>
      match a, b with
      | VStr s, VStr t => Some (String.compare s t)
      | VList l, VList k =>
          (fix lex (l k : list Value) : option comparison :=
             match l, k with
             | [], [] => Some Eq
             | [], _ :: _ => Some Lt
             | _ :: _, [] => Some Gt
             | x :: l', y :: k' => if py_eq x y then lex l' k' else py_cmp x y
             end) l k
      | _, _ => None
      end
  end.

Definition compare_with (accept : comparison -> bool) (a b : Value) : Res bool :=
  match py_cmp a b with
  | Some c => Ok (accept c)
  | None => Raise (TypeError "unorderable types")
  end.

Definition py_lt : Value -> Value -> Res bool :=
  compare_with (fun c => match c with Lt => true | _ => false end).
Definition py_le : Value -> Value -> Res bool :=
  compare_with (fun c => match c with Gt => false | _ => true end).
Definition py_gt : Value -> Value -> Res bool :=
  compare_with (fun c => match c with Gt => true | _ => false end).
Definition py_ge : Value -> Value -> Res bool :=
  compare_with (fun c => match c with Lt => false | _ => true end).

Definition res_bind {A B : Type} (r : Res A) (k : A -> Res B) : Res B :=
  match r with
  | Ok a => k a
  | Raise e => Raise e
  end.

(** [x and y] on fallible operands: [y] is evaluated only if [x] holds. *)
Definition res_and (x : Res bool) (y : Res bool) : Res bool :=
  res_bind x (fun b => if b then y else Ok false).

(** [v is None] *)
Definition is_none (v : Value) : bool :=
  match v with
  | VNone => true
  | _ => false
  end.

(** Truth value of an object. *)
Definition truthy (v : Value) : bool :=
  match v with
  | VNone => false
  | VBool b => b
  | VInt z => negb (z =? 0)%Z
  | VStr s => negb (bool_decide (s = EmptyString))
  | VList l => negb (bool_decide (l = []))%bool
  | VDict d => negb (bool_decide (d = []))%bool
  end.

(** ** [Client.get_solvers]: the filter operators *)

(** [min(pair), max(pair)] of a two-element range. *)
Definition min_max (a b : Value) : Res (Value * Value) :=
  res_bind (py_lt b a) (fun b_lt_a =>
  res_bind (py_gt b a) (fun b_gt_a =>
  Ok (if b_lt_a then b else a, if b_gt_a then b else a))).

Definition covers_op (prop val : Value) : Res bool :=
  match prop with
  | VList [a; b] =>
      res_bind (min_max a b) (fun '(llo, lhi) =>
        match val with
        | VList [c; d] =>
            res_bind (min_max c d) (fun '(rlo, rhi) =>
              res_and (py_le llo rlo) (py_ge lhi rhi))
        | _ => res_and (py_le llo val) (py_le val lhi)
        end)
  | _ => Raise (ValueError "2-element list/tuple range required for LHS value")
  end.

Definition within_op (prop val : Value) : Res bool :=
  match covers_op val prop with
  | Raise (ValueError _) => Raise (ValueError "2-element list/tuple range required for RHS value")
  | r => r
  end.

Definition hashable (v : Value) : bool :=
  match v with
  | VList _ | VDict _ => false
  | _ => true
  end.

Fixpoint chars (s : string) : list Value :=
  match s with
  | EmptyString => []
  | String a rest => VStr (String a EmptyString) :: chars rest
  end.

(** [iter(v)] *)
Definition iterate (v : Value) : Res (list Value) :=
  match v with
  | VList l => Ok l
  | VStr s => Ok (chars s)
  | VDict d => Ok (map (fun kv => VStr (fst kv)) d)
  | _ => Raise (TypeError "object is not iterable")
  end.

(** [x in container] *)
Definition py_in (x container : Value) : Res bool :=
  match container with
  | VList l => Ok (existsb (py_eq x) l)
  | VStr s =>
      match x with
      | VStr sub => Ok (str_contains sub s)
      | _ => Raise (TypeError "'in <string>' requires string as left operand")
      end
  | VDict d =>
      if hashable x
      then Ok (existsb (fun kv => py_eq x (VStr (fst kv))) d)
      else Raise (TypeError "unhashable type")
  | _ => Raise (TypeError "argument is not iterable")
  end.

Fixpoint res_map {A B : Type} (f : A -> Res B) (l : list A) : Res (list B) :=
  match l with
  | [] => Ok []
  | x :: rest =>
      res_bind (f x) (fun y => res_bind (res_map f rest) (fun ys => Ok (y :: ys)))
  end.

Definition as_hashable (v : Value) : Res Value :=
  if hashable v then Ok v else Raise (TypeError "unhashable type").

(** [tuple(x)] as a set member. *)
Definition as_tuple (x : Value) : Res Value :=
  res_bind (iterate x) (fun elements =>
  res_bind (res_map as_hashable elements) (fun elements' => Ok (VList elements'))).

(** The nested [_set(iterable)]; the set is the list of its members. *)
Definition _set (iterable : Value) : Res (list Value) :=
  res_bind (iterate iterable) (fun elements =>
    match elements with
    | [] => Raise StopIteration
    | VList _ :: _ => res_map as_tuple elements
    | _ => res_map as_hashable elements
    end).

Definition subset_of (a b : list Value) : bool :=
  forallb (fun x => existsb (py_eq x) b) a.

Section Filters.

(** [re_match val prop] stands for
    [re.match("^{}$".format(val), prop)] being a match. *)
Variable re_match : Value -> string -> bool.

Definition Op : Type := Value -> Value -> Res bool.

Definition with_valid_lhs (op : Op) : Op :=
  fun prop val =>
    match prop with
    | VNone => Ok false
    | _ => op prop val
    end.

Definition regex_op : Op :=
  fun prop val =>
    match prop with
    | VStr subject => Ok (re_match val subject)
    | _ => Raise (TypeError "expected string or bytes-like object")
    end.

Definition available_op : Op :=
  fun prop val =>
    Ok (if truthy val then negb (is_none prop) else is_none prop).

Definition ops (name : string) : option Op :=
  if bool_decide (name = "lt") then Some (with_valid_lhs py_lt)
  else if bool_decide (name = "lte") then Some (with_valid_lhs py_le)
  else if bool_decide (name = "gt") then Some (with_valid_lhs py_gt)
  else if bool_decide (name = "gte") then Some (with_valid_lhs py_ge)
  else if bool_decide (name = "eq") then Some (fun prop val => Ok (py_eq prop val))
  else if bool_decide (name = "available") then Some available_op
  else if bool_decide (name = "regex") then Some (with_valid_lhs regex_op)
  else if bool_decide (name = "covers") then Some (with_valid_lhs covers_op)
  else if bool_decide (name = "within") then Some (with_valid_lhs within_op)
  else if bool_decide (name = "in") then Some (fun prop val => py_in prop val)
  else if bool_decide (name = "contains")
    then Some (with_valid_lhs (fun prop val => py_in val prop))
  else if bool_decide (name = "issubset")
    then Some (with_valid_lhs (fun prop val =>
           res_bind (_set prop) (fun a => res_bind (_set val) (fun b => Ok (subset_of a b)))))
  else if bool_decide (name = "issuperset")
    then Some (with_valid_lhs (fun prop val =>
           res_bind (_set prop) (fun a => res_bind (_set val) (fun b => Ok (subset_of b a)))))
  else None.

(** [dwave/cloud/solver.py] is not part of the sources at hand: a solver
    is what [predicate] reads of it, the derived properties with their
    values ([path in solver.derived_properties], [getattr(solver, path)])
    and the two dictionaries of the descriptor. *)
Record Solver : Type := mkSolver {
  derived_properties : list (string * Value);
  parameters : list (string * Value);
  properties : list (string * Value)
}.

(** [pluck(d, path, None)] of the [plucky] package, on the segments of the
    dotted path: the value under the nested keys, [VNone] when a key is
    missing on the way (or the path is empty). *)
Fixpoint pluck (d : list (string * Value)) (path : list string) : Value :=
  match path with
  | [] => VNone
  | key :: rest =>
      match dict_get key d, rest with
      | Some v, [] => v
      | Some (VDict inner), _ :: _ => pluck inner rest
      | _, _ => VNone
      end
  end.

(** The nested [predicate(solver, query, val)]; [query] is the filter
    keyword split on the double underscore. *)
Definition split_query (query : list string) : option string * list string :=
  match reverse query with
  | [] => (None, query)
  | potential_op_name :: potential_path =>
      match ops potential_op_name with
      | Some _ => (Some potential_op_name, reverse potential_path)
      | None => (None, query)
      end
  end.

Definition op_or (op_name : option string) (implied : string) : Op :=
  default (fun _ _ => Raise (KeyError implied)) (ops (default implied op_name)).

Definition predicate (solver : Solver) (query : list string) (val : Value) : Res bool :=
  let '(op_name, potential_path) := split_query query in
  let path := String.concat "." potential_path in
  match dict_get path (derived_properties solver) with
  | Some attr => op_or op_name "eq" attr val
  | None =>
      if negb (is_none (pluck (parameters solver) potential_path)) then
        op_or op_name "available" (pluck (parameters solver) potential_path) val
      else if negb (is_none (pluck (properties solver) potential_path)) then
        op_or op_name "eq" (pluck (properties solver) potential_path) val
      else
        op_or op_name "eq" VNone val
  end.




End Filters.

(** ** [Client.get_solvers]: ordering

    The docstring asks the key values to be of one ordered type; integers
    stand for it.  [pluck_key solver path] stands for
    [pluck(solver, path, None)] on the solver object. *)

Section Ordering.

Context {S : Type}.
Variable pluck_key : S -> string -> option Z.

Inductive OrderBy : Type :=
| OrderNone
| OrderPath (path : string)
| OrderCallable (key : S -> option Z).

(** [list.sort(key=operator.itemgetter(0))]: a stable sort on the keys. *)
Fixpoint insert_sorted (x : Z * S) (l : list (Z * S)) : list (Z * S) :=
  match l with
  | [] => [x]
  | y :: rest =>
      if (fst x <=? fst y)%Z then x :: y :: rest else y :: insert_sorted x rest
  end.

Fixpoint sort_by_key (l : list (Z * S)) : list (Z * S) :=
  match l with
  | [] => []
  | x :: rest => insert_sorted x (sort_by_key rest)
  end.

(** The parameter validation: [(sort_key, sort_reverse)]. *)
Definition sort_params (order_by : OrderBy) : option (S -> option Z) * bool :=
  match order_by with
  | OrderNone => (None, false)
  | OrderPath EmptyString => (None, false)
  | OrderPath (String first rest as path) =>
      let sort_reverse := bool_decide (first = "-"%char) in
      let order_by := if sort_reverse then rest else path in
      if bool_decide (order_by = EmptyString)
      then (None, sort_reverse)
      else (Some (fun solver => pluck_key solver order_by), sort_reverse)
  | OrderCallable key => (Some key, false)
  end.

Definition with_invalid_keys (solvers_with_keys : list (option Z * S)) : list S :=
  omap (fun ks => match fst ks with None => Some (snd ks) | Some _ => None end)
    solvers_with_keys.

Definition with_valid_keys (solvers_with_keys : list (option Z * S)) : list (Z * S) :=
  omap (fun ks => match fst ks with Some key => Some (key, snd ks) | None => None end)
    solvers_with_keys.

(** [sort: undefined (None) key values go last] *)
Definition sort_solvers (sort_key : S -> option Z) (solvers : list S) : list S :=
  let solvers_with_keys := map (fun solver => (sort_key solver, solver)) solvers in
  (map snd (sort_by_key (with_valid_keys solvers_with_keys))
     ++ with_invalid_keys solvers_with_keys)%list.

Definition order_solvers (order_by : OrderBy) (solvers : list S) : list S :=
  let '(sort_key, sort_reverse) := sort_params order_by in
  let solvers :=
    match sort_key with
    | Some key => sort_solvers key solvers
    | None => solvers
    end in
  if sort_reverse then reverse solvers else solvers.

End Ordering.


(** ** [Client._submit] *)

Definition _submit (body : string) (h : handle) : M unit :=
  modify (fun c =>
    with_submission_queue (put (Some (mkSubmitMessage body h)) (_submission_queue c)) c).

(** ** [Client._do_load_results]: one iteration of the worker loop

    The reply to [GET problems/{id}/]: [json] is [None] when
    [response.json()] raises; a reply that parses is one status record. *)

Inductive ResultReply : Type :=
| ResultTimeout
| ResultTransportFailure (what : string)
| ResultResponse (status_code : Z) (json : option Message).

Definition load_task_done : M unit :=
  modify (fun c => with_load_queue (task_done (_load_queue c)) c).

(** The inner [try] block: the request, the status checks and the body. *)
Definition get_result (reply : ResultReply) : M Message :=
  let* response :=
    match reply with
    | ResultTimeout => raise RequestTimeout
    | ResultTransportFailure what => raise (TransportError what)
    | ResultResponse code json => ret (code, json)
    end in
  let '(code, json) := response in
  (if bool_decide (code = 401) then raise SolverAuthenticationError else ret tt) ;;
  raise_for_status code ;;
  match json with
  | Some message => ret message
  | None => raise (ValueError "No JSON object could be decoded")
  end.

(** The request for one future: on an exception the future is failed and
    the loop goes on ([continue]) before [task_done] is reached. *)
Definition load_result (h : handle) (reply : ResultReply) : M unit :=
  let* loaded :=
    try_except
      (let* message := get_result reply in ret (Some message))
      (fun exception =>
         let exception' := wrap_exception exception in
         _set_error h (IOError exception') exception ;;
         ret None) in
  match loaded with
  | None => ret tt
  | Some message =>
      _handle_problem_status message h ;;
      load_task_done
  end.

Definition _do_load_results (reply : ResultReply) : M Worker :=
  try_except
    (let* q := gets _load_queue in
     match get_nowait q with
     | None => ret Blocked
     | Some (None, q') => modify (with_load_queue q') ;; ret Exited
     | Some (Some h, q') =>
         modify (with_load_queue q') ;;
         (* 'problems/{}/'.format(future.id) *)
         let* f := read_future h in
         load_result h reply ;;
         ret Continue
     end)
    (fun err => ret Exited).

(** ** [Client.get_solver]

    [dwave/cloud/exceptions.py] is not part of the sources at hand: a call
    of [get_solver] returns a solver, raises [SolverNotFoundError], or lets
    through what [get_solvers] raised. *)


(** Keyword arguments that are solver features: [**filters] of
    [get_solver] and the dictionary [default_solver].  [order_by] is among
    them when the caller gave it; [get_solvers] binds it to its own
    parameter, whose default is ['avg_load']. *)
Record Features : Type := mkFeatures {
  kw_order_by : option (@OrderBy Solver);
  kw_filters : list (list string * Value)
}.

(** [not filters]: the dictionary is empty. *)
Definition no_features (kw : Features) : bool :=
  match kw_order_by kw, kw_filters kw with
  | None, [] => true
  | _, _ => false
  end.

(** [filters.setdefault(key, val)] *)
Definition setdefault (query : list string) (val : Value)
    (filters : list (list string * Value)) : list (list string * Value) :=
  if existsb (fun f => bool_decide (fst f = query)) filters
  then filters
  else (filters ++ [(query, val)])%list.


(** * Vocabulary of the properties *)

Local Open Scope list_scope.

(** ** Relations the code respects *)

(** [m] takes every client state to one that [R] relates to it, whether it
    returns or raises. *)
Definition respects (R : relation Client) {A : Type} (m : M A) : Prop :=
  forall c, R c (fst (m c)).

(** ** [_poll] in closed form *)

Definition scheduled_backoff (f : Future) : Z := next_backoff (_poll_backoff f).

Definition poll_started (h : handle) (f : Future) (c : Client) : Client :=
  with_clock_reads (S (S (clock_reads c)))
    (with_futures (<[h := set_poll_backoff (Some (scheduled_backoff f)) f]> (futures c)) c).

Definition poll_at (f : Future) (c : Client) : Q :=
  (sys_clock c (clock_reads c) + inject_Z (scheduled_backoff f))%Q.

Definition age_on_next_poll (f : Future) (c : Client) : Q :=
  let now := sys_clock c (S (clock_reads c)) in
  ((now - time_created f) + (poll_at f c - now))%Q.

(** ** Sample states *)

Definition fresh_future (created : Q) : Future :=
  mkFuture None None false false None created None None None None None None.

Definition submitted_future (id_ : string) (created : Q) : Future :=
  mkFuture (Some id_) (Some STATUS_PENDING) false false None created
    None None None None None None.

Definition idle_client (timeout : option Q) (heap : list (handle * Future))
    (clock : nat -> Q) : Client :=
  mkClient timeout (list_to_map heap) empty_queue empty_queue empty_queue empty_queue
    clock 0 [].

(** ** Back-off of the poll schedule *)

Definition backoff_of (c : Client) (h : handle) : option Z :=
  match futures c !! h with
  | Some f => _poll_backoff f
  | None => None
  end.

(** [n] polls of the same future in a row. *)
Definition polled (h : handle) (n : nat) (c : Client) : Client :=
  Nat.iter n (exec (_poll h)) c.

(** [paces m]: [m] leaves every back-off as it is, or advances it: a
    back-off, once set within [1, 60], stays there and never decreases. *)
Definition same_backoffs : relation Client :=
  fun c c' => forall h, backoff_of c' h = backoff_of c h.

Definition backoff_step (before after : option Z) : Prop :=
  match before, after with
  | None, None => True
  | None, Some b' => (1 <= b' <= 60)%Z
  | Some b, Some b' => (1 <= b <= 60)%Z -> (b <= b' <= 60)%Z
  | Some _, None => False
  end.

Definition backoff_grows : relation Client :=
  fun c c' => forall h, backoff_step (backoff_of c h) (backoff_of c' h).

Abbreviation paces := (respects backoff_grows).

(** ** The dispatcher on an immediate rejection *)

Definition missing_parameter_reply : Message :=
  mkMessage (Some 400%Z) (Some "Missing parameter 'num_reads'") None None None None
    None None None None.

(** ** A 5xx reply to a poll *)

Definition outcome_of (c : Client) (h : handle) : option Outcome :=
  match futures c !! h with
  | Some f => outcome f
  | None => None
  end.

Definition requeued (c : Client) (h : handle) : Prop :=
  exists at_ : Q, (at_, Some h) ∈ items (_poll_queue c).

(** Every member of the frame is back on the poll queue and none has been
    settled. *)
Definition requeued_unsettled (frame : Frame) (c c' : Client) : Prop :=
  forall k h, (k, h) ∈ frame -> requeued c' h /\ outcome_of c' h = outcome_of c h.

(** Scheduling the next poll of each future in turn raises nothing: no
    member's age at its next poll exceeds [polling_timeout]. *)
Definition polls_in_time (hs : list handle) (c : Client) : Prop :=
  snd (for_each hs _poll c) = Ok tt.

Definition ageing_client : Client :=
  idle_client (Some 5%Q) [(0%nat, submitted_future "123" 0)] (fun _ => 10%Q).

Definition ageing_frame : Frame := [(Some "123", 0%nat)].

(** ** A network timeout on submission *)

Definition fail_message (error exc_info : Exn) (mess : SubmitMessage) : M unit :=
  _set_error (future mess) error exc_info ;; submission_task_done.


Definition one_problem : list SubmitMessage := [mkSubmitMessage "{}" 0%nat].

Definition submitting_client : Client :=
  idle_client None [(0%nat, fresh_future 0)] (fun _ => 0%Q).

(** ** Size of a submission batch *)

Definition queued_submissions (n : nat) : Queue (option SubmitMessage) :=
  mkQueue (replicate n (Some (mkSubmitMessage "{}" 0%nat))) (Z.of_nat n).

(** ** The frame of a poll worker *)

(** The members of a frame are at most [_STATUS_QUERY_SIZE], no two have
    the same id, and each was not done when it was added. *)
Definition frame_ok (heap : gmap handle Future) (frame : Frame) : Prop :=
  (length frame <= _STATUS_QUERY_SIZE)%nat
  /\ NoDup (map fst frame)
  /\ forall k h, (k, h) ∈ frame ->
       exists f, heap !! h = Some f /\ id f = k /\ done f = false.

(** Tasks taken from the poll queue and not yet acknowledged by
    [task_done]. *)
Definition backlog (c : Client) : Z :=
  unfinished_tasks (_poll_queue c) - Z.of_nat (length (items (_poll_queue c))).

Definition alive_handles (heap : gmap handle Future) (pending : list (Q * option handle)) : bool :=
  forallb (fun task =>
             match snd task with
             | Some h => bool_decide (is_Some (heap !! h))
             | None => true
             end) pending.

(** What a worker has in hand after the blocking [get] and the grouping
    loop: nothing (it blocks on the empty queue), or a frame. *)
Definition frame_built (c : Client) : Prop :=
  exists c' built,
    build_frame c = (c', Ok built)
    /\ futures c' = futures c
    /\ match built with
       | None => items (_poll_queue c) = []
       | Some (frame_earliest, alive, frame) =>
           frame_ok (futures c) frame
           /\ backlog c' = (backlog c + Z.of_nat (length frame))%Z
           /\ forall c1 c2 ids, join_ids frame c1 = (c2, Ok ids) ->
                (length ids <= 100)%nat /\ NoDup ids
       end.

Definition done_future (id_ : string) : Future :=
  mkFuture (Some id_) (Some STATUS_COMPLETE) false false (Some 1%Z) 0
    None None None None None (Some (Error CanceledFutureError CanceledFutureError)).

(** A poll queue that names future 0 twice, a future that is done, and a
    second future object with the id of the first. *)
Definition polling_client : Client :=
  mkClient None
    (list_to_map [(0%nat, submitted_future "a" 0); (1%nat, done_future "b");
                  (2%nat, submitted_future "a" 0); (3%nat, submitted_future "c" 0)])
    empty_queue empty_queue
    (mkQueue [(1%Q, Some 0%nat); (1%Q, Some 1%nat); (2%Q, Some 2%nat);
              (2%Q, Some 0%nat); (3%Q, Some 3%nat); (9%Q, Some 3%nat)] 6)
    empty_queue (fun _ => 0%Q) 0 [].

(** ** The cancel protocol

    What the protocol is about: the cancel queue, the DELETE requests
    issued, and the two flags of each future. *)

Definition cancel_flags (f : Future) : bool * bool :=
  (_cancel_requested f, _cancel_sent f).

Definition CancelView : Type :=
  list (option (string * option handle))
  * list (list (string * option handle))
  * gmap handle (bool * bool).

Definition cancel_view (c : Client) : CancelView :=
  (items (_cancel_queue c), delete_log c, cancel_flags <$> futures c).

(** [keeps m]: [m] takes no part in the protocol. *)
Definition same_view : relation Client :=
  fun c c' => cancel_view c' = cancel_view c.

Abbreviation keeps := (respects same_view).

(** The effect of the block under [_single_cancel_lock] on the protocol. *)
Definition lock_effect (status id_ : string) (h : handle) (v : CancelView) : CancelView :=
  let '(queue, log, flags) := v in
  match flags !! h with
  | Some (true, sent) =>
      (if (negb sent && bool_decide (status = STATUS_PENDING))%bool
       then queue ++ [Some (id_, Some h)] else queue,
       log, <[h := (true, true)]> flags)
  | _ => v
  end.

(** Cancel requests issued for one future: those waiting on the cancel
    queue and those that went out in a DELETE. *)
Definition targets (h : handle) (item : string * option handle) : bool :=
  match snd item with
  | Some h' => bool_decide (h' = h)
  | None => false
  end.

Definition queued_for (h : handle) (queue : list (option (string * option handle))) : nat :=
  length (List.filter (fun item => match item with
                                   | Some x => targets h x
                                   | None => false
                                   end) queue).

Definition deleted_for (h : handle) (log : list (list (string * option handle))) : nat :=
  length (List.filter (targets h) (concat log)).

Definition issued (h : handle) (v : CancelView) : nat :=
  queued_for h v.1.1 + deleted_for h v.1.2.

Definition sent_flag (h : handle) (v : CancelView) : bool :=
  match v.2 !! h with
  | Some (_, true) => true
  | _ => false
  end.

(** The invariant of the protocol: nothing issued yet, or one request
    issued and [_cancel_sent] set. *)
Definition once_sent (h : handle) (v : CancelView) : Prop :=
  issued h v = 0%nat \/ (issued h v = 1%nat /\ sent_flag h v = true).

(** [steady h m]: [m] maintains the invariant of the protocol for [h]. *)
Definition once_kept (h : handle) : relation Client :=
  fun c c' => once_sent h (cancel_view c) -> once_sent h (cancel_view c').

Abbreviation steady h := (respects (once_kept h)).

(** The events that take part in the cancel protocol of a client: a user
    thread calls [cancel] on a future, a status record is dispatched (by
    any worker), and the submission, poll and cancel workers run one
    iteration of their loops. *)
Inductive Step : Type :=
| UserCancel (pending_only : bool) (h : handle)
| Dispatch (message : Message) (h : handle)
| SubmitWorker (reply : HttpReply)
| PollWorker (reply : HttpReply)
| CancelWorker (reply : HttpReply).

Definition step (s : Step) (c : Client) : Client :=
  match s with
  | UserCancel pending_only h => exec (cancel pending_only h) c
  | Dispatch message h => exec (_handle_problem_status message h) c
  | SubmitWorker reply => exec (_do_submit_problems reply) c
  | PollWorker reply => exec (_do_poll_problems reply) c
  | CancelWorker reply => exec (_do_cancel_problems reply) c
  end.

Definition run (steps : list Step) (c : Client) : Client :=
  foldl (fun c s => step s c) c steps.

Definition pending_reply (id_ : string) : Message :=
  mkMessage None None (Some STATUS_PENDING) (Some id_) None None None None None None.

Definition cancelled_reply (id_ : string) : Message :=
  mkMessage None None (Some STATUS_CANCELLED) (Some id_) None None None None None None.

(** One problem waits on the submission queue. *)
Definition queued_client : Client :=
  mkClient None (list_to_map [(0%nat, fresh_future 0)])
    (mkQueue [Some (mkSubmitMessage "{}" 0%nat)] 1)
    empty_queue empty_queue empty_queue (fun _ => 0%Q) 0 [].

(** Scenario S5: [cancel()] before the POST returns, the POST reply with
    the id, a second [cancel()], the cancel worker, a poll that is still
    PENDING, a third [cancel()], a poll that reports CANCELLED. *)
Definition cancel_early : list Step :=
  [UserCancel false 0%nat;
   SubmitWorker (Response 200 0 (Some [pending_reply "test-id"]));
   UserCancel true 0%nat;
   CancelWorker (Response 200 0 None);
   PollWorker (Response 200 0 (Some [pending_reply "test-id"]));
   UserCancel false 0%nat;
   PollWorker (Response 200 0 (Some [cancelled_reply "test-id"]))].

(** ** Scenarios of the test suite *)

Definition completed_reply (id_ : string) (answer : option string) : Message :=
  mkMessage None None (Some STATUS_COMPLETE) (Some id_) answer None None None None None.

(** [test_exponential_backoff_polling]: the POST and the first two polls
    report PENDING, the third poll reports COMPLETED. *)
Definition backoff_scenario : list Step :=
  [SubmitWorker (Response 200 0 (Some [pending_reply "123"]));
   PollWorker (Response 200 0 (Some [pending_reply "123"]));
   PollWorker (Response 200 0 (Some [pending_reply "123"]));
   PollWorker (Response 200 0 (Some [completed_reply "123" None]))].

(** [test_polling_recovery_after_5xx]: the first two polls fail with 503
    and 504. *)
Definition recovery_scenario : list Step :=
  [SubmitWorker (Response 200 0 (Some [pending_reply "123"]));
   PollWorker (Response 503 0 (Some [pending_reply "123"]));
   PollWorker (Response 504 0 (Some [pending_reply "123"]));
   PollWorker (Response 200 0 (Some [completed_reply "123" (Some "answer")]))].

(** ** Ordering of the solvers *)

(** Solvers with equal keys are in the order of the input. *)
Definition stable_wrt {S : Type} (key : S -> option Z) (input output : list S) : Prop :=
  forall k : option Z,
    filter (fun s => key s = k) output = filter (fun s => key s = k) input.

(** The solvers with a key come first, those without come last. *)
Definition none_last {S : Type} (key : S -> option Z) (output : list S) : Prop :=
  exists valid invalid,
    output = valid ++ invalid
    /\ Forall (fun s => key s <> None) valid
    /\ Forall (fun s => key s = None) invalid.

Definition keyed {S : Type} (key : S -> option Z) (p : Z * S) : Prop := key p.2 = Some p.1.

(** Solvers as pairs of a name and the value under the sort key. *)
Definition load_of (solver : string * option Z) (path : string) : option Z := snd solver.

Definition three_solvers : list (string * option Z) :=
  [("a", Some 1%Z); ("b", None); ("c", Some 1%Z)].

(** ** Filter predicates on a missing feature *)

(** The left-hand side [predicate] hands to the operator. *)
Definition feature (solver : Solver) (path : list string) : Value :=
  match dict_get (String.concat "." path) (derived_properties solver) with
  | Some attr => attr
  | None =>
      if negb (is_none (pluck (parameters solver) path))
      then pluck (parameters solver) path
      else pluck (properties solver) path
  end.


Definition no_regex (val : Value) (subject : string) : bool := false.

(** A solver that does not advertise [vfyc]. *)
Definition plain_solver : Solver :=
  mkSolver [("online", VBool true); ("avg_load", VNone)]
    [("num_reads", VStr "Number of samples to return.")]
    [("num_qubits", VInt 2048); ("h_range", VList [VInt (-2); VInt 2])].

(** ** The dispatcher settles or queues *)

(** Futures are never dropped from the heap. *)
Definition heap_kept : relation Client :=
  fun c c' => forall h, is_Some (futures c !! h) -> is_Some (futures c' !! h).

(** Only the future [h] is written. *)
Definition others_kept (h : handle) : relation Client :=
  fun c c' => forall h', h' <> h -> futures c' !! h' = futures c !! h'.

Definition same_load_queue : relation Client :=
  fun c c' => _load_queue c' = _load_queue c.

(** ** Time stamps over the life of a future *)

(** The events of the whole pipeline: those of the cancel protocol, a
    problem handed to [_submit], and one iteration of the load worker. *)
Inductive Event : Type :=
| Pipeline (s : Step)
| Submit (body : string) (h : handle)
| LoadWorker (reply : ResultReply).

Definition occur (e : Event) (c : Client) : Client :=
  match e with
  | Pipeline s => step s c
  | Submit body h => exec (_submit body h) c
  | LoadWorker reply => exec (_do_load_results reply) c
  end.

Definition play (events : list Event) (c : Client) : Client :=
  foldl (fun c e => occur e c) c events.

(** [f'] is a later state of the future [f]: the creation time is the
    same, and a time stamp that was set has kept its value. *)
Definition later_state (f f' : Future) : Prop :=
  time_created f' = time_created f
  /\ (forall t, time_received f = Some t -> time_received f' = Some t)
  /\ (forall t, time_solved f = Some t -> time_solved f' = Some t)
  /\ (forall t, eta_min f = Some t -> eta_min f' = Some t)
  /\ (forall t, eta_max f = Some t -> eta_max f' = Some t).

Definition stamps_kept : relation Client :=
  fun c c' => forall h f, futures c !! h = Some f ->
    exists f', futures c' !! h = Some f' /\ later_state f f'.

(** ** The polling timeout *)

(** Every poll on the queue is scheduled no later than [polling_timeout]
    seconds after the creation of its future. *)
Definition on_schedule (c : Client) : Prop :=
  forall at_ h limit,
    (at_, Some h) ∈ items (_poll_queue c) -> polling_timeout c = Some limit ->
    exists f, futures c !! h = Some f /\ (at_ - time_created f <= limit)%Q.

Definition schedule_kept : relation Client :=
  fun c c' => on_schedule c -> on_schedule c'.


(** ** Accounting of the queues *)

Inductive QueueName : Type :=
| Submission
| Cancel
| Poll
| Load.

Definition is_queue (name q : QueueName) : bool :=
  match name, q with
  | Submission, Submission | Cancel, Cancel | Poll, Poll | Load, Load => true
  | _, _ => false
  end.

(** Tasks taken from a queue ([get]) and not yet acknowledged
    ([task_done]); [join] returns when the queue is empty and nothing is
    owed. *)
Definition in_hand {A : Type} (q : Queue A) : Z :=
  unfinished_tasks q - Z.of_nat (length (items q)).

Definition owed (c : Client) (name : QueueName) : Z :=
  match name with
  | Submission => in_hand (_submission_queue c)
  | Cancel => in_hand (_cancel_queue c)
  | Poll => in_hand (_poll_queue c)
  | Load => in_hand (_load_queue c)
  end.

Definition same_owed : relation Client :=
  fun c c' => forall name, owed c' name = owed c name.

(** [name] is owed [n] tasks fewer, the other queues what they were. *)
Definition acknowledged (name : QueueName) (n : Z) : relation Client :=
  fun c c' => forall q, owed c' q = (owed c q - if is_queue name q then n else 0)%Z.

(** ** The submission worker *)

(** The exception a request ends in after the status checks of the
    workers: 401 is an authentication error, any other status from 400 to
    599 the [HTTPError] of [raise_for_status]. *)
Definition status_failure (code : Z) : option Exn :=
  if bool_decide (code = 401) then Some SolverAuthenticationError
  else if ((400 <=? code)%Z && (code <? 600)%Z)%bool then Some (HTTPError code)
  else None.

(** The exception the POST of a batch ends in, if any. *)
Definition post_failure (reply : HttpReply) : option Exn :=
  match reply with
  | Timeout => Some RequestTimeout
  | TransportFailure what => Some (TransportError what)
  | Response code _ json =>
      match status_failure code, json with
      | Some e, _ => Some e
      | None, None => Some (ValueError "No JSON object could be decoded")
      | None, Some _ => None
      end
  end.


(** The client after the request: a reply that arrives is time-stamped. *)
Definition after_request (reply : HttpReply) (c : Client) : Client :=
  match reply with
  | Response _ _ _ => with_clock_reads (S (clock_reads c)) c
  | _ => c
  end.

Definition all_alive (hs : list handle) (c : Client) : Prop :=
  forall h, h ∈ hs -> is_Some (futures c !! h).

(** The submission queue holds the same items. *)
Definition same_submissions : relation Client :=
  fun c c' => items (_submission_queue c') = items (_submission_queue c).

(** The futures of a batch are alive and the queue holds [waiting]. *)
Definition submitting (hs : list handle) (waiting : list (option SubmitMessage))
    (c : Client) : Prop :=
  all_alive hs c /\ items (_submission_queue c) = waiting.

(** The poll, load and cancel queues are what they were. *)
Definition same_downstream : relation Client :=
  fun c c' =>
    _poll_queue c' = _poll_queue c /\ _load_queue c' = _load_queue c
    /\ _cancel_queue c' = _cancel_queue c.

(** ** The routing of a status record *)

(** No time stamp of the record is a string that fails to parse. *)
Definition dates_parse (message : Message) : Prop :=
  m_submitted_on message <> Some DateBad
  /\ m_solved_on message <> Some DateBad
  /\ m_earliest_estimated_completion message <> Some DateBad
  /\ m_latest_estimated_completion message <> Some DateBad.

(** What the dispatcher does to a client before it routes a record on
    its status: it writes the flags and the time stamps of the future [h]
    and may enqueue a cancel request; everything else is as it was. *)
Definition prepared (h : handle) : relation Client :=
  fun c c' =>
    (forall h', h' <> h -> futures c' !! h' = futures c !! h')
    /\ (forall f, futures c !! h = Some f ->
          exists f', futures c' !! h = Some f'
            /\ id f' = id f /\ remote_status f' = remote_status f
            /\ outcome f' = outcome f /\ _poll_backoff f' = _poll_backoff f
            /\ time_created f' = time_created f)
    /\ _submission_queue c' = _submission_queue c
    /\ _poll_queue c' = _poll_queue c
    /\ _load_queue c' = _load_queue c
    /\ polling_timeout c' = polling_timeout c
    /\ sys_clock c' = sys_clock c
    /\ clock_reads c' = clock_reads c.

(** [m] returns on a client where [h] is alive, and only prepares [h]. *)
Definition sure (h : handle) (m : M unit) : Prop :=
  forall c, is_Some (futures c !! h) ->
    exists c', m c = (c', Ok tt) /\ prepared h c c'.

(** ** The load worker *)

(** The exception the request for a result ends in, if any. *)
Definition result_failure (reply : ResultReply) : option Exn :=
  match reply with
  | ResultTimeout => Some RequestTimeout
  | ResultTransportFailure what => Some (TransportError what)
  | ResultResponse code json =>
      match status_failure code, json with
      | Some e, _ => Some e
      | None, None => Some (ValueError "No JSON object could be decoded")
      | None, Some _ => None
      end
  end.

(** ** The cancel worker *)

Definition fail_item (err : Exn) (item : option (string * option handle)) : M unit :=
  match item with
  | Some (_, Some h) => _set_error h err err
  | Some (_, None) => ret tt
  | None => raise (TypeError "cannot unpack non-iterable NoneType object")
  end.

(** The futures named by the items of a cancel request. *)
Definition cancel_targets (batch : list (string * option handle)) : list handle :=
  omap snd batch.

(** The exception the DELETE request ends in, if any: the status code of
    a response is not looked at. *)
Definition delete_failure (reply : HttpReply) : option Exn :=
  match reply with
  | Timeout => Some RequestTimeout
  | TransportFailure what => Some (TransportError what)
  | Response _ _ _ => None
  end.

(** ** The poll worker *)

(** The exception the poll request ends in, if any; a status from 500 to
    599 is taken as transient. *)
Definition poll_failure (reply : HttpReply) : option Exn :=
  match reply with
  | Timeout => Some RequestTimeout
  | TransportFailure what => Some (TransportError what)
  | Response code _ json =>
      if bool_decide (code = 401) then Some SolverAuthenticationError
      else if ((500 <=? code)%Z && (code <? 600)%Z)%bool then None
      else if ((400 <=? code)%Z && (code <? 600)%Z)%bool then Some (HTTPError code)
      else match json with
           | None => Some (ValueError "No JSON object could be decoded")
           | Some _ => None
           end
  end.

(** The [try] block of the poll request. *)
Definition poll_request (reply : HttpReply) (frame : Frame) : M unit :=
  let* response := session_call reply in
  let '(code, date, json) := response in
  (if bool_decide (code = 401) then raise SolverAuthenticationError else ret tt) ;;
  if ((500 <=? code)%Z && (code <? 600)%Z)%bool then
    for_each (map snd frame) _poll
  else
    raise_for_status code ;;
    let* statuses := response_json json in
    for_each statuses (fun status =>
      let* h := status_future status frame in
      _handle_problem_status status h).

(** A task of the poll queue that names a future known under an id. *)
Definition pollable (heap : gmap handle Future) (task : Q * option handle) : Prop :=
  exists h f, snd task = Some h /\ heap !! h = Some f /\ is_Some (id f).

(** A frame whose members are alive and are keyed by an id. *)
Definition frame_keyed (heap : gmap handle Future) (frame : Frame) : Prop :=
  forall k h, (k, h) ∈ frame -> is_Some k /\ is_Some (heap !! h).

(** The submission, cancel and load queues are what they were. *)
Definition same_other_queues : relation Client :=
  fun c c' =>
    _submission_queue c' = _submission_queue c
    /\ _cancel_queue c' = _cancel_queue c
    /\ _load_queue c' = _load_queue c.

(** ** The time frame of a poll request *)


(** ** What [get_solvers] and [get_solver] return *)


(** The features [get_solver] asks [get_solvers] for: a [name] becomes the
    filter [name] unless there is one, and the default solver of the client
    stands in when nothing at all is asked for. *)
Definition requested (default_solver : Features) (name : Value) (filters : Features)
  : Features :=
  let filters :=
    if negb (is_none name)
    then mkFeatures (kw_order_by filters) (setdefault ["name"] name (kw_filters filters))
    else filters in
  if (no_features filters && negb (no_features default_solver))%bool
  then default_solver
  else filters.

(** ** Sample states of the workers *)

(** Two problems wait on the submission queue. *)
Definition two_problems : list SubmitMessage :=
  [mkSubmitMessage "{}" 0%nat; mkSubmitMessage "{}" 1%nat].

Definition two_futures : Client :=
  idle_client None [(0%nat, fresh_future 0); (1%nat, fresh_future 0)] (fun _ => 0%Q).

(** One future waits on the load queue, one on the cancel queue, one on the
    poll queue. *)
Definition loading_client : Client :=
  mkClient None (list_to_map [(0%nat, submitted_future "123" 0)])
    empty_queue empty_queue empty_queue (mkQueue [Some 0%nat] 1) (fun _ => 0%Q) 0 [].

Definition cancelling_client : Client :=
  mkClient None (list_to_map [(0%nat, submitted_future "123" 0)])
    empty_queue (mkQueue [Some ("123", Some 0%nat)] 1) empty_queue empty_queue
    (fun _ => 0%Q) 0 [].

Definition polling_one : Client :=
  mkClient None (list_to_map [(0%nat, submitted_future "123" 0)])
    empty_queue empty_queue (mkQueue [(1%Q, Some 0%nat)] 1) empty_queue
    (fun _ => 0%Q) 0 [].

(** * Properties *)

(** ** Reading the monad *)

Lemma bind_ok {A B : Type} (m : M A) (k : A -> M B) c c' a :
  m c = (c', Ok a) -> bind m k c = k a c'.
Proof. intros H. unfold bind. now rewrite H. Qed.

Lemma bind_raise {A B : Type} (m : M A) (k : A -> M B) c c' e :
  m c = (c', Raise e) -> bind m k c = (c', Raise e).
Proof. intros H. unfold bind. now rewrite H. Qed.

Lemma try_ok {A : Type} (m : M A) handler c c' a :
  m c = (c', Ok a) -> try_except m handler c = (c', Ok a).
Proof. intros H. unfold try_except. now rewrite H. Qed.

Lemma try_raise {A : Type} (m : M A) handler c c' e :
  m c = (c', Raise e) -> try_except m handler c = handler e c'.
Proof. intros H. unfold try_except. now rewrite H. Qed.

Lemma read_future_some h c f :
  futures c !! h = Some f -> read_future h c = (c, Ok f).
Proof. intros H. unfold read_future. now rewrite H. Qed.

Lemma update_future_some h g c f :
  futures c !! h = Some f ->
  update_future h g c = (with_futures (<[h := g f]> (futures c)) c, Ok tt).
Proof. intros H. unfold update_future. now rewrite H. Qed.

(** ** The grouping loop, unfolded *)

Lemma group_nil frame_earliest frame :
  group frame_earliest [] frame = ret (true, frame).
Proof. simpl. now destruct (length frame <? _STATUS_QUERY_SIZE)%nat. Qed.

Lemma group_full frame_earliest pending frame :
  (length frame <? _STATUS_QUERY_SIZE)%nat = false ->
  group frame_earliest pending frame = ret (true, frame).
Proof. intros H. destruct pending; simpl; now rewrite H. Qed.

Lemma group_cons frame_earliest task rest frame :
  (length frame <? _STATUS_QUERY_SIZE)%nat = true ->
  group frame_earliest (task :: rest) frame
  = (modify (set_poll_items rest) ;;
     if Qleb (fst task - frame_earliest) (inject_Z _POLL_GROUP_TIMEFRAME) then
       let* r := add (snd task) frame in
       if fst r then group frame_earliest rest (snd r) else ret r
     else
       poll_task_done ;;
       modify (fun c => with_poll_queue (put_priority task (_poll_queue c)) c) ;;
       ret (true, frame))%py.
Proof. intros H. simpl. now rewrite H. Qed.

(** ** Relations the code respects *)

Section Respects.

Context (R : relation Client) `{!PreOrder R}.

Lemma respects_ret {A : Type} (a : A) : respects R (ret a).
Proof. intros c. reflexivity. Qed.

Lemma respects_raise {A : Type} (e : Exn) : respects R (@raise A e).
Proof. intros c. reflexivity. Qed.

Lemma respects_gets {A : Type} (f : Client -> A) : respects R (gets f).
Proof. intros c. reflexivity. Qed.

Lemma respects_read_future h : respects R (read_future h).
Proof. intros c. unfold read_future. destruct (futures c !! h); reflexivity. Qed.

Lemma respects_bind {A B : Type} (m : M A) (k : A -> M B) :
  respects R m -> (forall a, respects R (k a)) -> respects R (bind m k).
Proof.
  intros Hm Hk c. unfold bind. specialize (Hm c).
  destruct (m c) as [c1 [a|e]]; simpl in *; [|exact Hm].
  etransitivity; [exact Hm | apply Hk].
Qed.

Lemma respects_try {A : Type} (m : M A) (handler : Exn -> M A) :
  respects R m -> (forall e, respects R (handler e)) -> respects R (try_except m handler).
Proof.
  intros Hm Hh c. unfold try_except. specialize (Hm c).
  destruct (m c) as [c1 [a|e]]; simpl in *; [exact Hm|].
  etransitivity; [exact Hm | apply Hh].
Qed.

Lemma respects_for_each {A : Type} (l : list A) (body : A -> M unit) :
  (forall x, respects R (body x)) -> respects R (for_each l body).
Proof.
  intros Hb. induction l as [|x l IH]; simpl.
  - apply respects_ret.
  - apply respects_bind; auto.
Qed.

Lemma respects_session_call reply : respects R (session_call reply).
Proof. destruct reply; intros c; reflexivity. Qed.

Lemma respects_response_json json : respects R (response_json json).
Proof. destruct json; intros c; reflexivity. Qed.

Lemma respects_raise_for_status code : respects R (raise_for_status code).
Proof.
  unfold raise_for_status. destruct (_ && _)%bool; intros c; reflexivity.
Qed.

Lemma respects_all_messages ready : respects R (all_messages ready).
Proof.
  induction ready as [|item ready IH]; simpl; [apply respects_ret|].
  apply respects_bind; [destruct item; intros c; reflexivity|]. intros mess.
  apply respects_bind; [exact IH|]. intros others. apply respects_ret.
Qed.

Lemma respects_join_ids frame : respects R (join_ids frame).
Proof.
  induction frame as [|[[k|] h] frame IH]; simpl;
    [apply respects_ret | | apply respects_raise].
  apply respects_bind; [exact IH|]. intros ids. apply respects_ret.
Qed.

Lemma respects_unpack_items item_list : respects R (unpack_items item_list).
Proof.
  induction item_list as [|[item|] rest IH]; simpl;
    [apply respects_ret | | apply respects_raise].
  apply respects_bind; [exact IH|]. intros others. apply respects_ret.
Qed.

Lemma respects_status_future status frame : respects R (status_future status frame).
Proof.
  unfold status_future. destruct (m_id status); [|apply respects_raise].
  destruct (frame_get _ _); [apply respects_ret | apply respects_raise].
Qed.

(** The grouping loop only touches the poll queue. *)
Lemma respects_group frame_earliest pending :
  (forall f : Queue (Q * option handle) -> Queue (Q * option handle),
     respects R (modify (fun c => with_poll_queue (f (_poll_queue c)) c))) ->
  forall frame, respects R (group frame_earliest pending frame).
Proof.
  intros Hqueue.
  assert (Hadd : forall fh frame, respects R (add fh frame)).
  { intros [h|] frame; unfold add.
    - apply respects_bind; [apply respects_read_future|]. intros f.
      destruct (_ && _)%bool; [apply respects_ret|].
      apply respects_bind; [apply (Hqueue task_done)|]. intros _. apply respects_ret.
    - apply respects_bind; [apply (Hqueue task_done)|]. intros _. apply respects_ret. }
  induction pending as [|task rest IH]; intros frame.
  - rewrite group_nil. apply respects_ret.
  - destruct (length frame <? _STATUS_QUERY_SIZE)%nat eqn:Hlt.
    + rewrite (group_cons _ _ _ _ Hlt).
      apply respects_bind;
        [apply (Hqueue (fun q => mkQueue rest (unfinished_tasks q)))|].
      intros _. destruct (Qleb _ _).
      * apply respects_bind; [apply Hadd|]. intros r.
        destruct (fst r); [apply IH | apply respects_ret].
      * apply respects_bind; [apply (Hqueue task_done)|]. intros _.
        apply respects_bind; [apply (Hqueue (put_priority task))|]. intros _.
        apply respects_ret.
    + rewrite (group_full _ _ _ Hlt). apply respects_ret.
Qed.

End Respects.

Lemma respects_weaken (R R' : relation Client) {A : Type} (m : M A) :
  (forall c c', R c c' -> R' c c') -> respects R m -> respects R' m.
Proof. intros Hsub Hm c. apply Hsub, Hm. Qed.

(** One step of a proof that a block of code respects a relation: the
    structure of the block is taken apart, [leaf] closes what is left. *)
Ltac respect lemma := apply lemma; try solve [apply _].

Ltac respects_step leaf :=
  first
    [ respect respects_ret
    | respect respects_raise
    | respect respects_gets
    | respect respects_read_future
    | respect respects_session_call
    | respect respects_response_json
    | respect respects_raise_for_status
    | respect respects_all_messages
    | respect respects_join_ids
    | respect respects_unpack_items
    | respect respects_status_future
    | leaf
    | respect respects_bind; [|intros ?]
    | respect respects_try; [|intros ?]
    | respect respects_for_each; intros ?
    | match goal with
      | |- respects _ (if ?b then _ else _) => destruct b
      | |- respects _ (match ?x with _ => _ end) => destruct x
      end ].

(** ** [_poll] in closed form *)

Lemma _poll_unfold h c f :
  futures c !! h = Some f ->
  _poll h c =
    if polling_timeout_exceeded (polling_timeout c) (age_on_next_poll f c)
    then (poll_started h f c, Raise PollingTimeout)
    else (with_poll_queue (put_priority (poll_at f c, Some h) (_poll_queue c))
            (poll_started h f c), Ok tt).
Proof.
  intros Hf. unfold _poll.
  rewrite (bind_ok _ _ _ _ _ (read_future_some _ _ _ Hf)).
  rewrite (bind_ok _ _ _ _ _ (update_future_some _ _ _ _ Hf)).
  unfold bind, read_clock, gets, raise, modify; simpl.
  unfold age_on_next_poll, poll_at, poll_started, scheduled_backoff; simpl.
  destruct (polling_timeout_exceeded _ _); reflexivity.
Qed.

(** ** Back-off of the poll schedule *)

Lemma exec_poll_futures h c f :
  futures c !! h = Some f ->
  futures (exec (_poll h) c)
  = <[h := set_poll_backoff (Some (scheduled_backoff f)) f]> (futures c).
Proof.
  intros Hf. unfold exec. rewrite (_poll_unfold _ _ _ Hf).
  destruct (polling_timeout_exceeded _ _); reflexivity.
Qed.

Lemma backoff_after_poll h c f :
  futures c !! h = Some f ->
  backoff_of (exec (_poll h) c) h = Some (next_backoff (_poll_backoff f)).
Proof.
  intros Hf. unfold backoff_of. rewrite (exec_poll_futures _ _ _ Hf).
  now rewrite lookup_insert_eq.
Qed.

Lemma poll_keeps_future h c :
  is_Some (futures c !! h) -> is_Some (futures (exec (_poll h) c) !! h).
Proof.
  intros [f Hf]. rewrite (exec_poll_futures _ _ _ Hf), lookup_insert_eq. eauto.
Qed.

Lemma polled_keeps_future h n c :
  is_Some (futures c !! h) -> is_Some (futures (polled h n c) !! h).
Proof.
  intros H. induction n as [|n IH]; simpl; [exact H|].
  now apply poll_keeps_future.
Qed.

Lemma next_backoff_doubles (n : nat) :
  next_backoff (Some (Z.min (2 ^ Z.of_nat n) _POLL_BACKOFF_MAX))
  = Z.min (2 ^ Z.of_nat (S n)) _POLL_BACKOFF_MAX.
Proof.
  unfold next_backoff, _POLL_BACKOFF_MIN, _POLL_BACKOFF_MAX.
  rewrite Nat2Z.inj_succ, Z.pow_succ_r by lia.
  assert (0 < 2 ^ Z.of_nat n)%Z by (apply Z.pow_pos_nonneg; lia).
  lia.
Qed.

Lemma backoff_after_polls h c f n :
  futures c !! h = Some f -> _poll_backoff f = None ->
  backoff_of (polled h (S n) c) h = Some (Z.min (2 ^ Z.of_nat n) _POLL_BACKOFF_MAX).
Proof.
  intros Hf Hnone. induction n as [|n IH].
  - simpl. rewrite (backoff_after_poll _ _ _ Hf), Hnone. reflexivity.
  - change (polled h (S (S n)) c) with (exec (_poll h) (polled h (S n) c)).
    destruct (polled_keeps_future h (S n) c) as [g Hg]; [eauto|].
    rewrite (backoff_after_poll _ _ _ Hg).
    unfold backoff_of in IH. rewrite Hg in IH. rewrite IH.
    now rewrite next_backoff_doubles.
Qed.

(** ** Inversion of successful runs *)

Lemma bind_ok_inv {A B : Type} (m : M A) (k : A -> M B) c c' b :
  bind m k c = (c', Ok b) -> exists c1 a, m c = (c1, Ok a) /\ k a c1 = (c', Ok b).
Proof.
  unfold bind. destruct (m c) as [c1 [a|e]]; intros H; [eauto | discriminate].
Qed.

Lemma _poll_ok_inv h c c' :
  _poll h c = (c', Ok tt) ->
  exists f, futures c !! h = Some f
    /\ polling_timeout_exceeded (polling_timeout c) (age_on_next_poll f c) = false
    /\ c' = with_poll_queue (put_priority (poll_at f c, Some h) (_poll_queue c))
              (poll_started h f c).
Proof.
  destruct (futures c !! h) as [f|] eqn:Hf.
  - rewrite (_poll_unfold _ _ _ Hf).
    destruct (polling_timeout_exceeded _ _) eqn:Hx; intros H; [discriminate|].
    exists f. split; [reflexivity|]. split; [exact Hx|]. now inversion H.
  - unfold _poll, bind, read_future. rewrite Hf. discriminate.
Qed.

Lemma _poll_without_timeout h c f :
  futures c !! h = Some f -> polling_timeout c = None ->
  _poll h c = (with_poll_queue (put_priority (poll_at f c, Some h) (_poll_queue c))
                 (poll_started h f c), Ok tt).
Proof. intros Hf Ht. rewrite (_poll_unfold _ _ _ Hf), Ht. reflexivity. Qed.

Lemma elem_of_insert_by_time {A : Type} (x y : Q * A) l :
  y ∈ insert_by_time x l <-> y = x \/ y ∈ l.
Proof.
  induction l as [|z l IH]; simpl.
  - rewrite list_elem_of_singleton. split; [auto|]. intros [H|H]; [auto|]. inversion H.
  - destruct (Qleb (fst z) (fst x)).
    + rewrite !elem_of_cons, IH. tauto.
    + rewrite !elem_of_cons. tauto.
Qed.

(** ** The dispatcher on an immediate rejection *)

(** C7. A status record that holds both [error_code] and [error_msg] makes
    the dispatcher settle the future with [SolverFailureError(error_msg)]:
    the whole effect of the call is that [_set_error], and a future that
    was not terminal fails with the solver failure. *)
Theorem rejection_settles_with_solver_failure
    (c : Client) (message : Message) (h : handle) (code : Z) (msg : string) :
  m_error_code message = Some code ->
  m_error_msg message = Some msg ->
  _handle_problem_status message h c
  = _set_error h (SolverFailureError msg) (SolverFailureError msg) c
  /\ forall f, futures c !! h = Some f -> outcome f = None ->
       exists f', futures (exec (_handle_problem_status message h) c) !! h = Some f'
         /\ outcome f' = Some (Error (SolverFailureError msg) (SolverFailureError msg)).
Proof.
  intros Hcode Hmsg.
  assert (Heq : _handle_problem_status message h c
                = _set_error h (SolverFailureError msg) (SolverFailureError msg) c).
  { unfold _handle_problem_status, try_except, dispatch_body.
    rewrite Hcode, Hmsg. reflexivity. }
  split; [exact Heq|].
  intros f Hf Hout. unfold exec. rewrite Heq.
  unfold _set_error. rewrite (update_future_some _ _ _ _ Hf). simpl.
  rewrite lookup_insert_eq. eexists; split; [reflexivity|].
  unfold settle. rewrite Hout. reflexivity.
Qed.

Lemma rejection_settles_with_solver_failure_witness :
  exists f',
    futures (exec (_handle_problem_status missing_parameter_reply 0%nat)
               (idle_client None [(0%nat, fresh_future 0)] (fun _ => 0%Q))) !! 0%nat = Some f'
    /\ outcome f' = Some (Error (SolverFailureError "Missing parameter 'num_reads'")
                                (SolverFailureError "Missing parameter 'num_reads'")).
Proof.
  destruct (rejection_settles_with_solver_failure
              (idle_client None [(0%nat, fresh_future 0)] (fun _ => 0%Q))
              missing_parameter_reply 0%nat 400%Z "Missing parameter 'num_reads'"
              eq_refl eq_refl) as [_ H].
  apply (H (fresh_future 0)); reflexivity.
Defined.

(** ** A 5xx reply to a poll *)

Lemma poll_step_facts h c c' :
  _poll h c = (c', Ok tt) ->
  (forall h', outcome_of c' h' = outcome_of c h')
  /\ (forall x, x ∈ items (_poll_queue c) -> x ∈ items (_poll_queue c'))
  /\ requeued c' h
  /\ (forall h', h' <> h -> backoff_of c' h' = backoff_of c h')
  /\ backoff_of c' h = Some (next_backoff (backoff_of c h))
  /\ (forall h', is_Some (futures c !! h') -> is_Some (futures c' !! h'))
  /\ polling_timeout c' = polling_timeout c.
Proof.
  intros H. destruct (_poll_ok_inv _ _ _ H) as (f & Hf & _ & ->).
  repeat split.
  - intros h'. unfold outcome_of; simpl.
    destruct (decide (h' = h)) as [->|Hne].
    + now rewrite lookup_insert_eq, Hf.
    + now rewrite lookup_insert_ne by congruence.
  - intros x Hx. simpl. apply elem_of_insert_by_time. now right.
  - exists (poll_at f c). simpl. apply elem_of_insert_by_time. now left.
  - intros h' Hne. unfold backoff_of; simpl.
    now rewrite lookup_insert_ne by congruence.
  - unfold backoff_of; simpl. now rewrite lookup_insert_eq, Hf.
  - intros h' Hs. simpl. destruct (decide (h' = h)) as [->|Hne].
    + rewrite lookup_insert_eq. eauto.
    + now rewrite lookup_insert_ne by congruence.
Qed.

Lemma for_each_poll_facts hs : forall c c',
  for_each hs _poll c = (c', Ok tt) ->
  (forall h', outcome_of c' h' = outcome_of c h')
  /\ (forall x, x ∈ items (_poll_queue c) -> x ∈ items (_poll_queue c'))
  /\ (forall h, h ∈ hs -> requeued c' h)
  /\ (forall h', h' ∉ hs -> backoff_of c' h' = backoff_of c h')
  /\ (NoDup hs -> forall h, h ∈ hs ->
        backoff_of c' h = Some (next_backoff (backoff_of c h))).
Proof.
  induction hs as [|h hs IH]; intros c c' H.
  - inversion H; subst. repeat split; auto.
    + intros h Hh. inversion Hh.
    + intros _ h Hh. inversion Hh.
  - simpl in H. apply bind_ok_inv in H as (c1 & [] & H1 & H2).
    destruct (poll_step_facts _ _ _ H1) as (Ho & Hq & Hr & Hb & Hbh & _ & _).
    destruct (IH _ _ H2) as (Ho' & Hq' & Hr' & Hb' & Hbh').
    repeat split.
    + intros h'. now rewrite Ho', Ho.
    + auto.
    + intros h' Hin. apply elem_of_cons in Hin as [->|Hin]; [|auto].
      destruct Hr as [at_ Hat]. exists at_. auto.
    + intros h' Hnot. apply not_elem_of_cons in Hnot as [Hne Hnot].
      rewrite Hb' by exact Hnot. now apply Hb.
    + intros Hnd h' Hin. apply NoDup_cons in Hnd as [Hnotin Hnd].
      apply elem_of_cons in Hin as [->|Hin].
      * rewrite Hb' by exact Hnotin. exact Hbh.
      * rewrite (Hbh' Hnd _ Hin). rewrite Hb; [reflexivity|].
        intros ->. contradiction.
Qed.

Lemma polls_in_time_without_timeout hs : forall c,
  polling_timeout c = None ->
  (forall h, h ∈ hs -> is_Some (futures c !! h)) ->
  polls_in_time hs c.
Proof.
  unfold polls_in_time.
  induction hs as [|h hs IH]; intros c Ht Hvalid; [reflexivity|].
  destruct (Hvalid h) as [f Hf]; [left|].
  simpl. pose proof (_poll_without_timeout _ _ _ Hf Ht) as Hp.
  rewrite (bind_ok _ _ _ _ _ Hp).
  destruct (poll_step_facts _ _ _ Hp) as (_ & _ & _ & _ & _ & Hkeep & Ht').
  apply IH.
  - now rewrite Ht'.
  - intros h' Hin. apply Hkeep, Hvalid. now right.
Qed.

Lemma poll_response_5xx code date json frame c :
  (500 <= code < 600)%Z ->
  poll_response (Response code date json) frame c
  = try_except (for_each (map snd frame) _poll)
      (fun exception =>
         for_each (map snd frame) (fun h =>
           _set_error h (IOError (wrap_exception exception)) exception)) c.
Proof.
  intros Hcode. unfold poll_response, try_except, bind, session_call, ret. simpl.
  rewrite bool_decide_eq_false_2 by lia.
  replace ((500 <=? code)%Z && (code <? 600)%Z)%bool with true; [reflexivity|].
  symmetry. apply andb_true_iff. split; [apply Z.leb_le | apply Z.ltb_lt]; lia.
Qed.

(** C2 (amended). When a poll request returns a status in [500, 600) and
    scheduling the next poll raises no polling timeout for any member (as is
    always the case when [polling_timeout] is unset), the reply is handled
    as the [_poll] of each frame member in turn: every member is back on the
    poll queue, none is settled, and the back-off of each has advanced. *)
Theorem transient_5xx_requeues_frame
    (c : Client) (frame : Frame) (code : Z) (date : Q) (json : option (list Message)) :
  (500 <= code < 600)%Z ->
  polls_in_time (map snd frame) c
  \/ (polling_timeout c = None
      /\ forall h, h ∈ map snd frame -> is_Some (futures c !! h)) ->
  let c' := exec (poll_response (Response code date json) frame) c in
  poll_response (Response code date json) frame c = (c', Ok tt)
  /\ c' = exec (for_each (map snd frame) _poll) c
  /\ requeued_unsettled frame c c'
  /\ (NoDup (map snd frame) -> forall k h, (k, h) ∈ frame ->
        backoff_of c' h = Some (next_backoff (backoff_of c h))).
Proof.
  intros Hcode Hin.
  assert (Hin' : polls_in_time (map snd frame) c).
  { destruct Hin as [H|[Ht Hvalid]]; [exact H|].
    now apply polls_in_time_without_timeout. }
  clear Hin. unfold polls_in_time in Hin'.
  destruct (for_each (map snd frame) _poll c) as [c1 r] eqn:Hpolls.
  simpl in Hin'. subst r.
  assert (Hresp : poll_response (Response code date json) frame c = (c1, Ok tt)).
  { rewrite (poll_response_5xx _ _ _ _ _ Hcode). now apply try_ok. }
  unfold exec. rewrite Hresp, Hpolls. simpl.
  destruct (for_each_poll_facts _ _ _ Hpolls) as (Ho & _ & Hr & _ & Hb).
  assert (Hmem : forall k h, (k, h) ∈ frame -> h ∈ map snd frame).
  { intros k h Hkh. apply list_elem_of_fmap. exists (k, h). auto. }
  repeat split; auto.
  - apply Hr. eapply Hmem; eauto.
  - intros Hnd k h Hkh. apply Hb; eauto.
Qed.

Lemma transient_5xx_requeues_frame_witness :
  requeued_unsettled ageing_frame
    (idle_client None [(0%nat, submitted_future "123" 0)] (fun _ => 10%Q))
    (exec (poll_response (Response 503 0 None) ageing_frame)
       (idle_client None [(0%nat, submitted_future "123" 0)] (fun _ => 10%Q))).
Proof.
  apply (transient_5xx_requeues_frame
           (idle_client None [(0%nat, submitted_future "123" 0)] (fun _ => 10%Q))
           ageing_frame 503 0 None).
  - lia.
  - right. split; [reflexivity|].
    intros h Hh. apply list_elem_of_singleton in Hh. subst h.
    exists (submitted_future "123" 0). reflexivity.
Defined.

(** C2, as stated, fails once [polling_timeout] is configured: the member
    whose next poll would come too late is not put back on the queue, and
    the [except] clause of the worker settles it. *)
Lemma transient_5xx_counterexample :
  ~ requeued_unsettled ageing_frame ageing_client
      (exec (poll_response (Response 503 0 None) ageing_frame) ageing_client).
Proof.
  intros H. destruct (H (Some "123") 0%nat) as [[at_ Hq] _]; [left|].
  vm_compute in Hq. inversion Hq.
Qed.


(** ** A network timeout on submission *)

Lemma settle_idempotent o f : settle o (settle o f) = settle o f.
Proof. unfold settle. destruct (outcome f) eqn:H; simpl; now rewrite ?H. Qed.

Lemma settle_outcome o f : outcome f = None -> outcome (settle o f) = Some o.
Proof. intros H. unfold settle. now rewrite H. Qed.

Lemma fail_messages_facts error exc_info batch : forall c,
  (forall mess, mess ∈ batch -> is_Some (futures c !! future mess)) ->
  exists c',
    for_each batch (fail_message error exc_info) c = (c', Ok tt)
    /\ forall h, futures c' !! h
         = if bool_decide (h ∈ map future batch)
           then settle (Error error exc_info) <$> futures c !! h
           else futures c !! h.
Proof.
  induction batch as [|mess batch IH]; intros c Hvalid.
  - exists c. split; [reflexivity|]. intros h. reflexivity.
  - destruct (Hvalid mess) as [f Hf]; [left|].
    set (c1 := with_submission_queue (task_done (_submission_queue c))
                 (with_futures (<[future mess := settle (Error error exc_info) f]>
                                  (futures c)) c)).
    assert (H1 : fail_message error exc_info mess c = (c1, Ok tt)).
    { unfold fail_message, _set_error.
      rewrite (bind_ok _ _ _ _ _ (update_future_some _ _ _ _ Hf)). reflexivity. }
    destruct (IH c1) as (c' & Hrun & Hheap).
    { intros m Hm. simpl. destruct (decide (future m = future mess)) as [->|Hne].
      - rewrite lookup_insert_eq. eauto.
      - rewrite lookup_insert_ne by congruence. apply Hvalid. now right. }
    exists c'. split.
    + simpl. rewrite (bind_ok _ _ _ _ _ H1). exact Hrun.
    + intros h. rewrite Hheap. simpl.
      destruct (decide (h = future mess)) as [->|Hne].
      * rewrite lookup_insert_eq, Hf.
        rewrite (bool_decide_eq_true_2 (future mess ∈ future mess :: map future batch))
          by left.
        simpl. rewrite settle_idempotent. now destruct (bool_decide _).
      * rewrite lookup_insert_ne by congruence.
        destruct (bool_decide (h ∈ map future batch)) eqn:Hb.
        -- apply bool_decide_eq_true_1 in Hb.
           rewrite bool_decide_eq_true_2; [reflexivity | now right].
        -- apply bool_decide_eq_false_1 in Hb.
           rewrite bool_decide_eq_false_2; [reflexivity|].
           intros Hin. apply elem_of_cons in Hin as [?|?]; contradiction.
Qed.





(** ** Size of a submission batch *)

Lemma drain_closed {A : Type} (limit : nat) (pending : list A) : forall ready,
  drain limit ready pending
  = ((ready ++ take (limit - length ready) pending)%list,
     drop (limit - length ready) pending).
Proof.
  induction pending as [|x rest IH]; intros ready.
  - simpl. destruct (length ready <? limit)%nat;
      now rewrite take_nil, drop_nil, app_nil_r.
  - simpl. destruct (length ready <? limit)%nat eqn:Hlt.
    + apply Nat.ltb_lt in Hlt. rewrite IH, length_app. simpl.
      replace (limit - length ready)%nat with (S (limit - (length ready + 1)))%nat by lia.
      simpl. now rewrite <- app_assoc.
    + apply Nat.ltb_ge in Hlt.
      replace (limit - length ready)%nat with 0%nat by lia.
      simpl. now rewrite app_nil_r.
Qed.

Lemma gather_batch_closed (item : option SubmitMessage) (q : Queue (option SubmitMessage)) :
  gather_batch item q
  = (item :: take 19 (items q), mkQueue (drop 19 (items q)) (unfinished_tasks q)).
Proof.
  unfold gather_batch. rewrite drain_closed.
  change (_SUBMIT_BATCH_SIZE - length [item])%nat with 19%nat. reflexivity.
Qed.

Lemma gather_batch_length (item : option SubmitMessage) (q : Queue (option SubmitMessage)) :
  length (fst (gather_batch item q)) = Nat.min 20 (1 + length (items q)).
Proof.
  rewrite gather_batch_closed. cbn [fst]. rewrite length_cons, length_take. lia.
Qed.

(** C6 (amended). After blocking on the first queued submission a worker
    reads at most [_SUBMIT_BATCH_SIZE - 1 = 19] further items without
    blocking: the batch is the first item and the next 19 of the queue, so
    it holds [min(20, 1 + queued)] problems, never more than
    [_SUBMIT_BATCH_SIZE = 20], and the rest stays queued. *)
Theorem submission_batch_size
    (item : option SubmitMessage) (q : Queue (option SubmitMessage)) :
  fst (gather_batch item q) = item :: take 19 (items q)
  /\ items (snd (gather_batch item q)) = drop 19 (items q)
  /\ length (fst (gather_batch item q)) = Nat.min 20 (1 + length (items q))
  /\ (length (fst (gather_batch item q)) <= _SUBMIT_BATCH_SIZE)%nat.
Proof.
  split; [|split; [|split]].
  - now rewrite gather_batch_closed.
  - now rewrite gather_batch_closed.
  - apply gather_batch_length.
  - rewrite gather_batch_length. unfold _SUBMIT_BATCH_SIZE. lia.
Qed.

(** C6, as stated, fails: with 30 further submissions queued the batch holds
    20 problems, and no queue makes a batch of 21. *)
Lemma submission_batch_counterexample :
  length (fst (gather_batch (Some (mkSubmitMessage "{}" 0%nat)) (queued_submissions 30)))
  = 20%nat
  /\ ~ exists item q, length (fst (gather_batch item q)) = 21%nat.
Proof.
  split; [reflexivity|].
  intros (item & q & H).
  rewrite gather_batch_length in H. lia.
Qed.

(** ** The frame of a poll worker *)

Lemma alive_handles_cons heap task rest :
  alive_handles heap (task :: rest) = true ->
  (forall h, snd task = Some h -> is_Some (heap !! h)) /\ alive_handles heap rest = true.
Proof.
  unfold alive_handles. simpl. intros H. apply andb_true_iff in H as [H1 H2].
  split; [|exact H2]. intros h Hh. rewrite Hh in H1.
  now apply bool_decide_eq_true_1 in H1.
Qed.

Lemma frame_ok_nil heap : frame_ok heap [].
Proof.
  repeat split.
  - unfold _STATUS_QUERY_SIZE. simpl. lia.
  - constructor.
  - intros k h H. inversion H.
Qed.

Lemma frame_ok_snoc heap frame h f :
  frame_ok heap frame -> (length frame < _STATUS_QUERY_SIZE)%nat ->
  heap !! h = Some f -> frame_has (id f) frame = false -> done f = false ->
  frame_ok heap (frame ++ [(id f, h)]).
Proof.
  intros (Hlen & Hnd & Hmem) Hlt Hf Hfresh Hdone. repeat split.
  - rewrite length_app. simpl. lia.
  - rewrite map_app. simpl. apply NoDup_app. repeat split.
    + exact Hnd.
    + intros k Hk Hk'. apply list_elem_of_singleton in Hk'. subst k.
      unfold frame_has in Hfresh. now apply bool_decide_eq_false_1 in Hfresh.
    + apply NoDup_singleton.
  - intros k h' Hin. apply elem_of_app in Hin as [Hin|Hin]; [eauto|].
    apply list_elem_of_singleton in Hin. inversion Hin; subst. eauto.
Qed.

Lemma add_facts fh frame c :
  (forall h, fh = Some h -> is_Some (futures c !! h)) ->
  frame_ok (futures c) frame -> (length frame < _STATUS_QUERY_SIZE)%nat ->
  exists c' alive frame',
    add fh frame c = (c', Ok (alive, frame'))
    /\ futures c' = futures c
    /\ items (_poll_queue c') = items (_poll_queue c)
    /\ frame_ok (futures c) frame'
    /\ unfinished_tasks (_poll_queue c')
       = (unfinished_tasks (_poll_queue c) - 1
          + (Z.of_nat (length frame') - Z.of_nat (length frame)))%Z.
Proof.
  intros Hvalid Hok Hlt. destruct fh as [h|].
  - destruct (Hvalid h eq_refl) as [f Hf]. unfold add.
    rewrite (bind_ok _ _ _ _ _ (read_future_some _ _ _ Hf)).
    destruct (frame_has (id f) frame) eqn:Hhas; simpl.
    + exists (with_poll_queue (task_done (_poll_queue c)) c), true, frame.
      repeat split; try apply Hok; simpl; lia.
    + destruct (done f) eqn:Hdone; simpl.
      * exists (with_poll_queue (task_done (_poll_queue c)) c), true, frame.
        repeat split; try apply Hok; simpl; lia.
      * exists c, true, (frame ++ [(id f, h)])%list.
        split; [reflexivity|]. split; [reflexivity|]. split; [reflexivity|].
        split; [now apply frame_ok_snoc|].
        rewrite length_app. simpl. lia.
  - exists (with_poll_queue (task_done (_poll_queue c)) c), false, frame.
    repeat split; try apply Hok; simpl; lia.
Qed.

Lemma length_insert_by_time {A : Type} (x : Q * A) l :
  length (insert_by_time x l) = S (length l).
Proof.
  induction l as [|y l IH]; simpl; [reflexivity|].
  destruct (Qleb (fst y) (fst x)); simpl; now rewrite ?IH.
Qed.

Lemma group_facts frame_earliest pending : forall frame c,
  items (_poll_queue c) = pending ->
  alive_handles (futures c) pending = true ->
  frame_ok (futures c) frame ->
  exists c' alive frame',
    group frame_earliest pending frame c = (c', Ok (alive, frame'))
    /\ futures c' = futures c
    /\ frame_ok (futures c) frame'
    /\ backlog c' = (backlog c + (Z.of_nat (length frame') - Z.of_nat (length frame)))%Z.
Proof.
  induction pending as [|task rest IH]; intros frame c Hsync Halive Hok.
  - rewrite group_nil. exists c, true, frame. repeat split; auto; try apply Hok. lia.
  - destruct (length frame <? _STATUS_QUERY_SIZE)%nat eqn:Hlt.
    2:{ rewrite (group_full _ _ _ Hlt). exists c, true, frame.
        repeat split; auto; try apply Hok. lia. }
    rewrite (group_cons _ _ _ _ Hlt). apply Nat.ltb_lt in Hlt.
    apply alive_handles_cons in Halive as [Htask Hrest].
    set (c0 := set_poll_items rest c).
    assert (Hb0 : backlog c0 = (backlog c + 1)%Z).
    { unfold backlog, c0. simpl. rewrite Hsync. simpl length. lia. }
    unfold bind at 1. unfold modify at 1. fold c0.
    destruct (Qleb (fst task - frame_earliest) (inject_Z _POLL_GROUP_TIMEFRAME)).
    + destruct (add_facts (snd task) frame c0) as
        (c1 & alive & frame1 & Hadd & Hheap1 & Hitems1 & Hok1 & Hun1); auto.
      rewrite (bind_ok _ _ _ _ _ Hadd). simpl fst. simpl snd.
      assert (Hb1 : backlog c1
                    = (backlog c + (Z.of_nat (length frame1) - Z.of_nat (length frame)))%Z).
      { unfold backlog in *. rewrite Hun1, Hitems1. lia. }
      destruct alive.
      * destruct (IH frame1 c1) as (c' & alive' & frame' & Hg & Hheap' & Hok' & Hb').
        { rewrite Hitems1. reflexivity. }
        { now rewrite Hheap1. }
        { now rewrite Hheap1. }
        exists c', alive', frame'. split; [exact Hg|].
        split; [now rewrite Hheap', Hheap1|].
        split; [now rewrite Hheap1 in Hok'|].
        rewrite Hb', Hb1. lia.
      * exists c1, false, frame1. repeat split; auto; apply Hok1.
    + eexists _, true, frame. split; [reflexivity|].
      split; [reflexivity|]. split; [exact Hok|].
      unfold backlog. simpl. rewrite length_insert_by_time, Hsync. simpl length. lia.
Qed.

Lemma join_ids_keys frame : forall c c' ids,
  join_ids frame c = (c', Ok ids) -> map fst frame = map Some ids.
Proof.
  induction frame as [|[[k|] h] frame IH]; intros c c' ids H.
  - inversion H. reflexivity.
  - simpl in H. apply bind_ok_inv in H as (c1 & ids' & H1 & H2).
    inversion H2; subst. simpl. f_equal. eauto.
  - discriminate H.
Qed.

(** C10. Every frame a poll worker builds holds at most
    [_STATUS_QUERY_SIZE = 100] futures, holds each id once, and holds no
    future that was done when it was taken from the queue; every task taken
    and left out of the frame has been acknowledged with [task_done].  The
    ids of one poll request are therefore at most 100 and distinct. *)
Theorem poll_frame_bounded_distinct (c : Client) :
  alive_handles (futures c) (items (_poll_queue c)) = true ->
  frame_built c.
Proof.
  intros Halive. unfold frame_built, build_frame.
  unfold bind at 1. unfold gets at 1. unfold get_nowait.
  destruct (items (_poll_queue c)) as [|task rest] eqn:Hitems.
  - exists c, None. repeat split.
  - apply alive_handles_cons in Halive as [Htask Hrest].
    set (c0 := with_poll_queue (mkQueue rest (unfinished_tasks (_poll_queue c))) c).
    unfold bind at 1. unfold modify at 1. fold c0.
    assert (Hb0 : backlog c0 = (backlog c + 1)%Z).
    { unfold backlog, c0. simpl. rewrite Hitems. simpl length. lia. }
    destruct (add_facts (snd task) [] c0) as
      (c1 & alive & frame1 & Hadd & Hheap1 & Hitems1 & Hok1 & Hun1); auto.
    { apply frame_ok_nil. }
    { unfold _STATUS_QUERY_SIZE. simpl. lia. }
    rewrite (bind_ok _ _ _ _ _ Hadd). cbn [fst snd items].
    assert (Hb1 : backlog c1 = (backlog c + Z.of_nat (length frame1))%Z).
    { unfold backlog in Hb0 |- *. rewrite Hun1, Hitems1.
      change (length (@nil (option string * handle))) with 0%nat. lia. }
    assert (Hids : forall frame, frame_ok (futures c) frame ->
              forall c2 c3 ids, join_ids frame c2 = (c3, Ok ids) ->
                (length ids <= 100)%nat /\ NoDup ids).
    { intros frame (Hlen & Hnd & _) c2 c3 ids Hj.
      apply join_ids_keys in Hj. rewrite Hj in Hnd. split.
      - assert (length (map fst frame) = length (map Some ids)) by now rewrite Hj.
        rewrite !length_map in H. unfold _STATUS_QUERY_SIZE in Hlen. lia.
      - revert Hnd. apply (NoDup_fmap_1 Some). }
    destruct alive.
    + destruct (group_facts (fst task) rest frame1 c1)
        as (c' & alive' & frame' & Hg & Hheap' & Hok' & Hb').
      { now rewrite Hitems1. }
      { now rewrite Hheap1. }
      { now rewrite Hheap1. }
      rewrite (bind_ok _ _ _ _ _ Hg). cbn [fst snd].
      exists c', (Some (fst task, alive', frame')).
      split; [reflexivity|]. split; [now rewrite Hheap', Hheap1|].
      rewrite Hheap1 in Hok'. split; [exact Hok'|].
      split; [rewrite Hb', Hb1; lia | now apply Hids].
    + exists c1, (Some (fst task, false, frame1)).
      split; [reflexivity|]. split; [exact Hheap1|].
      split; [exact Hok1|]. split; [exact Hb1 | now apply Hids].
Qed.

Lemma poll_frame_bounded_distinct_witness : frame_built polling_client.
Proof. apply (poll_frame_bounded_distinct polling_client). reflexivity. Defined.

Example polling_client_frame :
  snd (build_frame polling_client)
  = Ok (Some (1%Q, true, [(Some "a", 0%nat); (Some "c", 3%nat)])).
Proof. reflexivity. Qed.

(** ** The cancel protocol

    What the protocol is about: the cancel queue, the DELETE requests
    issued, and the two flags of each future. *)

#[local] Instance same_view_preorder : PreOrder same_view.
Proof.
  split.
  - intros c. reflexivity.
  - intros c1 c2 c3 H12 H23. unfold same_view in *. congruence.
Qed.

#[local] Instance once_kept_preorder h : PreOrder (once_kept h).
Proof.
  split.
  - intros c H. exact H.
  - intros c1 c2 c3 H12 H23 H. apply H23, H12, H.
Qed.

Lemma keeps_modify (f : Client -> Client) :
  (forall c, cancel_view (f c) = cancel_view c) -> keeps (modify f).
Proof. intros Hf c. apply Hf. Qed.

Lemma keeps_read_clock : keeps read_clock.
Proof. intros c. reflexivity. Qed.

Lemma keeps_update_future h (g : Future -> Future) :
  (forall f, cancel_flags (g f) = cancel_flags f) -> keeps (update_future h g).
Proof.
  intros Hg c. red. unfold update_future. destruct (futures c !! h) as [f|] eqn:Hf.
  - unfold cancel_view. simpl. rewrite fmap_insert, Hg.
    rewrite insert_id; [reflexivity|]. now rewrite lookup_fmap, Hf.
  - reflexivity.
Qed.

Lemma cancel_flags_settle o f : cancel_flags (settle o f) = cancel_flags f.
Proof. unfold settle. now destruct (outcome f). Qed.

Lemma keeps_set_error h e x : keeps (_set_error h e x).
Proof. apply keeps_update_future. intros f. apply cancel_flags_settle. Qed.

Lemma keeps_set_message h m : keeps (_set_message h m).
Proof. apply keeps_update_future. intros f. apply cancel_flags_settle. Qed.

Lemma keeps_set_clock_diff h server_date localtime :
  keeps (_set_clock_diff h server_date localtime).
Proof.
  apply keeps_update_future. intros f. now destruct (clock_diff f).
Qed.

Create HintDb keeps.
#[local] Hint Resolve keeps_read_clock keeps_set_error keeps_set_message
  keeps_set_clock_diff : keeps.

Ltac keeps_leaf :=
  first
    [ solve [auto with keeps]
    | apply keeps_update_future; intros ?; reflexivity
    | apply keeps_modify; intros ?; reflexivity
    | respect respects_group; intros ?; apply keeps_modify; intros ?; reflexivity ].

Ltac keeps_all := repeat respects_step keeps_leaf.

Lemma keeps_poll h : keeps (_poll h).
Proof. unfold _poll. keeps_all. Qed.

Lemma keeps_update_time h get set field :
  (forall v f, cancel_flags (set v f) = cancel_flags f) ->
  keeps (update_time h get set field).
Proof.
  intros Hset. unfold update_time, parse_datetime. keeps_all.
  all: apply keeps_update_future; intros f; apply Hset.
Qed.

#[local] Hint Resolve keeps_poll : keeps.

Lemma view_bind_then_keeps {A B : Type} (m : M A) (k : A -> M B) c :
  (forall a, keeps (k a)) ->
  cancel_view (exec (bind m k) c) = cancel_view (exec m c).
Proof.
  intros Hk. unfold exec, bind. destruct (m c) as [c1 [a|e]]; simpl; [|reflexivity].
  apply Hk.
Qed.

Lemma view_try_then_keeps {A : Type} (m : M A) (handler : Exn -> M A) c :
  (forall e, keeps (handler e)) ->
  cancel_view (exec (try_except m handler) c) = cancel_view (exec m c).
Proof.
  intros Hh. unfold exec, try_except. destruct (m c) as [c1 [a|e]]; simpl; [reflexivity|].
  apply Hh.
Qed.

Lemma view_keeps_then_bind {A B : Type} (m : M A) (k : A -> M B) c :
  keeps m ->
  cancel_view (exec (bind m k) c) = cancel_view c
  \/ exists c1 a, cancel_view c1 = cancel_view c /\ exec (bind m k) c = exec (k a) c1.
Proof.
  intros Hm. unfold exec, bind. specialize (Hm c).
  destruct (m c) as [c1 [a|e]]; simpl in *; [right; eauto | left; exact Hm].
Qed.

Lemma cancel_under_lock_closed status id_ h c f :
  futures c !! h = Some f ->
  cancel_under_lock status id_ h c
  = if _cancel_requested f then
      (with_futures (<[h := set_cancel_sent true f]> (futures c))
         (if (negb (_cancel_sent f) && bool_decide (status = STATUS_PENDING))%bool
          then with_cancel_queue (put (Some (id_, Some h)) (_cancel_queue c)) c
          else c), Ok tt)
    else (c, Ok tt).
Proof.
  intros Hf. unfold cancel_under_lock.
  rewrite (bind_ok _ _ _ _ _ (read_future_some _ _ _ Hf)).
  destruct (_cancel_requested f); [|reflexivity].
  destruct (negb (_cancel_sent f) && bool_decide (status = STATUS_PENDING))%bool.
  - unfold bind, _cancel, modify, update_future. simpl. now rewrite Hf.
  - unfold bind, ret, update_future. now rewrite Hf.
Qed.

Lemma cancel_under_lock_view status id_ h c :
  cancel_view (exec (cancel_under_lock status id_ h) c)
  = lock_effect status id_ h (cancel_view c).
Proof.
  unfold lock_effect, cancel_view at 2. rewrite lookup_fmap.
  destruct (futures c !! h) as [f|] eqn:Hf.
  - unfold exec. rewrite (cancel_under_lock_closed _ _ _ _ _ Hf).
    change (cancel_flags <$> Some f) with (Some (_cancel_requested f, _cancel_sent f)).
    destruct (_cancel_requested f) eqn:Hr; [|reflexivity].
    destruct (_cancel_sent f) eqn:Hsent, (bool_decide (status = STATUS_PENDING));
      unfold cancel_view; simpl; rewrite fmap_insert; unfold cancel_flags; simpl;
      now rewrite Hr.
  - unfold exec, cancel_under_lock, bind, read_future. now rewrite Hf.
Qed.

Lemma keeps_update_times message h : keeps (update_times message h).
Proof.
  unfold update_times.
  repeat (respect respects_bind; [apply keeps_update_time; reflexivity | intros _]).
  apply keeps_update_time; reflexivity.
Qed.

Lemma keeps_route_status status message h : keeps (route_status status message h).
Proof. unfold route_status. keeps_all; cbv zeta; keeps_all. Qed.

Lemma dispatch_accepted_view status id_ message h c :
  cancel_view (exec (dispatch_accepted status id_ message h) c) = cancel_view c
  \/ cancel_view (exec (dispatch_accepted status id_ message h) c)
     = lock_effect status id_ h (cancel_view c).
Proof.
  unfold dispatch_accepted.
  match goal with
  | |- context [exec (bind ?m ?k) c] =>
      destruct (view_keeps_then_bind m k c) as [H|(c1 & [] & Hv1 & ->)];
        [apply keeps_update_future; reflexivity | now left |]
  end.
  match goal with
  | |- context [exec (bind ?m ?k) c1] =>
      destruct (view_keeps_then_bind m k c1) as [H|(c2 & [] & Hv2 & ->)];
        [apply keeps_update_future; reflexivity | left; congruence |]
  end.
  right. rewrite view_bind_then_keeps.
  - rewrite cancel_under_lock_view. congruence.
  - intros _. respect respects_bind; [apply keeps_update_times|].
    intros _. apply keeps_route_status.
Qed.

Lemma dispatch_view message h c :
  cancel_view (exec (_handle_problem_status message h) c) = cancel_view c
  \/ exists status id_,
       m_status message = Some status /\ m_id message = Some id_
       /\ cancel_view (exec (_handle_problem_status message h) c)
          = lock_effect status id_ h (cancel_view c).
Proof.
  unfold _handle_problem_status.
  rewrite view_try_then_keeps by (intros e; apply keeps_set_error).
  unfold dispatch_body.
  destruct (m_status message) as [status|] eqn:Hs;
    [|destruct (m_error_code message), (m_error_msg message); now left].
  destruct (m_id message) as [id_|] eqn:Hi;
    [|destruct (m_error_code message), (m_error_msg message); now left].
  destruct (dispatch_accepted_view status id_ message h c) as [H|H];
    destruct (m_error_code message), (m_error_msg message);
    try (now left); right; eauto.
Qed.

Lemma queued_for_snoc h queue id_ h' :
  queued_for h (queue ++ [Some (id_, Some h')])
  = (queued_for h queue + if bool_decide (h' = h) then 1 else 0)%nat.
Proof.
  unfold queued_for. rewrite List.filter_app, length_app. simpl.
  unfold targets. simpl. now destruct (bool_decide (h' = h)).
Qed.

Lemma enqueue_once h h' id_ queue log flags sent requested :
  flags !! h' = Some (requested, sent) ->
  once_sent h (queue, log, flags) ->
  once_sent h
    (if negb sent then queue ++ [Some (id_, Some h')] else queue,
     log, <[h' := (true, true)]> flags).
Proof.
  intros Hflags Hinv. unfold once_sent, issued, sent_flag in *. simpl in *.
  destruct (decide (h' = h)) as [->|Hne].
  - rewrite lookup_insert_eq. rewrite Hflags in Hinv.
    destruct sent; simpl.
    + destruct Hinv as [H0|[H1 _]]; auto.
    + rewrite queued_for_snoc, bool_decide_eq_true_2 by reflexivity.
      destruct Hinv as [H0|[_ Hs]]; [right; split; [lia|reflexivity] | discriminate].
  - rewrite lookup_insert_ne by congruence.
    destruct sent; simpl; [exact Hinv|].
    rewrite queued_for_snoc, bool_decide_eq_false_2 by congruence.
    now rewrite Nat.add_0_r.
Qed.

Lemma mark_only h h' queue log flags requested sent :
  flags !! h' = Some (requested, sent) ->
  once_sent h (queue, log, flags) ->
  forall requested' sent', (sent = true -> sent' = true) ->
  once_sent h (queue, log, <[h' := (requested', sent')]> flags).
Proof.
  intros Hflags Hinv requested' sent' Hmono.
  unfold once_sent, issued, sent_flag in *. simpl in *.
  destruct (decide (h' = h)) as [->|Hne].
  - rewrite lookup_insert_eq. rewrite Hflags in Hinv.
    destruct Hinv as [H0|[H1 Hs]]; [now left|].
    right. split; [exact H1|]. destruct sent; [|discriminate]. now rewrite Hmono.
  - now rewrite lookup_insert_ne by congruence.
Qed.

Lemma lock_effect_once h h' status id_ v :
  once_sent h v -> once_sent h (lock_effect status id_ h' v).
Proof.
  destruct v as [[queue log] flags]. intros Hinv. unfold lock_effect.
  destruct (flags !! h') as [[[] sent]|] eqn:Hflags; try exact Hinv.
  destruct (bool_decide (status = STATUS_PENDING)).
  - rewrite andb_true_r. eapply enqueue_once; eauto.
  - rewrite andb_false_r. eapply mark_only; eauto.
Qed.

(** What a call of [cancel] does to the protocol: nothing, or it marks the
    request, and in phase A it also enqueues it and marks it sent. *)
Lemma cancel_view_effect pending_only h c :
  cancel_view (exec (cancel pending_only h) c) = cancel_view c
  \/ exists sent,
       (cancel_view c).2 !! h = Some (false, sent)
       /\ (cancel_view (exec (cancel pending_only h) c)
           = ((cancel_view c).1.1, (cancel_view c).1.2,
              <[h := (true, sent)]> (cancel_view c).2)
           \/ sent = false
              /\ exists id_,
                   cancel_view (exec (cancel pending_only h) c)
                   = ((cancel_view c).1.1 ++ [Some (id_, Some h)], (cancel_view c).1.2,
                      <[h := (true, true)]> (cancel_view c).2)).
Proof.
  unfold exec, cancel. destruct (futures c !! h) as [f|] eqn:Hf.
  2:{ left. unfold bind, read_future. now rewrite Hf. }
  rewrite (bind_ok _ _ _ _ _ (read_future_some _ _ _ Hf)).
  destruct (done f); [now left|].
  destruct (_cancel_requested f) eqn:Hreq; [now left|]. cbn [orb].
  rewrite (bind_ok _ _ _ _ _ (update_future_some _ _ _ _ Hf)).
  right. exists (_cancel_sent f). split.
  { unfold cancel_view. simpl. rewrite lookup_fmap, Hf. unfold cancel_flags. simpl.
    now rewrite Hreq. }
  destruct (id f) as [id_|]; [|left; unfold cancel_view; simpl; now rewrite fmap_insert].
  destruct (_cancel_sent f) eqn:Hsent; cbn [negb andb].
  { left. unfold cancel_view. simpl. rewrite fmap_insert. unfold cancel_flags. simpl.
    now rewrite Hsent. }
  destruct (negb pending_only || bool_decide (remote_status f = Some STATUS_PENDING))%bool.
  - right. split; [reflexivity|]. exists id_.
    unfold bind, update_future, _cancel, modify. simpl. rewrite lookup_insert_eq. simpl.
    unfold cancel_view. simpl. now rewrite !fmap_insert, insert_insert_eq.
  - left. unfold cancel_view. simpl. rewrite fmap_insert. unfold cancel_flags. simpl.
    now rewrite Hsent.
Qed.

Lemma cancel_once pending_only h h' c :
  once_sent h (cancel_view c) ->
  once_sent h (cancel_view (exec (cancel pending_only h') c)).
Proof.
  intros Hinv.
  destruct (cancel_view_effect pending_only h' c)
    as [->|(sent & Hflags & [->|(-> & id_ & ->)])]; [exact Hinv| |].
  - destruct (cancel_view c) as [[queue log] flags]. eapply mark_only; eauto.
  - destruct (cancel_view c) as [[queue log] flags].
    apply (enqueue_once h h' id_ queue log flags false false Hflags Hinv).
Qed.

Lemma dispatch_once message h h' c :
  once_sent h (cancel_view c) ->
  once_sent h (cancel_view (exec (_handle_problem_status message h') c)).
Proof.
  intros Hinv. destruct (dispatch_view message h' c) as [->|(status & id_ & _ & _ & ->)].
  - exact Hinv.
  - now apply lock_effect_once.
Qed.

Lemma unpack_items_pure item_list c :
  exists r, unpack_items item_list c = (c, r)
            /\ forall unpacked, r = Ok unpacked -> map Some unpacked = item_list.
Proof.
  induction item_list as [|[item|] rest (r & Hr & Hmap)]; simpl.
  - exists (Ok []). split; [reflexivity|]. intros u Hu. now inversion Hu.
  - unfold bind. rewrite Hr. destruct r as [others|e].
    + exists (Ok (item :: others)). split; [reflexivity|].
      intros u Hu. inversion Hu. simpl. f_equal. now apply Hmap.
    + exists (Raise e). split; [reflexivity|]. discriminate.
  - eexists. split; [reflexivity|]. discriminate.
Qed.

Lemma queued_for_unpacked h unpacked :
  queued_for h (map Some unpacked) = length (List.filter (targets h) unpacked).
Proof.
  unfold queued_for. induction unpacked as [|x l IH]; simpl; [reflexivity|].
  destruct (targets h x); simpl; now rewrite IH.
Qed.

Lemma deleted_for_snoc h log unpacked :
  deleted_for h (log ++ [unpacked])
  = (deleted_for h log + length (List.filter (targets h) unpacked))%nat.
Proof.
  unfold deleted_for. rewrite concat_app, List.filter_app, length_app. simpl.
  now rewrite app_nil_r.
Qed.

Lemma cancel_worker_closed reply c :
  _do_cancel_problems reply c
  = match items (_cancel_queue c) with
    | [] => (c, Ok Blocked)
    | None :: rest =>
        (with_cancel_queue (mkQueue rest (unfinished_tasks (_cancel_queue c))) c, Ok Exited)
    | Some item :: rest =>
        cancel_batch (Some item :: rest) reply
          (with_cancel_queue (mkQueue [] (unfinished_tasks (_cancel_queue c))) c)
    end.
Proof.
  unfold _do_cancel_problems, bind, gets, get_nowait.
  destruct (items (_cancel_queue c)) as [|[item|] rest]; reflexivity.
Qed.

Lemma cancel_batch_view item_list reply c :
  cancel_view (exec (cancel_batch item_list reply) c) = cancel_view c
  \/ exists unpacked,
       map Some unpacked = item_list
       /\ cancel_view (exec (cancel_batch item_list reply) c)
          = (items (_cancel_queue c), delete_log c ++ [unpacked],
             cancel_flags <$> futures c).
Proof.
  unfold cancel_batch.
  rewrite view_try_then_keeps by (intros e; keeps_all).
  rewrite view_bind_then_keeps by (intros _; keeps_all).
  rewrite view_try_then_keeps by (intros e; keeps_all).
  unfold exec, bind.
  destruct (unpack_items_pure item_list c) as (r & -> & Hmap).
  destruct r as [unpacked|e]; [right | now left].
  exists unpacked. split; [now apply Hmap|].
  unfold session_delete, bind, modify. now destruct reply.
Qed.

(** One iteration of the cancel worker leaves the flags alone and issues
    nothing new: what it takes from the queue goes out in its one DELETE. *)
Lemma cancel_worker_view reply c :
  (cancel_view (exec (_do_cancel_problems reply) c)).2 = (cancel_view c).2
  /\ forall h, (issued h (cancel_view (exec (_do_cancel_problems reply) c))
                <= issued h (cancel_view c))%nat.
Proof.
  unfold exec. rewrite cancel_worker_closed.
  destruct (items (_cancel_queue c)) as [|[item|] rest] eqn:Hq.
  - split; [reflexivity|]. intros h. reflexivity.
  - set (c0 := with_cancel_queue (mkQueue [] (unfinished_tasks (_cancel_queue c))) c).
    fold (exec (cancel_batch (Some item :: rest) reply) c0).
    destruct (cancel_batch_view (Some item :: rest) reply c0)
      as [->|(unpacked & Hmap & ->)].
    + split; [reflexivity|]. intros h. unfold issued, cancel_view. cbn [fst snd].
      unfold c0. simpl. unfold queued_for at 1. simpl. lia.
    + split; [reflexivity|]. intros h. unfold issued, cancel_view. cbn [fst snd].
      rewrite Hq, deleted_for_snoc, <- Hmap, queued_for_unpacked.
      unfold c0. simpl. lia.
  - split; [reflexivity|]. intros h.
    unfold issued, cancel_view. cbn [fst snd]. rewrite Hq. unfold queued_for. simpl. lia.
Qed.

Lemma cancel_worker_once reply h c :
  once_sent h (cancel_view c) ->
  once_sent h (cancel_view (exec (_do_cancel_problems reply) c)).
Proof.
  destruct (cancel_worker_view reply c) as [Hflags Hle]. specialize (Hle h).
  unfold once_sent, sent_flag. rewrite Hflags.
  intros [H0|[H1 Hs]]; [left; lia|].
  destruct (issued h (cancel_view (exec (_do_cancel_problems reply) c))) as [|[|n]];
    [now left | now right | lia].
Qed.

Lemma keeps_steady h {A : Type} (m : M A) : keeps m -> steady h m.
Proof.
  apply respects_weaken. intros c c' Hsame Hinv. red in Hsame. now rewrite Hsame.
Qed.

Lemma steady_dispatch h message h' : steady h (_handle_problem_status message h').
Proof. intros c Hinv. now apply dispatch_once. Qed.

Lemma steady_cancel h pending_only h' : steady h (cancel pending_only h').
Proof. intros c Hinv. now apply cancel_once. Qed.

Lemma steady_cancel_worker h reply : steady h (_do_cancel_problems reply).
Proof. intros c Hinv. now apply cancel_worker_once. Qed.

Ltac steady_leaf :=
  first [ apply steady_dispatch | solve [apply keeps_steady; keeps_all] ].

Ltac steady_all := repeat respects_step steady_leaf.

Lemma steady_submit_worker h reply : steady h (_do_submit_problems reply).
Proof.
  unfold _do_submit_problems, submit_batch, post_problems, submission_task_done.
  steady_all.
Qed.

Lemma steady_poll_worker h reply : steady h (_do_poll_problems reply).
Proof.
  unfold _do_poll_problems, build_frame, poll_response, add. steady_all.
Qed.

Lemma run_once h steps : forall c,
  once_sent h (cancel_view c) -> once_sent h (cancel_view (run steps c)).
Proof.
  induction steps as [|s steps IH]; intros c Hinv; [exact Hinv|].
  simpl. apply IH. destruct s; simpl.
  - now apply steady_cancel.
  - now apply steady_dispatch.
  - now apply steady_submit_worker.
  - now apply steady_poll_worker.
  - now apply steady_cancel_worker.
Qed.

(** ** Back-offs over the runs of the pipeline *)

#[local] Instance same_backoffs_preorder : PreOrder same_backoffs.
Proof.
  split.
  - intros c h. reflexivity.
  - intros c1 c2 c3 H12 H23 h. now rewrite H23, H12.
Qed.

Lemma backoff_step_refl o : backoff_step o o.
Proof. unfold backoff_step. destruct o; [lia | exact I]. Qed.

#[local] Instance backoff_grows_preorder : PreOrder backoff_grows.
Proof.
  split.
  - intros c h. apply backoff_step_refl.
  - intros c1 c2 c3 H12 H23 h. specialize (H12 h). specialize (H23 h).
    unfold backoff_step in *.
    destruct (backoff_of c1 h), (backoff_of c2 h), (backoff_of c3 h);
      try tauto; lia.
Qed.

Lemma even_modify (f : Client -> Client) :
  (forall c, futures (f c) = futures c) -> respects same_backoffs (modify f).
Proof. intros Hf c h. unfold backoff_of. simpl. now rewrite Hf. Qed.

Lemma even_read_clock : respects same_backoffs read_clock.
Proof. intros c h. reflexivity. Qed.

Lemma even_update_future h (g : Future -> Future) :
  (forall f, _poll_backoff (g f) = _poll_backoff f) ->
  respects same_backoffs (update_future h g).
Proof.
  intros Hg c h'. unfold update_future, backoff_of.
  destruct (futures c !! h) as [f|] eqn:Hf; [|reflexivity]. simpl.
  destruct (decide (h' = h)) as [->|Hne].
  - now rewrite lookup_insert_eq, Hf, Hg.
  - now rewrite lookup_insert_ne by congruence.
Qed.

Ltac even_leaf :=
  first
    [ apply even_read_clock
    | apply even_modify; intros ?; reflexivity
    | respect respects_group; intros ?; apply even_modify; intros ?; reflexivity
    | apply even_update_future; intros ?;
      first [ reflexivity
            | unfold settle; destruct (outcome _); reflexivity
            | destruct (clock_diff _); reflexivity ] ].

Ltac even_all := repeat respects_step even_leaf.

Lemma even_paces {A : Type} (m : M A) : respects same_backoffs m -> paces m.
Proof.
  apply respects_weaken. intros c c' Hsame h. rewrite Hsame.
  apply backoff_step_refl.
Qed.

Lemma next_backoff_in_range prev :
  (1 <= next_backoff prev <= 60)%Z
  /\ forall b, prev = Some b -> (1 <= b <= 60)%Z -> (b <= next_backoff prev)%Z.
Proof.
  unfold next_backoff, _POLL_BACKOFF_MIN, _POLL_BACKOFF_MAX.
  destruct prev as [b|]; split; try lia.
  - intros b' Hb. inversion Hb. lia.
  - intros b' Hb. discriminate Hb.
Qed.

Lemma paces_poll h : paces (_poll h).
Proof.
  intros c h'. destruct (futures c !! h) as [f|] eqn:Hf.
  - assert (Hheap : futures (fst (_poll h c))
                    = <[h := set_poll_backoff (Some (scheduled_backoff f)) f]> (futures c))
      by (rewrite (_poll_unfold _ _ _ Hf); now destruct (polling_timeout_exceeded _ _)).
    unfold backoff_of. rewrite Hheap.
    destruct (decide (h' = h)) as [->|Hne].
    + rewrite lookup_insert_eq, Hf. simpl. unfold scheduled_backoff.
      destruct (next_backoff_in_range (_poll_backoff f)) as [Hrange Hgrow].
      unfold backoff_step. destruct (_poll_backoff f) as [b|]; [|exact Hrange].
      intros Hb. specialize (Hgrow b eq_refl Hb). lia.
    + rewrite lookup_insert_ne by congruence. apply backoff_step_refl.
  - unfold _poll, bind, read_future. rewrite Hf. simpl. apply backoff_step_refl.
Qed.

Ltac paces_leaf :=
  first [ apply paces_poll | solve [apply even_paces; even_all] ].

Ltac paces_all := repeat respects_step paces_leaf.

Lemma paces_dispatch message h : paces (_handle_problem_status message h).
Proof.
  unfold _handle_problem_status, dispatch_body, dispatch_accepted, cancel_under_lock,
    update_times, update_time, parse_datetime, route_status, _set_error, _set_message,
    _cancel, _load.
  paces_all; cbv zeta; paces_all.
Qed.

Lemma paces_step s : respects backoff_grows (fun c => (step s c, Ok tt)).
Proof.
  destruct s as [pending_only h|message h|reply|reply|reply]; intros c; simpl; unfold exec.
  - assert (H : paces (cancel pending_only h))
      by (unfold cancel, _cancel; paces_all).
    apply H.
  - apply paces_dispatch.
  - assert (H : paces (_do_submit_problems reply)).
    { unfold _do_submit_problems, submit_batch, post_problems, submission_task_done,
        _set_error, _set_clock_diff.
      repeat respects_step ltac:(first [apply paces_dispatch | paces_leaf]). }
    apply H.
  - assert (H : paces (_do_poll_problems reply)).
    { unfold _do_poll_problems, build_frame, poll_response, add, poll_task_done,
        _set_error.
      repeat respects_step ltac:(first [apply paces_dispatch | paces_leaf]). }
    apply H.
  - assert (H : paces (_do_cancel_problems reply)).
    { unfold _do_cancel_problems, cancel_batch, session_delete, cancel_task_done,
        _set_error.
      paces_all. }
    apply H.
Qed.

Lemma run_paces steps : forall c, backoff_grows c (run steps c).
Proof.
  induction steps as [|s steps IH]; intros c; [reflexivity|].
  simpl. etransitivity; [apply (paces_step s c) | apply IH].
Qed.

(** C1. The back-off that [_poll] sets is [_POLL_BACKOFF_MIN] on the first
    poll of a future and [max(MIN, min(2 * previous, MAX))] on every later
    one; over the polls of one future the back-offs stay within [1, 60],
    never decrease, double until they reach 60, and the third poll uses 4.
    Nothing else in the pipeline writes a back-off: over any run of
    [cancel()] calls, dispatched records and worker iterations a back-off is
    first set within [1, 60], stays there, and never decreases. *)
Theorem poll_backoff_schedule (c : Client) (h : handle) (f : Future) :
  futures c !! h = Some f ->
  backoff_of (exec (_poll h) c) h
  = Some (match _poll_backoff f with
          | None => _POLL_BACKOFF_MIN
          | Some previous =>
              Z.max _POLL_BACKOFF_MIN (Z.min (previous * 2) _POLL_BACKOFF_MAX)
          end)
  /\ (_poll_backoff f = None ->
      forall n : nat, exists b b' : Z,
        backoff_of (polled h (S n) c) h = Some b
        /\ backoff_of (polled h (S (S n)) c) h = Some b'
        /\ (1 <= b <= 60)%Z /\ (b <= b')%Z /\ (b < 60 -> b' = Z.min (2 * b) 60)%Z)
  /\ (_poll_backoff f = None -> backoff_of (polled h 3 c) h = Some 4%Z)
  /\ (forall steps, backoff_step (backoff_of c h) (backoff_of (run steps c) h)).
Proof.
  intros Hf. split; [|split; [|split]].
  - rewrite (backoff_after_poll _ _ _ Hf). reflexivity.
  - intros Hnone n.
    exists (Z.min (2 ^ Z.of_nat n) _POLL_BACKOFF_MAX),
           (Z.min (2 ^ Z.of_nat (S n)) _POLL_BACKOFF_MAX).
    rewrite !(backoff_after_polls _ _ _ _ Hf Hnone).
    split; [reflexivity|]. split; [reflexivity|].
    unfold _POLL_BACKOFF_MAX.
    rewrite Nat2Z.inj_succ, Z.pow_succ_r by lia.
    assert (0 < 2 ^ Z.of_nat n)%Z by (apply Z.pow_pos_nonneg; lia).
    lia.
  - intros Hnone. rewrite (backoff_after_polls _ _ _ _ Hf Hnone). reflexivity.
  - intros steps. apply run_paces.
Qed.

Lemma poll_backoff_schedule_witness :
  backoff_of (polled 0%nat 3 (idle_client None [(0%nat, fresh_future 0)] (fun _ => 0%Q))) 0%nat
  = Some 4%Z.
Proof.
  destruct (poll_backoff_schedule
              (idle_client None [(0%nat, fresh_future 0)] (fun _ => 0%Q)) 0%nat
              (fresh_future 0) eq_refl) as (_ & _ & H & _).
  apply H. reflexivity.
Defined.

(** C4. Under the single-cancel lock the dispatcher enqueues a cancel only
    if [_cancel_requested] is set, [_cancel_sent] is not, and the status is
    PENDING, and it leaves [_cancel_sent] set.  Hence, whatever the order of
    [cancel()] calls, dispatched status records and iterations of the
    submission, poll and cancel workers, a future for which no cancel was
    issued has at most one entry on the cancel queue and in the DELETE
    requests together, whether [cancel()] came before or after the remote
    id was known. *)
Theorem single_cancel_request (c : Client) (h : handle) (steps : list Step) :
  issued h (cancel_view c) = 0%nat ->
  (issued h (cancel_view (run steps c)) <= 1)%nat
  /\ forall c0 status id_ f,
       futures c0 !! h = Some f ->
       cancel_under_lock status id_ h c0
       = if _cancel_requested f then
           (with_futures (<[h := set_cancel_sent true f]> (futures c0))
              (if (negb (_cancel_sent f) && bool_decide (status = STATUS_PENDING))%bool
               then with_cancel_queue (put (Some (id_, Some h)) (_cancel_queue c0)) c0
               else c0), Ok tt)
         else (c0, Ok tt).
Proof.
  intros Hnone. split.
  - destruct (run_once h steps c) as [H0|[H1 _]]; [now left | lia | lia].
  - intros c0 status id_ f Hf. now apply cancel_under_lock_closed.
Qed.

Lemma single_cancel_request_witness :
  (issued 0%nat (cancel_view (run cancel_early queued_client)) <= 1)%nat.
Proof.
  apply (single_cancel_request queued_client 0%nat cancel_early).
  reflexivity.
Defined.

Example cancel_early_deletes_once :
  map delete_body (delete_log (run cancel_early queued_client)) = [["test-id"]]
  /\ items (_cancel_queue (run cancel_early queued_client)) = []
  /\ outcome_of (run cancel_early queued_client) 0%nat
     = Some (Error CanceledFutureError CanceledFutureError).
Proof. vm_compute. repeat split. Qed.

(** ** Ordering of the solvers *)

Section OrderingProperties.

Context {S : Type}.
Variable pluck_key : S -> string -> option Z.

Lemma insert_sorted_perm (x : Z * S) l : Permutation (insert_sorted x l) (x :: l).
Proof.
  induction l as [|y l IH]; simpl; [reflexivity|].
  destruct (x.1 <=? y.1)%Z; [reflexivity|].
  rewrite IH. apply perm_swap.
Qed.

Lemma sort_by_key_perm (l : list (Z * S)) : Permutation (sort_by_key l) l.
Proof.
  induction l as [|x l IH]; simpl; [reflexivity|].
  rewrite insert_sorted_perm. now constructor.
Qed.

Lemma insert_sorted_sorted (x : Z * S) l :
  StronglySorted (fun p q => (p.1 <= q.1)%Z) l ->
  StronglySorted (fun p q => (p.1 <= q.1)%Z) (insert_sorted x l).
Proof.
  induction l as [|y l IH]; intros Hs; simpl.
  - repeat constructor.
  - apply StronglySorted_inv in Hs as [Hl Hy].
    destruct (x.1 <=? y.1)%Z eqn:Hle.
    + apply Z.leb_le in Hle. constructor; [now constructor|].
      constructor; [exact Hle|].
      eapply Forall_impl; [exact Hy|]. simpl. intros; lia.
    + apply Z.leb_gt in Hle. constructor; [now apply IH|].
      rewrite (insert_sorted_perm x l). constructor; [lia | exact Hy].
Qed.

Lemma sort_by_key_sorted (l : list (Z * S)) :
  StronglySorted (fun p q => (p.1 <= q.1)%Z) (sort_by_key l).
Proof.
  induction l as [|x l IH]; simpl; [constructor | now apply insert_sorted_sorted].
Qed.

Lemma insert_sorted_stable (z : Z) (x : Z * S) l :
  filter (fun p => p.1 = z) (insert_sorted x l) = filter (fun p => p.1 = z) (x :: l).
Proof.
  induction l as [|y l IH]; simpl; [reflexivity|].
  destruct (x.1 <=? y.1)%Z eqn:Hle; [reflexivity|].
  apply Z.leb_gt in Hle.
  rewrite (filter_cons _ y), IH, !filter_cons.
  destruct (decide (y.1 = z)), (decide (x.1 = z)); try reflexivity. lia.
Qed.

Lemma sort_by_key_stable (z : Z) (l : list (Z * S)) :
  filter (fun p => p.1 = z) (sort_by_key l) = filter (fun p => p.1 = z) l.
Proof.
  induction l as [|x l IH]; simpl; [reflexivity|].
  rewrite insert_sorted_stable, !filter_cons, IH. reflexivity.
Qed.

Lemma valid_keys_keyed key (solvers : list S) :
  Forall (keyed key) (with_valid_keys (map (fun s => (key s, s)) solvers)).
Proof.
  unfold with_valid_keys. induction solvers as [|s l IH]; simpl; [constructor|].
  destruct (key s) eqn:Hk; simpl; [|exact IH].
  constructor; [exact Hk | exact IH].
Qed.

Lemma valid_keys_solvers key (solvers : list S) :
  map snd (with_valid_keys (map (fun s => (key s, s)) solvers))
  = filter (fun s => key s <> None) solvers.
Proof.
  unfold with_valid_keys. induction solvers as [|s l IH]; simpl; [reflexivity|].
  rewrite filter_cons. destruct (key s) eqn:Hk; simpl.
  - f_equal. exact IH.
  - exact IH.
Qed.

Lemma invalid_keys_solvers key (solvers : list S) :
  with_invalid_keys (map (fun s => (key s, s)) solvers)
  = filter (fun s => key s = None) solvers.
Proof.
  unfold with_invalid_keys. induction solvers as [|s l IH]; simpl; [reflexivity|].
  rewrite filter_cons. destruct (key s) eqn:Hk; simpl.
  - exact IH.
  - f_equal. exact IH.
Qed.

Lemma keyed_filter key (z : Z) (l : list (Z * S)) :
  Forall (keyed key) l ->
  filter (fun s => key s = Some z) (map snd l) = map snd (filter (fun p => p.1 = z) l).
Proof.
  induction 1 as [|p l Hp _ IH]; [reflexivity|].
  simpl. rewrite !filter_cons, IH. unfold keyed in Hp. rewrite Hp.
  destruct (decide (p.1 = z)) as [->|Hne].
  - now rewrite decide_True by reflexivity.
  - now rewrite decide_False by congruence.
Qed.

Lemma keyed_no_none key (k : option Z) (l : list (Z * S)) :
  k = None -> Forall (keyed key) l -> filter (fun s => key s = k) (map snd l) = [].
Proof.
  intros Hk. induction 1 as [|p l Hp _ IH]; [reflexivity|].
  simpl. rewrite filter_cons, IH. unfold keyed in Hp.
  now rewrite decide_False by congruence.
Qed.

Lemma filter_filter_eq (P Q : S -> Prop) `{!forall s, Decision (P s)}
    `{!forall s, Decision (Q s)} (l : list S) :
  (forall s, P s -> Q s) -> filter P (filter Q l) = filter P l.
Proof.
  intros HPQ. induction l as [|s l IH]; [reflexivity|].
  rewrite !(filter_cons _ s). destruct (decide (Q s)) as [Hq|Hq].
  - rewrite filter_cons, IH. reflexivity.
  - rewrite IH. destruct (decide (P s)) as [Hp|Hp]; [|reflexivity].
    exfalso. auto.
Qed.

Lemma filter_none (P Q : S -> Prop) `{!forall s, Decision (P s)}
    `{!forall s, Decision (Q s)} (l : list S) :
  (forall s, P s -> Q s -> False) -> filter P (filter Q l) = [].
Proof.
  intros HPQ. induction l as [|s l IH]; [reflexivity|].
  rewrite (filter_cons _ s). destruct (decide (Q s)) as [Hq|Hq]; [|exact IH].
  rewrite filter_cons, IH. destruct (decide (P s)) as [Hp|Hp]; [|reflexivity].
  exfalso. eauto.
Qed.

Lemma sort_solvers_stable key (solvers : list S) :
  stable_wrt key solvers (sort_solvers key solvers).
Proof.
  intros k. unfold sort_solvers.
  pose proof (valid_keys_keyed key solvers) as Hkeyed.
  assert (Hsorted : Forall (keyed key)
            (sort_by_key (with_valid_keys (map (fun s => (key s, s)) solvers)))).
  { eapply Permutation_Forall; [symmetry; apply sort_by_key_perm | exact Hkeyed]. }
  rewrite filter_app, invalid_keys_solvers.
  destruct k as [z|].
  - rewrite (keyed_filter _ _ _ Hsorted), sort_by_key_stable.
    rewrite <- (keyed_filter _ _ _ Hkeyed), valid_keys_solvers.
    rewrite (filter_none (fun s => key s = Some z) (fun s => key s = None))
      by (intros; congruence).
    rewrite app_nil_r. apply filter_filter_eq. intros; congruence.
  - rewrite (keyed_no_none _ None _ eq_refl Hsorted). simpl.
    apply filter_filter_eq. auto.
Qed.

Lemma sort_solvers_none_last key (solvers : list S) :
  none_last key (sort_solvers key solvers).
Proof.
  unfold sort_solvers.
  eexists _, _. split; [reflexivity|]. split.
  - apply Forall_fmap.
    eapply Permutation_Forall; [symmetry; apply sort_by_key_perm|].
    eapply Forall_impl; [apply valid_keys_keyed|].
    unfold keyed. simpl. intros p Hp. congruence.
  - rewrite invalid_keys_solvers. apply Forall_forall.
    intros s Hs. now apply list_elem_of_filter in Hs as [Hs _].
Qed.

Lemma sort_solvers_ascending key (solvers : list S) :
  StronglySorted Z.le (omap key (sort_solvers key solvers)).
Proof.
  unfold sort_solvers. rewrite omap_app, invalid_keys_solvers.
  assert (Hnone : omap key (filter (fun s => key s = None) solvers) = []).
  { induction solvers as [|s l IH]; [reflexivity|].
    rewrite filter_cons. destruct (decide (key s = None)) as [Hk|Hk]; [|exact IH].
    simpl. now rewrite Hk. }
  rewrite Hnone, app_nil_r.
  pose proof (valid_keys_keyed key solvers) as Hkeyed.
  assert (Hsorted : Forall (keyed key)
            (sort_by_key (with_valid_keys (map (fun s => (key s, s)) solvers)))).
  { eapply Permutation_Forall; [symmetry; apply sort_by_key_perm | exact Hkeyed]. }
  pose proof (sort_by_key_sorted (with_valid_keys (map (fun s => (key s, s)) solvers)))
    as Hs.
  revert Hsorted Hs.
  generalize (sort_by_key (with_valid_keys (map (fun s => (key s, s)) solvers))).
  intros l Hkl Hs. induction Hs as [|p l Hs IH Hp]; [constructor|].
  apply Forall_cons in Hkl as [Hkp Hkl]. simpl. unfold keyed in Hkp. rewrite Hkp. simpl.
  constructor; [now apply IH|].
  clear -Hp Hkl. induction l as [|q l IH]; [constructor|].
  apply Forall_cons in Hp as [Hq Hp]. apply Forall_cons in Hkl as [Hkq Hkl].
  simpl. unfold keyed in Hkq. rewrite Hkq. simpl. constructor; auto.
Qed.

Lemma sort_solvers_perm key (solvers : list S) :
  Permutation (sort_solvers key solvers) solvers.
Proof.
  unfold sort_solvers. rewrite sort_by_key_perm, valid_keys_solvers, invalid_keys_solvers.
  induction solvers as [|s l IH]; [reflexivity|].
  rewrite !filter_cons.
  destruct (decide (key s <> None)) as [Hk|Hk], (decide (key s = None)) as [Hn|Hn];
    try contradiction.
  - simpl. now constructor.
  - rewrite <- Permutation_middle. now constructor.
Qed.

(** C8 (amended). With a sort key ([order_by] a path or a callable),
    [get_solvers] orders ascending by a stable sort that puts the solvers
    whose key is [None] last; a path with the [-] prefix returns that
    list reversed, so that descending order has the [None] keys first and
    equal keys in the reverse of the API order. *)
Theorem ordering_stable_ascending
    (order_by : OrderBy) (key : S -> option Z) (descending : bool) (solvers : list S) :
  sort_params pluck_key order_by = (Some key, descending) ->
  order_solvers pluck_key order_by solvers
  = (if descending then reverse (sort_solvers key solvers) else sort_solvers key solvers)
  /\ stable_wrt key solvers (sort_solvers key solvers)
  /\ none_last key (sort_solvers key solvers)
  /\ StronglySorted Z.le (omap key (sort_solvers key solvers))
  /\ Permutation (sort_solvers key solvers) solvers.
Proof.
  intros Hparams. split.
  - unfold order_solvers. now rewrite Hparams.
  - split; [apply sort_solvers_stable|]. split; [apply sort_solvers_none_last|].
    split; [apply sort_solvers_ascending | apply sort_solvers_perm].
Qed.

End OrderingProperties.

Lemma ordering_stable_ascending_witness :
  order_solvers load_of (OrderPath "avg_load") three_solvers
  = sort_solvers (fun solver => load_of solver "avg_load") three_solvers
  /\ stable_wrt (fun solver => load_of solver "avg_load") three_solvers
       (sort_solvers (fun solver => load_of solver "avg_load") three_solvers).
Proof.
  destruct (ordering_stable_ascending load_of (OrderPath "avg_load")
              (fun solver => load_of solver "avg_load") false three_solvers eq_refl)
    as (H1 & H2 & _).
  split; [exact H1 | exact H2].
Defined.

Example descending_order :
  order_solvers load_of (OrderPath "-avg_load") three_solvers
  = [("b", None); ("c", Some 1%Z); ("a", Some 1%Z)].
Proof. reflexivity. Qed.

(** C8, as stated, fails for a descending path: the solver without a key
    comes first, and the two solvers of equal key swap places. *)
Lemma ordering_descending_counterexample :
  ~ none_last (fun solver => load_of solver "avg_load")
      (order_solvers load_of (OrderPath "-avg_load") three_solvers)
  /\ ~ stable_wrt (fun solver => load_of solver "avg_load") three_solvers
         (order_solvers load_of (OrderPath "-avg_load") three_solvers).
Proof.
  split.
  - intros (valid & invalid & Heq & Hvalid & Hinvalid).
    change (order_solvers load_of (OrderPath "-avg_load") three_solvers)
      with [("b", None : option Z); ("c", Some 1%Z); ("a", Some 1%Z)] in Heq.
    destruct valid as [|v valid]; simpl in Heq.
    + subst invalid. apply Forall_cons in Hinvalid as [_ Hinvalid].
      apply Forall_cons in Hinvalid as [Hc _]. discriminate Hc.
    + inversion Heq; subst. apply Forall_cons in Hvalid as [Hb _]. now apply Hb.
  - intros Hstable. specialize (Hstable (Some 1%Z)). vm_compute in Hstable.
    discriminate Hstable.
Qed.

(** ** Filter predicates on a missing feature *)

Section FilterProperties.

Variable re_match : Value -> string -> bool.






End FilterProperties.



(** A path whose first key is in none of the three places resolves to
    [None]. *)
Lemma missing_feature_is_none (solver : Solver) (key : string) (rest : list string) :
  dict_get (String.concat "." (key :: rest)) (derived_properties solver) = None ->
  dict_get key (parameters solver) = None ->
  dict_get key (properties solver) = None ->
  feature solver (key :: rest) = VNone.
Proof.
  intros Hd Hp Hq. unfold feature. rewrite Hd. simpl. rewrite Hp, Hq.
  now destruct rest.
Qed.

(** ** Scenarios of the test suite *)

Example exponential_backoff_polling :
  backoff_of (run backoff_scenario queued_client) 0%nat = Some (_POLL_BACKOFF_MIN * 2 ^ 2)%Z
  /\ items (_load_queue (run backoff_scenario queued_client)) = [Some 0%nat]
  /\ outcome_of (run backoff_scenario queued_client) 0%nat = None.
Proof. vm_compute. repeat split. Qed.

Example polling_recovery_after_5xx :
  backoff_of (run recovery_scenario queued_client) 0%nat = Some (_POLL_BACKOFF_MIN * 2 ^ 2)%Z
  /\ outcome_of (run recovery_scenario queued_client) 0%nat
     = Some (Result (completed_reply "123" (Some "answer")))
  /\ unfinished_tasks (_poll_queue (run recovery_scenario queued_client)) = 0%Z.
Proof. vm_compute. repeat split. Qed.

(** ** The dispatcher settles or queues *)

#[local] Instance heap_kept_preorder : PreOrder heap_kept.
Proof.
  split.
  - intros c h H. exact H.
  - intros c1 c2 c3 H12 H23 h H. apply H23, H12, H.
Qed.

#[local] Instance others_kept_preorder h : PreOrder (others_kept h).
Proof.
  split.
  - intros c h' _. reflexivity.
  - intros c1 c2 c3 H12 H23 h' Hne. now rewrite H23, H12.
Qed.

Lemma heap_kept_modify (f : Client -> Client) :
  (forall c, futures (f c) = futures c) -> respects heap_kept (modify f).
Proof. intros Hf c h. simpl. now rewrite Hf. Qed.

Lemma heap_kept_read_clock : respects heap_kept read_clock.
Proof. intros c h H. exact H. Qed.

Lemma heap_kept_update_future h g : respects heap_kept (update_future h g).
Proof.
  intros c h' H. unfold update_future.
  destruct (futures c !! h) as [f|] eqn:Hf; [|exact H]. simpl.
  destruct (decide (h' = h)) as [->|Hne].
  - rewrite lookup_insert_eq. eauto.
  - now rewrite lookup_insert_ne by congruence.
Qed.

Ltac heap_leaf :=
  first
    [ apply heap_kept_read_clock
    | apply heap_kept_update_future
    | apply heap_kept_modify; intros ?; reflexivity
    | respect respects_group; intros ?; apply heap_kept_modify; intros ?; reflexivity ].

Ltac heap_all := repeat respects_step heap_leaf.

Lemma heap_kept_poll h : respects heap_kept (_poll h).
Proof. unfold _poll. heap_all. Qed.

Lemma heap_kept_dispatch_body message h : respects heap_kept (dispatch_body message h).
Proof.
  unfold dispatch_body, dispatch_accepted, cancel_under_lock,
    update_times, update_time, parse_datetime, route_status, _set_error, _set_message,
    _cancel, _load, _poll.
  heap_all; cbv zeta; heap_all.
Qed.

Lemma heap_kept_dispatch message h : respects heap_kept (_handle_problem_status message h).
Proof.
  unfold _handle_problem_status, _set_error.
  respect respects_try; [apply heap_kept_dispatch_body|]. intros e. heap_all.
Qed.

Lemma others_kept_modify h (f : Client -> Client) :
  (forall c, futures (f c) = futures c) -> respects (others_kept h) (modify f).
Proof. intros Hf c h' _. simpl. now rewrite Hf. Qed.

Lemma others_kept_read_clock h : respects (others_kept h) read_clock.
Proof. intros c h' _. reflexivity. Qed.

Lemma others_kept_update_future h g : respects (others_kept h) (update_future h g).
Proof.
  intros c h' Hne. unfold update_future.
  destruct (futures c !! h) as [f|] eqn:Hf; [|reflexivity]. simpl.
  now rewrite lookup_insert_ne by congruence.
Qed.

Ltac others_leaf :=
  first
    [ apply others_kept_read_clock
    | apply others_kept_update_future
    | apply others_kept_modify; intros ?; reflexivity ].

Ltac others_all := repeat respects_step others_leaf.

Lemma others_kept_dispatch message h :
  respects (others_kept h) (_handle_problem_status message h).
Proof.
  unfold _handle_problem_status, dispatch_body, dispatch_accepted, cancel_under_lock,
    update_times, update_time, parse_datetime, route_status, _set_error, _set_message,
    _cancel, _load, _poll.
  others_all; cbv zeta; others_all.
Qed.

Lemma set_error_alive h error exc_info c :
  is_Some (futures c !! h) -> snd (_set_error h error exc_info c) = Ok tt.
Proof. intros [f Hf]. unfold _set_error. now rewrite (update_future_some _ _ _ _ Hf). Qed.

Lemma dispatch_returns message h c :
  is_Some (futures c !! h) -> snd (_handle_problem_status message h c) = Ok tt.
Proof.
  intros Halive. unfold _handle_problem_status, try_except.
  pose proof (heap_kept_dispatch_body message h c h Halive) as Hkept.
  destruct (dispatch_body message h c) as [c1 [[]|e]]; [reflexivity|].
  now apply set_error_alive.
Qed.

(** X1. [_handle_problem_status] never raises on a future that exists: whatever
    the status record holds, every exception of the dispatcher ends in
    [future._set_error], the call returns, the future is still there and no
    other future is written. *)
Theorem dispatcher_never_raises (message : Message) (h : handle) (c : Client) :
  is_Some (futures c !! h) ->
  let c' := exec (_handle_problem_status message h) c in
  _handle_problem_status message h c = (c', Ok tt)
  /\ is_Some (futures c' !! h)
  /\ (forall h', h' <> h -> futures c' !! h' = futures c !! h').
Proof.
  intros Halive. cbv zeta. unfold exec.
  pose proof (dispatch_returns message h c Halive) as Hok.
  pose proof (heap_kept_dispatch message h c h Halive) as Hkept.
  pose proof (others_kept_dispatch message h c) as Hothers.
  destruct (_handle_problem_status message h c) as [c' r]. simpl in *. subst r.
  split; [reflexivity|]. split; [exact Hkept | exact Hothers].
Qed.

Lemma dispatcher_never_raises_witness :
  _handle_problem_status missing_parameter_reply 0%nat submitting_client
  = (exec (_handle_problem_status missing_parameter_reply 0%nat) submitting_client, Ok tt).
Proof.
  apply (dispatcher_never_raises missing_parameter_reply 0%nat submitting_client).
  exists (fresh_future 0). reflexivity.
Defined.

Lemma done_settle o f : done (settle o f) = true.
Proof. unfold settle, done. destruct (outcome f) eqn:H; simpl; now rewrite ?H. Qed.

#[local] Instance same_load_queue_preorder : PreOrder same_load_queue.
Proof.
  split.
  - intros c. reflexivity.
  - intros c1 c2 c3 H12 H23. unfold same_load_queue in *. congruence.
Qed.

Lemma same_load_update_future h g : respects same_load_queue (update_future h g).
Proof.
  intros c. unfold update_future. now destruct (futures c !! h).
Qed.

Ltac load_leaf :=
  first
    [ apply same_load_update_future
    | intros ?; reflexivity ].

Lemma dispatch_body_ok_inv message h c c' :
  dispatch_body message h c = (c', Ok tt) ->
  exists status id_ c0,
    m_status message = Some status /\ m_id message = Some id_
    /\ _load_queue c0 = _load_queue c
    /\ route_status status message h c0 = (c', Ok tt).
Proof.
  unfold dispatch_body. intros H.
  assert (Hacc : exists status id_,
            m_status message = Some status /\ m_id message = Some id_
            /\ dispatch_accepted status id_ message h c = (c', Ok tt)).
  { destruct (m_status message) as [status|], (m_id message) as [id_|],
      (m_error_code message), (m_error_msg message); try discriminate H; eauto. }
  destruct Hacc as (status & id_ & Hs & Hi & Hacc).
  exists status, id_. unfold dispatch_accepted in Hacc.
  assert (Hstep : forall (m : M unit) c1 c2,
            respects same_load_queue m -> m c1 = (c2, Ok tt) ->
            _load_queue c2 = _load_queue c1).
  { intros m c1 c2 Hm Hrun. specialize (Hm c1). now rewrite Hrun in Hm. }
  apply bind_ok_inv in Hacc as (c1 & [] & H1 & Hacc).
  apply bind_ok_inv in Hacc as (c2 & [] & H2 & Hacc).
  apply bind_ok_inv in Hacc as (c3 & [] & H3 & Hacc).
  apply bind_ok_inv in Hacc as (c4 & [] & H4 & Hacc).
  exists c4. repeat split; auto.
  apply Hstep in H1, H2, H3, H4.
  - congruence.
  - unfold update_times, update_time, parse_datetime. repeat respects_step load_leaf.
  - unfold cancel_under_lock, _cancel. repeat respects_step load_leaf.
  - repeat respects_step load_leaf.
  - repeat respects_step load_leaf.
Qed.

(** X3. The dispatcher leaves no future dangling: after any record the future is
    done, or it is the last item of the load queue (COMPLETED without an
    answer), or it is on the poll queue (IN_PROGRESS, PENDING). *)
Theorem dispatched_future_settled_or_queued (message : Message) (h : handle) (c : Client) :
  is_Some (futures c !! h) ->
  let c' := exec (_handle_problem_status message h) c in
  (exists f', futures c' !! h = Some f' /\ done f' = true)
  \/ (m_status message = Some STATUS_COMPLETE /\ m_answer message = None
      /\ items (_load_queue c') = items (_load_queue c) ++ [Some h])
  \/ ((m_status message = Some STATUS_IN_PROGRESS \/ m_status message = Some STATUS_PENDING)
      /\ requeued c' h).
Proof.
  intros Halive. cbv zeta. unfold exec, _handle_problem_status, try_except.
  pose proof (heap_kept_dispatch_body message h c h Halive) as Hkept.
  destruct (dispatch_body message h c) as [c1 [[]|e]] eqn:Hbody; simpl in Hkept.
  - apply dispatch_body_ok_inv in Hbody as (status & id_ & c0 & Hs & Hi & Hload & Hroute).
    unfold route_status in Hroute.
    destruct (bool_decide (status = STATUS_COMPLETE)) eqn:Hc.
    + apply bool_decide_eq_true_1 in Hc. subst status.
      destruct (m_answer message) as [answer|] eqn:Ha.
      * left. unfold _set_message, update_future in Hroute.
        destruct (futures c0 !! h) as [f|]; [|discriminate].
        inversion Hroute; subst. simpl. rewrite lookup_insert_eq.
        eexists. split; [reflexivity | apply done_settle].
      * right. left. split; [exact Hs|]. split; [reflexivity|].
        inversion Hroute; subst. simpl. now rewrite Hload.
    + destruct (bool_decide (status ∈ ANY_STATUS_ONGOING)) eqn:Ho.
      * right. right. apply bool_decide_eq_true_1 in Ho. split.
        -- unfold ANY_STATUS_ONGOING in Ho.
           apply elem_of_cons in Ho as [->|Ho]; [now left|].
           apply list_elem_of_singleton in Ho. subst. now right.
        -- now destruct (poll_step_facts _ _ _ Hroute) as (_ & _ & Hr & _).
      * destruct (bool_decide (status = STATUS_CANCELLED)); [discriminate|].
        cbv zeta in Hroute. destruct (str_contains _ _); discriminate.
  - left. destruct Hkept as [f Hf]. unfold _set_error.
    rewrite (update_future_some _ _ _ _ Hf). simpl. rewrite lookup_insert_eq.
    eexists. split; [reflexivity | apply done_settle].
Qed.

Lemma dispatched_future_settled_or_queued_witness :
  (exists f', futures (exec (_handle_problem_status (pending_reply "123") 0%nat)
                         submitting_client) !! 0%nat = Some f'
              /\ done f' = true)
  \/ (m_status (pending_reply "123") = Some STATUS_COMPLETE
      /\ m_answer (pending_reply "123") = None
      /\ items (_load_queue (exec (_handle_problem_status (pending_reply "123") 0%nat)
                               submitting_client))
         = items (_load_queue submitting_client) ++ [Some 0%nat])
  \/ ((m_status (pending_reply "123") = Some STATUS_IN_PROGRESS
       \/ m_status (pending_reply "123") = Some STATUS_PENDING)
      /\ requeued (exec (_handle_problem_status (pending_reply "123") 0%nat)
                     submitting_client) 0%nat).
Proof.
  apply (dispatched_future_settled_or_queued (pending_reply "123") 0%nat submitting_client).
  exists (fresh_future 0). reflexivity.
Defined.

(** ** Time stamps over the life of a future *)

Lemma later_state_refl f : later_state f f.
Proof. repeat split; auto. Qed.

Lemma later_state_trans f1 f2 f3 :
  later_state f1 f2 -> later_state f2 f3 -> later_state f1 f3.
Proof.
  intros (Hc & Hr & Hs & Hmin & Hmax) (Hc' & Hr' & Hs' & Hmin' & Hmax').
  repeat split; [congruence | auto ..].
Qed.

#[local] Instance stamps_kept_preorder : PreOrder stamps_kept.
Proof.
  split.
  - intros c h f Hf. exists f. split; [exact Hf | apply later_state_refl].
  - intros c1 c2 c3 H12 H23 h f Hf.
    destruct (H12 _ _ Hf) as (f2 & Hf2 & Hl2).
    destruct (H23 _ _ Hf2) as (f3 & Hf3 & Hl3).
    exists f3. split; [exact Hf3 | eapply later_state_trans; eauto].
Qed.

Lemma stamps_modify (f : Client -> Client) :
  (forall c, futures (f c) = futures c) -> respects stamps_kept (modify f).
Proof.
  intros Hf c h g Hg. simpl. rewrite Hf. exists g. split; [exact Hg | apply later_state_refl].
Qed.

Lemma stamps_read_clock : respects stamps_kept read_clock.
Proof. intros c h g Hg. exists g. split; [exact Hg | apply later_state_refl]. Qed.

Lemma stamps_update_at h (g : Future -> Future) c f :
  futures c !! h = Some f -> later_state f (g f) ->
  stamps_kept c (with_futures (<[h := g f]> (futures c)) c).
Proof.
  intros Hf Hl h' f' Hf'. simpl. destruct (decide (h' = h)) as [->|Hne].
  - rewrite lookup_insert_eq. exists (g f). split; [reflexivity|]. congruence.
  - rewrite lookup_insert_ne by congruence. exists f'. split; [exact Hf' | apply later_state_refl].
Qed.

Lemma stamps_update_future h (g : Future -> Future) :
  (forall f, later_state f (g f)) -> respects stamps_kept (update_future h g).
Proof.
  intros Hg c. unfold update_future. destruct (futures c !! h) as [f|] eqn:Hf.
  - simpl. now apply stamps_update_at.
  - reflexivity.
Qed.

Lemma stamps_update_time h (get : Future -> option Q) set field :
  (forall f t, get f = None -> later_state f (set (Some t) f)) ->
  respects stamps_kept (update_time h get set field).
Proof.
  intros Hset c. unfold update_time, bind, read_future.
  destruct (futures c !! h) as [f|] eqn:Hf; [|reflexivity].
  destruct (get f) as [t|] eqn:Hget.
  - rewrite bool_decide_eq_true_2 by eauto. reflexivity.
  - rewrite bool_decide_eq_false_2 by (intros [? ?]; discriminate). simpl.
    destruct (truthy_date field); [|reflexivity].
    unfold parse_datetime. destruct field as [[|t|]|]; try reflexivity.
    unfold ret, update_future. rewrite Hf. simpl. apply stamps_update_at; auto.
Qed.

Lemma later_state_settle o f : later_state f (settle o f).
Proof. unfold settle. destruct (outcome f); repeat split; auto. Qed.

Ltac stamps_leaf :=
  first
    [ apply stamps_read_clock
    | apply stamps_modify; intros ?; reflexivity
    | respect respects_group; intros ?; apply stamps_modify; intros ?; reflexivity
    | apply stamps_update_time; intros ? ? Hnone; repeat split; auto;
      simpl; intros ? Hset; rewrite Hnone in Hset; discriminate Hset
    | apply stamps_update_future; intros ?;
      first [ solve [repeat split; auto]
            | apply later_state_settle
            | destruct (clock_diff _); solve [repeat split; auto] ] ].

Ltac stamps_all := repeat respects_step stamps_leaf.

Lemma stamps_dispatch message h : respects stamps_kept (_handle_problem_status message h).
Proof.
  unfold _handle_problem_status, dispatch_body, dispatch_accepted, cancel_under_lock,
    update_times, route_status, _set_error, _set_message, _cancel, _load, _poll.
  stamps_all; cbv zeta; stamps_all.
Qed.

Lemma stamps_occur e : respects stamps_kept (fun c => (occur e c, Ok tt)).
Proof.
  destruct e as [[pending_only h|message h|reply|reply|reply]|body h|reply];
    intros c; simpl; unfold exec.
  - assert (H : respects stamps_kept (cancel pending_only h))
      by (unfold cancel, _cancel; stamps_all).
    apply H.
  - apply stamps_dispatch.
  - assert (H : respects stamps_kept (_do_submit_problems reply)).
    { unfold _do_submit_problems, submit_batch, post_problems, submission_task_done,
        _set_error, _set_clock_diff.
      repeat respects_step ltac:(first [apply stamps_dispatch | stamps_leaf]). }
    apply H.
  - assert (H : respects stamps_kept (_do_poll_problems reply)).
    { unfold _do_poll_problems, build_frame, poll_response, add, poll_task_done,
        _set_error, _poll.
      repeat respects_step ltac:(first [apply stamps_dispatch | stamps_leaf]). }
    apply H.
  - assert (H : respects stamps_kept (_do_cancel_problems reply)).
    { unfold _do_cancel_problems, cancel_batch, session_delete, cancel_task_done,
        _set_error.
      stamps_all. }
    apply H.
  - assert (H : respects stamps_kept (_submit body h)) by (unfold _submit; stamps_all).
    apply H.
  - assert (H : respects stamps_kept (_do_load_results reply)).
    { unfold _do_load_results, load_result, get_result, load_task_done, _set_error.
      repeat respects_step ltac:(first [apply stamps_dispatch | stamps_leaf]). }
    apply H.
Qed.

(** X4. Time stamps are written once: over any sequence of [cancel()] and
    [_submit] calls, dispatched records and iterations of the four workers,
    every future stays on the heap, [time_created] keeps its value, and
    [time_received], [time_solved], [eta_min] and [eta_max] keep theirs once
    they are set. *)
Theorem timestamps_set_once (events : list Event) (c : Client) (h : handle) (f : Future) :
  futures c !! h = Some f ->
  exists f', futures (play events c) !! h = Some f' /\ later_state f f'.
Proof.
  revert c f. induction events as [|e events IH]; intros c f Hf.
  - exists f. split; [exact Hf | apply later_state_refl].
  - simpl. destruct (stamps_occur e c h f Hf) as (f1 & Hf1 & Hl1).
    destruct (IH _ _ Hf1) as (f' & Hf' & Hl').
    exists f'. split; [exact Hf' | eapply later_state_trans; eauto].
Qed.

Lemma timestamps_set_once_witness :
  exists f', futures (play [Pipeline (SubmitWorker (Response 200 0 (Some [pending_reply "123"])));
                            LoadWorker (ResultResponse 200 None)] queued_client) !! 0%nat
             = Some f'
             /\ later_state (fresh_future 0) f'.
Proof.
  apply (timestamps_set_once
           [Pipeline (SubmitWorker (Response 200 0 (Some [pending_reply "123"])));
            LoadWorker (ResultResponse 200 None)] queued_client 0%nat (fresh_future 0)).
  reflexivity.
Defined.

(** ** The polling timeout *)





#[local] Instance schedule_kept_preorder : PreOrder schedule_kept.
Proof.
  split.
  - intros c H. exact H.
  - intros c1 c2 c3 H12 H23 H. apply H23, H12, H.
Qed.
















(** ** Accounting of the queues *)

#[local] Instance same_owed_preorder : PreOrder same_owed.
Proof.
  split.
  - intros c name. reflexivity.
  - intros c1 c2 c3 H12 H23 name. now rewrite H23, H12.
Qed.

Lemma in_hand_put {A : Type} (x : A) q : in_hand (put x q) = in_hand q.
Proof. unfold in_hand, put. simpl. rewrite length_app. simpl. lia. Qed.

Lemma in_hand_put_priority {A : Type} (x : Q * A) q : in_hand (put_priority x q) = in_hand q.
Proof. unfold in_hand, put_priority. simpl. rewrite length_insert_by_time. lia. Qed.

Lemma owed_modify (f : Client -> Client) :
  (forall c name, owed (f c) name = owed c name) -> respects same_owed (modify f).
Proof. intros Hf c name. apply Hf. Qed.

Lemma owed_read_clock : respects same_owed read_clock.
Proof. intros c name. now destruct name. Qed.

Lemma owed_update_future h g : respects same_owed (update_future h g).
Proof.
  intros c name. unfold update_future. destruct (futures c !! h); now destruct name.
Qed.

Ltac owed_leaf :=
  first
    [ apply owed_read_clock
    | apply owed_update_future
    | apply owed_modify; intros ? [];
      solve [ reflexivity | apply in_hand_put | apply in_hand_put_priority ] ].

Ltac owed_all := repeat respects_step owed_leaf.

Lemma owed_poll h : respects same_owed (_poll h).
Proof. unfold _poll. owed_all. Qed.

Lemma owed_dispatch message h : respects same_owed (_handle_problem_status message h).
Proof.
  unfold _handle_problem_status, dispatch_body, dispatch_accepted, cancel_under_lock,
    update_times, update_time, parse_datetime, route_status, _set_error, _set_message,
    _cancel, _load, _poll.
  owed_all; cbv zeta; owed_all.
Qed.

Lemma acknowledged_zero name c c' : same_owed c c' <-> acknowledged name 0 c c'.
Proof.
  unfold same_owed, acknowledged. split; intros H q; rewrite H;
    destruct (is_queue name q); lia.
Qed.

Lemma acknowledged_trans name n m c1 c2 c3 :
  acknowledged name n c1 c2 -> acknowledged name m c2 c3 ->
  acknowledged name (n + m) c1 c3.
Proof.
  intros H12 H23 q. rewrite H23, H12. destruct (is_queue name q); lia.
Qed.

(** A loop whose body returns on every member and acknowledges one task
    of [name] each time. *)
Lemma for_each_acknowledges {A : Type} (I : Client -> Prop) (name : QueueName)
    (l : list A) (body : A -> M unit) :
  (forall x c, x ∈ l -> I c ->
     exists c', body x c = (c', Ok tt) /\ I c' /\ acknowledged name 1 c c') ->
  forall c, I c ->
    exists c', for_each l body c = (c', Ok tt) /\ I c'
               /\ acknowledged name (Z.of_nat (length l)) c c'.
Proof.
  induction l as [|x l IH]; intros Hbody c Hc.
  - exists c. split; [reflexivity|]. split; [exact Hc|].
    now apply acknowledged_zero.
  - destruct (Hbody x c) as (c1 & H1 & Hc1 & Hack1); [left | exact Hc |].
    destruct (IH (fun y c Hy => Hbody y c (proj2 (elem_of_cons _ _ _) (or_intror Hy))) c1 Hc1)
      as (c' & Hrun & Hc' & Hack').
    exists c'. split; [simpl; now rewrite (bind_ok _ _ _ _ _ H1)|].
    split; [exact Hc'|].
    replace (Z.of_nat (length (x :: l))) with (1 + Z.of_nat (length l))%Z
      by (simpl length; lia).
    eapply acknowledged_trans; eauto.
Qed.

(** ** The submission worker *)

Lemma post_problems_failure reply e c :
  post_failure reply = Some e ->
  post_problems reply c = (after_request reply c, Raise e).
Proof.
  unfold post_failure, status_failure, post_problems, raise_for_status.
  destruct reply as [| what | code date json]; simpl.
  - intros H. inversion H. reflexivity.
  - intros H. inversion H. reflexivity.
  - unfold bind, session_call, ret, read_clock, raise. simpl.
    destruct (bool_decide (code = 401)); [intros H; inversion H; reflexivity|].
    destruct ((400 <=? code)%Z && (code <? 600)%Z)%bool;
      [intros H; inversion H; reflexivity|].
    destruct json; [discriminate|]. intros H. inversion H. reflexivity.
Qed.

Lemma post_problems_success reply c :
  post_failure reply = None ->
  exists code date statuses,
    reply = Response code date (Some statuses)
    /\ post_problems reply c
       = (after_request reply c, Ok (date, sys_clock c (clock_reads c), statuses)).
Proof.
  unfold post_failure, status_failure, post_problems, raise_for_status.
  destruct reply as [| what | code date json]; simpl; try discriminate.
  unfold bind, session_call, ret, read_clock, raise. simpl.
  destruct (bool_decide (code = 401)); [discriminate|].
  destruct ((400 <=? code)%Z && (code <? 600)%Z)%bool; [discriminate|].
  destruct json as [statuses|]; [|discriminate]. intros _.
  exists code, date, statuses. split; reflexivity.
Qed.

Lemma submit_batch_failure reply e batch c :
  post_failure reply = Some e ->
  submit_batch batch reply c
  = for_each batch (fail_message (wrap_exception e) e) (after_request reply c).
Proof.
  intros Hfail. unfold submit_batch, bind at 1, try_except, bind at 1.
  rewrite (post_problems_failure _ _ _ Hfail).
  fold (fail_message (wrap_exception e) e). unfold bind, ret.
  destruct (for_each batch _ _) as [c' [[]|x]]; reflexivity.
Qed.

Lemma submit_batch_success code date statuses batch c :
  post_failure (Response code date (Some statuses)) = None ->
  submit_batch batch (Response code date (Some statuses)) c
  = for_each (zip batch statuses) (fun '(submission, res) =>
      _set_clock_diff (future submission) date (sys_clock c (clock_reads c)) ;;
      _handle_problem_status res (future submission) ;;
      submission_task_done)
      (with_clock_reads (S (clock_reads c)) c).
Proof.
  intros Hok. destruct (post_problems_success _ c Hok) as (code' & date' & st' & Heq & Hpost).
  inversion Heq; subst code' date' st'.
  unfold submit_batch, bind at 1, try_except, bind at 1. rewrite Hpost. reflexivity.
Qed.

Lemma after_request_same reply c :
  futures (after_request reply c) = futures c
  /\ same_owed c (after_request reply c)
  /\ _submission_queue (after_request reply c) = _submission_queue c
  /\ _poll_queue (after_request reply c) = _poll_queue c
  /\ _load_queue (after_request reply c) = _load_queue c
  /\ _cancel_queue (after_request reply c) = _cancel_queue c.
Proof. destruct reply; repeat split; intros []; reflexivity. Qed.

Lemma acknowledged_task_done_submission c :
  acknowledged Submission 1 c (with_submission_queue (task_done (_submission_queue c)) c).
Proof. intros []; simpl; unfold in_hand; simpl; lia. Qed.

Lemma same_owed_acknowledged name n c1 c2 c3 :
  same_owed c1 c2 -> acknowledged name n c2 c3 -> acknowledged name n c1 c3.
Proof. intros H12 H23 q. now rewrite H23, H12. Qed.

Lemma all_alive_kept hs c c' : heap_kept c c' -> all_alive hs c -> all_alive hs c'.
Proof. intros Hk Ha h Hh. apply Hk, Ha, Hh. Qed.

#[local] Instance same_submissions_preorder : PreOrder same_submissions.
Proof.
  split.
  - intros c. reflexivity.
  - intros c1 c2 c3 H12 H23. unfold same_submissions in *. congruence.
Qed.

Lemma same_submissions_update_future h g : respects same_submissions (update_future h g).
Proof. intros c. unfold update_future. now destruct (futures c !! h). Qed.

Ltac submissions_leaf :=
  first [ apply same_submissions_update_future | intros ?; reflexivity ].

Lemma same_submissions_dispatch message h :
  respects same_submissions (_handle_problem_status message h).
Proof.
  unfold _handle_problem_status, dispatch_body, dispatch_accepted, cancel_under_lock,
    update_times, update_time, parse_datetime, route_status, _set_error, _set_message,
    _cancel, _load, _poll.
  repeat respects_step submissions_leaf; cbv zeta; repeat respects_step submissions_leaf.
Qed.


Lemma elem_of_zip_l {A B : Type} (x : A) (y : B) l k : (x, y) ∈ zip l k -> x ∈ l.
Proof.
  revert k. induction l as [|a l IH]; intros [|b k] H; simpl in H;
    try (now inversion H).
  apply elem_of_cons in H as [H|H]; [inversion H; left | right; eauto].
Qed.

Lemma length_zip {A B : Type} (l : list A) (k : list B) :
  length (zip l k) = Nat.min (length l) (length k).
Proof.
  revert k. induction l as [|a l IH]; intros [|b k]; simpl; auto.
Qed.

Lemma handle_status_acknowledges hs waiting date localtime submission res c :
  future submission ∈ hs -> submitting hs waiting c ->
  exists c',
    (_set_clock_diff (future submission) date localtime ;;
     _handle_problem_status res (future submission) ;;
     submission_task_done) c = (c', Ok tt)
    /\ submitting hs waiting c' /\ acknowledged Submission 1 c c'.
Proof.
  intros Hin [Halive Hitems]. destruct (Halive _ Hin) as [f Hf].
  unfold _set_clock_diff at 1.
  rewrite (bind_ok _ _ _ _ _ (update_future_some _ _ _ _ Hf)).
  set (c1 := with_futures _ c).
  assert (Halive1 : all_alive hs c1).
  { eapply all_alive_kept; [|exact Halive].
    pose proof (heap_kept_update_future (future submission)
                  (fun f => match clock_diff f with
                            | Some _ => f
                            | None => set_clock_diff (Some (date - localtime)%Q) f
                            end) c) as Hk.
    unfold update_future in Hk. rewrite Hf in Hk. exact Hk. }
  assert (Howed1 : same_owed c c1) by (intros []; reflexivity).
  pose proof (dispatch_returns res (future submission) c1 (Halive1 _ Hin)) as Hok.
  pose proof (heap_kept_dispatch res (future submission) c1) as Hk2.
  pose proof (owed_dispatch res (future submission) c1) as Ho2.
  pose proof (same_submissions_dispatch res (future submission) c1) as Hs2.
  destruct (_handle_problem_status res (future submission) c1) as [c2 r] eqn:Hd.
  simpl in Hok, Hk2, Ho2, Hs2. subst r.
  rewrite (bind_ok _ _ _ _ _ Hd).
  eexists. split; [reflexivity|]. split; [split|].
  - eapply all_alive_kept; [|exact Halive1]. intros h Hh. simpl. now apply Hk2.
  - simpl. red in Hs2. rewrite Hs2. exact Hitems.
  - apply (same_owed_acknowledged _ _ c c2); [|apply acknowledged_task_done_submission].
    etransitivity; [exact Howed1 | exact Ho2].
Qed.


#[local] Instance same_downstream_preorder : PreOrder same_downstream.
Proof.
  split.
  - intros c. now repeat split.
  - intros c1 c2 c3 (Hp & Hl & Hc) (Hp' & Hl' & Hc'). repeat split; congruence.
Qed.

Lemma same_downstream_update_future h g : respects same_downstream (update_future h g).
Proof. intros c. unfold update_future. destruct (futures c !! h); now repeat split. Qed.

Lemma same_downstream_fail error exc_info batch :
  respects same_downstream (for_each batch (fail_message error exc_info)).
Proof.
  unfold fail_message, _set_error, submission_task_done.
  repeat respects_step ltac:(first [ apply same_downstream_update_future
                                   | intros ?; now repeat split ]).
Qed.

(** X7. When the POST of a batch fails (a timeout, a transport error, a 401,
    another status from 400 to 599, or a body that is no JSON) every member
    that was not settled fails with the exception wrapped in [IOError], except
    for the [SolverAuthenticationError] of a 401, which is passed on as it is;
    [exc_info] is the exception itself. Other futures and the poll, load and
    cancel queues are untouched. *)
Theorem submit_failure_reported
    (reply : HttpReply) (e : Exn) (batch : list SubmitMessage) (c : Client) :
  post_failure reply = Some e ->
  (forall mess, mess ∈ batch ->
     exists f, futures c !! future mess = Some f /\ outcome f = None) ->
  let c' := exec (submit_batch batch reply) c in
  submit_batch batch reply c = (c', Ok tt)
  /\ (forall mess, mess ∈ batch ->
        outcome_of c' (future mess)
        = Some (Error (if is_SolverAuthenticationError e then e else IOError e) e))
  /\ (is_SolverAuthenticationError e = true
       <-> exists date json, reply = Response 401 date json)
  /\ (forall h, h ∉ map future batch -> futures c' !! h = futures c !! h)
  /\ same_downstream c c'.
Proof.
  intros Hfail Hvalid. cbv zeta. unfold exec.
  rewrite (submit_batch_failure _ _ _ _ Hfail).
  destruct (after_request_same reply c) as (Hheap & _ & _ & Hp & Hl & Hc).
  destruct (fail_messages_facts (wrap_exception e) e batch (after_request reply c))
    as (c1 & Hrun & Hheap1).
  { intros mess Hm. rewrite Hheap. destruct (Hvalid _ Hm) as (f & Hf & _). eauto. }
  pose proof (same_downstream_fail (wrap_exception e) e batch (after_request reply c))
    as Hdown.
  rewrite Hrun in Hdown |- *. simpl in Hdown |- *.
  split; [reflexivity|]. split; [|split; [|split]].
  - intros mess Hm. destruct (Hvalid _ Hm) as (f & Hf & Hnone).
    unfold outcome_of. rewrite Hheap1, bool_decide_eq_true_2.
    + rewrite Hheap, Hf. simpl. now apply settle_outcome.
    + apply list_elem_of_fmap. eauto.
  - clear -Hfail. unfold post_failure, status_failure in Hfail. split.
    + intros Hauth. destruct reply as [| what | code date json].
      * inversion Hfail; subst; discriminate.
      * inversion Hfail; subst; discriminate.
      * destruct (bool_decide (code = 401)) eqn:Hcode.
        -- apply bool_decide_eq_true_1 in Hcode. subst. eauto.
        -- destruct ((400 <=? code)%Z && (code <? 600)%Z)%bool;
             [inversion Hfail; subst; discriminate|].
           destruct json; inversion Hfail; subst; discriminate.
    + intros (date & json & ->). simpl in Hfail. inversion Hfail. reflexivity.
  - intros h Hh. rewrite Hheap1, bool_decide_eq_false_2 by exact Hh. now rewrite Hheap.
  - destruct Hdown as (Hp' & Hl' & Hc'). repeat split; congruence.
Qed.

Lemma submit_failure_reported_witness :
  outcome_of (exec (submit_batch one_problem (Response 401 0 None)) submitting_client) 0%nat
  = Some (Error SolverAuthenticationError SolverAuthenticationError).
Proof.
  destruct (submit_failure_reported (Response 401 0 None) SolverAuthenticationError
              one_problem submitting_client eq_refl) as (_ & H & _).
  - intros mess Hm. apply list_elem_of_singleton in Hm. subst mess.
    exists (fresh_future 0). split; reflexivity.
  - apply (H (mkSubmitMessage "{}" 0%nat)). left.
Defined.




Lemma zip_loop_others date localtime batch : forall statuses c h,
  h ∉ map future (take (length statuses) batch) ->
  futures (fst (for_each (zip batch statuses) (fun '(submission, res) =>
             _set_clock_diff (future submission) date localtime ;;
             _handle_problem_status res (future submission) ;;
             submission_task_done) c)) !! h
  = futures c !! h.
Proof.
  induction batch as [|mess batch IH]; intros [|status statuses] c h Hh; try reflexivity.
  simpl in Hh. apply not_elem_of_cons in Hh as [Hne Hh].
  cbn [zip for_each].
  assert (Hbody : respects (others_kept (future mess))
            (_set_clock_diff (future mess) date localtime ;;
             _handle_problem_status status (future mess) ;;
             submission_task_done)).
  { unfold _set_clock_diff, submission_task_done.
    repeat respects_step ltac:(first [apply others_kept_dispatch | others_leaf]). }
  specialize (Hbody c h Hne). unfold bind at 1.
  destruct ((_set_clock_diff (future mess) date localtime ;;
             _handle_problem_status status (future mess) ;;
             submission_task_done) c) as [c1 [[]|e]]; simpl in Hbody |- *.
  - rewrite IH by exact Hh. exact Hbody.
  - exact Hbody.
Qed.

(** X9. Status records are matched to the problems of a batch by position
    ([zip]): a reply with fewer records than the batch has problems leaves the
    problems without a record untouched, neither settled nor acknowledged, and
    records beyond the batch are ignored. *)
Theorem short_reply_leaves_rest_untouched
    (code : Z) (date : Q) (statuses : list Message) (batch : list SubmitMessage)
    (c : Client) :
  post_failure (Response code date (Some statuses)) = None ->
  let c' := exec (submit_batch batch (Response code date (Some statuses))) c in
  (forall h, h ∉ map future (take (length statuses) batch) ->
     futures c' !! h = futures c !! h)
  /\ (all_alive (map future batch) c ->
      forall q, owed c' q
                = (owed c q - if is_queue Submission q
                              then Z.of_nat (Nat.min (length batch) (length statuses))
                              else 0)%Z).
Proof.
  intros Hok. cbv zeta. unfold exec. rewrite (submit_batch_success _ _ _ _ _ Hok). split.
  - intros h Hh. now rewrite zip_loop_others.
  - intros Halive.
    destruct (for_each_acknowledges
                (submitting (map future batch) (items (_submission_queue c))) Submission
                (zip batch statuses)
                (fun '(submission, res) =>
                   _set_clock_diff (future submission) date (sys_clock c (clock_reads c)) ;;
                   _handle_problem_status res (future submission) ;;
                   submission_task_done))
      with (c := with_clock_reads (S (clock_reads c)) c)
      as (c' & Hrun & _ & Hack).
    + intros [submission res] c1 Hm Hc1.
      apply handle_status_acknowledges; [|exact Hc1].
      apply list_elem_of_fmap. exists submission. split; [reflexivity|].
      eapply elem_of_zip_l; eauto.
    + split; [exact Halive | reflexivity].
    + rewrite Hrun. simpl. rewrite length_zip in Hack.
      intros q. rewrite (Hack q). now destruct q.
Qed.

Lemma short_reply_leaves_rest_untouched_witness :
  futures (exec (submit_batch two_problems (Response 200 0 (Some [pending_reply "a"])))
             two_futures) !! 1%nat
  = Some (fresh_future 0).
Proof.
  destruct (short_reply_leaves_rest_untouched 200 0 [pending_reply "a"] two_problems
              two_futures eq_refl) as [H _].
  apply (H 1%nat). intros Hin. apply list_elem_of_singleton in Hin. discriminate Hin.
Defined.

(** ** The routing of a status record *)

#[local] Instance prepared_preorder h : PreOrder (prepared h).
Proof.
  split.
  - intros c. repeat split; auto. intros f Hf. exists f. now repeat split.
  - intros c1 c2 c3 (Ho & Hf & Hs & Hp & Hl & Ht & Hc & Hr)
      (Ho' & Hf' & Hs' & Hp' & Hl' & Ht' & Hc' & Hr').
    repeat split; try congruence.
    + intros h' Hne. now rewrite Ho', Ho.
    + intros f Hh. destruct (Hf _ Hh) as (f2 & Hh2 & ? & ? & ? & ? & ?).
      destruct (Hf' _ Hh2) as (f3 & Hh3 & ? & ? & ? & ? & ?).
      exists f3. repeat split; congruence.
Qed.

Lemma prepared_alive h c c' :
  prepared h c c' -> is_Some (futures c !! h) -> is_Some (futures c' !! h).
Proof. intros (_ & Hf & _) [f Hh]. destruct (Hf _ Hh) as (f' & Hh' & _). eauto. Qed.

Lemma sure_ret h : sure h (ret tt).
Proof. intros c _. exists c. split; [reflexivity | reflexivity]. Qed.

Lemma sure_bind h (m k : M unit) : sure h m -> sure h k -> sure h (m ;; k).
Proof.
  intros Hm Hk c Halive. destruct (Hm c Halive) as (c1 & H1 & Hp1).
  destruct (Hk c1 (prepared_alive _ _ _ Hp1 Halive)) as (c2 & H2 & Hp2).
  exists c2. split; [now rewrite (bind_ok _ _ _ _ _ H1)|]. etransitivity; eauto.
Qed.

Lemma prepared_update h (g : Future -> Future) c f :
  futures c !! h = Some f ->
  id (g f) = id f -> remote_status (g f) = remote_status f ->
  outcome (g f) = outcome f -> _poll_backoff (g f) = _poll_backoff f ->
  time_created (g f) = time_created f ->
  prepared h c (with_futures (<[h := g f]> (futures c)) c).
Proof.
  intros Hf Hi Hr Ho Hb Ht. repeat split; auto.
  - intros h' Hne. simpl. now rewrite lookup_insert_ne by congruence.
  - intros f0 Hf0. simpl. rewrite lookup_insert_eq. exists (g f).
    assert (f0 = f) by congruence. subst f0. now repeat split.
Qed.

Lemma sure_update_future h (g : Future -> Future) :
  (forall f, id (g f) = id f /\ remote_status (g f) = remote_status f
             /\ outcome (g f) = outcome f /\ _poll_backoff (g f) = _poll_backoff f
             /\ time_created (g f) = time_created f) ->
  sure h (update_future h g).
Proof.
  intros Hg c [f Hf]. rewrite (update_future_some _ _ _ _ Hf).
  eexists. split; [reflexivity|].
  destruct (Hg f) as (? & ? & ? & ? & ?). now apply prepared_update.
Qed.

Lemma sure_cancel_under_lock status id_ h : sure h (cancel_under_lock status id_ h).
Proof.
  intros c [f Hf]. rewrite (cancel_under_lock_closed _ _ _ _ _ Hf).
  destruct (_cancel_requested f); [|exists c; split; reflexivity].
  eexists. split; [reflexivity|].
  destruct (negb (_cancel_sent f) && bool_decide (status = STATUS_PENDING))%bool.
  - repeat split; auto.
    + intros h' Hne. simpl. now rewrite lookup_insert_ne by congruence.
    + intros f0 Hf0. simpl. rewrite lookup_insert_eq. eexists. split; [reflexivity|].
      assert (f0 = f) by congruence. subst f0. now repeat split.
  - now apply (prepared_update h (set_cancel_sent true)).
Qed.

Lemma sure_update_time h (get : Future -> option Q) set field :
  field <> Some DateBad ->
  (forall v f, id (set v f) = id f /\ remote_status (set v f) = remote_status f
               /\ outcome (set v f) = outcome f /\ _poll_backoff (set v f) = _poll_backoff f
               /\ time_created (set v f) = time_created f) ->
  sure h (update_time h get set field).
Proof.
  intros Hfield Hset c [f Hf]. unfold update_time.
  rewrite (bind_ok _ _ _ _ _ (read_future_some _ _ _ Hf)).
  destruct (negb (bool_decide (is_Some (get f))) && truthy_date field)%bool eqn:Hguard.
  - destruct field as [[|t|]|]; try (rewrite andb_false_r in Hguard; discriminate);
      [|congruence].
    unfold parse_datetime, bind, ret. rewrite (update_future_some _ _ _ _ Hf).
    eexists. split; [reflexivity|].
    destruct (Hset (Some t) f) as (? & ? & ? & ? & ?). now apply prepared_update.
  - exists c. split; reflexivity.
Qed.

Lemma sure_update_times message h : dates_parse message -> sure h (update_times message h).
Proof.
  intros (H1 & H2 & H3 & H4). unfold update_times.
  repeat apply sure_bind; apply sure_update_time; auto; intros v f; now repeat split.
Qed.

(** A record with a status and an id, and no error pair, reaches the
    routing on its status with the id and the status written. *)
Lemma dispatch_reaches_route message status id_ h c f :
  (m_error_code message = None \/ m_error_msg message = None) ->
  m_status message = Some status -> m_id message = Some id_ ->
  dates_parse message ->
  futures c !! h = Some f ->
  exists c0 f0,
    dispatch_body message h c = route_status status message h c0
    /\ futures c0 !! h = Some f0
    /\ id f0 = Some id_ /\ remote_status f0 = Some status
    /\ outcome f0 = outcome f /\ _poll_backoff f0 = _poll_backoff f
    /\ time_created f0 = time_created f
    /\ (forall h', h' <> h -> futures c0 !! h' = futures c !! h')
    /\ _submission_queue c0 = _submission_queue c
    /\ _poll_queue c0 = _poll_queue c
    /\ _load_queue c0 = _load_queue c
    /\ polling_timeout c0 = polling_timeout c
    /\ sys_clock c0 = sys_clock c
    /\ clock_reads c0 = clock_reads c.
Proof.
  intros Hpair Hs Hi Hdates Hf.
  assert (Hbody : dispatch_body message h c = dispatch_accepted status id_ message h c).
  { unfold dispatch_body. rewrite Hs, Hi.
    destruct Hpair as [-> | ->]; [reflexivity|]. now destruct (m_error_code message). }
  rewrite Hbody. unfold dispatch_accepted.
  rewrite (bind_ok _ _ _ _ _ (update_future_some _ _ _ _ Hf)).
  set (c1 := with_futures (<[h := set_id (Some id_) f]> (futures c)) c).
  assert (Hf1 : futures c1 !! h = Some (set_id (Some id_) f))
    by (unfold c1; simpl; now rewrite lookup_insert_eq).
  rewrite (bind_ok _ _ _ _ _ (update_future_some _ _ _ _ Hf1)).
  set (f2 := set_remote_status (Some status) (set_id (Some id_) f)).
  set (c2 := with_futures (<[h := f2]> (futures c1)) c1).
  assert (Hf2 : futures c2 !! h = Some f2)
    by (unfold c2; simpl; now rewrite lookup_insert_eq).
  destruct (sure_bind h _ _ (sure_cancel_under_lock status id_ h)
              (sure_update_times message h Hdates) c2) as (c0 & Hrun & Hprep); [eauto|].
  destruct Hprep as (Ho & Hfut & Hsq & Hpq & Hlq & Ht & Hc & Hr).
  destruct (Hfut _ Hf2) as (f0 & Hf0 & Hid & Hst & Hout & Hb & Htc).
  exists c0, f0. split.
  - unfold bind in Hrun |- *.
    destruct (cancel_under_lock status id_ h c2) as [c3 [[]|e]]; [|discriminate].
    destruct (update_times message h c3) as [c4 [[]|e]]; [|discriminate].
    now inversion Hrun.
  - split; [exact Hf0|].
    split; [rewrite Hid; reflexivity|]. split; [rewrite Hst; reflexivity|].
    split; [rewrite Hout; reflexivity|]. split; [rewrite Hb; reflexivity|].
    split; [rewrite Htc; reflexivity|].
    split; [|repeat split;
              [rewrite Hsq | rewrite Hpq | rewrite Hlq | rewrite Ht | rewrite Hc | rewrite Hr];
              reflexivity].
    intros h' Hne. rewrite (Ho h' Hne). unfold c2, c1. simpl.
    now rewrite !lookup_insert_ne by congruence.
Qed.

Lemma set_error_unsettled h error exc_info c f :
  futures c !! h = Some f -> outcome f = None ->
  _set_error h error exc_info c
  = (with_futures (<[h := set_outcome (Some (Error error exc_info)) f]> (futures c)) c, Ok tt).
Proof.
  intros Hf Hnone. unfold _set_error. rewrite (update_future_some _ _ _ _ Hf).
  unfold settle. now rewrite Hnone.
Qed.



(** ** The load worker *)

Lemma get_result_failure reply e c :
  result_failure reply = Some e -> get_result reply c = (c, Raise e).
Proof.
  unfold result_failure, status_failure, get_result, raise_for_status.
  destruct reply as [| what | code json]; simpl.
  - intros H. inversion H. reflexivity.
  - intros H. inversion H. reflexivity.
  - unfold bind, ret, raise. simpl.
    destruct (bool_decide (code = 401)); [intros H; inversion H; reflexivity|].
    destruct ((400 <=? code)%Z && (code <? 600)%Z)%bool;
      [intros H; inversion H; reflexivity|].
    destruct json; [discriminate|]. intros H. inversion H. reflexivity.
Qed.

Lemma get_result_success code message c :
  status_failure code = None ->
  get_result (ResultResponse code (Some message)) c = (c, Ok message).
Proof.
  unfold status_failure, get_result, raise_for_status, bind, ret, raise. simpl.
  destruct (bool_decide (code = 401)); [discriminate|].
  destruct ((400 <=? code)%Z && (code <? 600)%Z)%bool; [discriminate|]. reflexivity.
Qed.

Lemma load_worker_start reply h rest c f :
  items (_load_queue c) = Some h :: rest ->
  futures c !! h = Some f ->
  _do_load_results reply c
  = try_except (load_result h reply ;; ret Continue) (fun err => ret Exited)
      (with_load_queue (mkQueue rest (unfinished_tasks (_load_queue c))) c).
Proof.
  intros Hitems Hf.
  unfold _do_load_results, try_except, bind at 1, gets at 1, get_nowait.
  rewrite Hitems. unfold bind at 1, modify at 1.
  unfold bind at 1, read_future at 1. simpl. now rewrite Hf.
Qed.

(** X15. When the request of the load worker fails, the future fails with
    [IOError(IOError(e))], or [IOError(SolverAuthenticationError)] for a 401,
    and the loop continues before [task_done]: the task is off the load queue
    and the count of unfinished tasks is what it was. *)
Theorem load_failure_leaves_task_unfinished
    (reply : ResultReply) (e : Exn) (h : handle) (rest : list (option handle))
    (c : Client) (f : Future) :
  result_failure reply = Some e ->
  items (_load_queue c) = Some h :: rest ->
  futures c !! h = Some f -> outcome f = None ->
  let c' := exec (_do_load_results reply) c in
  _do_load_results reply c = (c', Ok Continue)
  /\ outcome_of c' h
     = Some (Error (IOError (if is_SolverAuthenticationError e then e else IOError e)) e)
  /\ items (_load_queue c') = rest
  /\ unfinished_tasks (_load_queue c') = unfinished_tasks (_load_queue c)
  /\ (forall q, owed c' q = (owed c q + if is_queue Load q then 1 else 0)%Z).
Proof.
  intros Hfail Hitems Hf Hnone. cbv zeta. unfold exec.
  rewrite (load_worker_start _ _ _ _ _ Hitems Hf).
  set (c0 := with_load_queue (mkQueue rest (unfinished_tasks (_load_queue c))) c).
  assert (Hf0 : futures c0 !! h = Some f) by exact Hf.
  assert (Hrun : try_except (load_result h reply ;; ret Continue) (fun err => ret Exited) c0
                 = (with_futures
                      (<[h := set_outcome (Some (Error (IOError (wrap_exception e)) e)) f]>
                         (futures c0)) c0, Ok Continue)).
  { unfold try_except, bind at 1, load_result, bind at 1, try_except, bind at 1.
    rewrite (get_result_failure _ _ _ Hfail).
    unfold bind at 1. now rewrite (set_error_unsettled _ _ _ _ _ Hf0 Hnone). }
  rewrite Hrun. simpl.
  split; [reflexivity|]. unfold outcome_of. simpl. rewrite lookup_insert_eq.
  split; [reflexivity|]. split; [reflexivity|]. split; [reflexivity|].
  intros []; simpl; try lia. unfold in_hand. simpl. rewrite Hitems. simpl length. lia.
Qed.

Lemma load_failure_leaves_task_unfinished_witness :
  unfinished_tasks (_load_queue (exec (_do_load_results (ResultResponse 500 None))
                                   loading_client))
  = 1%Z
  /\ items (_load_queue (exec (_do_load_results (ResultResponse 500 None)) loading_client))
     = [].
Proof.
  destruct (load_failure_leaves_task_unfinished (ResultResponse 500 None) (HTTPError 500)
              0%nat [] loading_client (submitted_future "123" 0)
              eq_refl eq_refl eq_refl eq_refl) as (_ & _ & Hitems & Hunfinished & _).
  split; [exact Hunfinished | exact Hitems].
Defined.

(** X16. A result that arrives is handed to the dispatcher and the task is
    acknowledged; the queues owe what they did. A record that is COMPLETED and
    still has no answer puts the future back on the load queue. *)
Theorem load_success_is_dispatched
    (code : Z) (message : Message) (h : handle) (rest : list (option handle))
    (c : Client) (f : Future) :
  status_failure code = None ->
  items (_load_queue c) = Some h :: rest ->
  futures c !! h = Some f ->
  let c' := exec (_do_load_results (ResultResponse code (Some message))) c in
  _do_load_results (ResultResponse code (Some message)) c = (c', Ok Continue)
  /\ c' = exec (_handle_problem_status message h ;; load_task_done)
            (with_load_queue (mkQueue rest (unfinished_tasks (_load_queue c))) c)
  /\ same_owed c c'
  /\ ((m_error_code message = None \/ m_error_msg message = None) ->
      m_status message = Some STATUS_COMPLETE -> is_Some (m_id message) ->
      m_answer message = None -> dates_parse message -> outcome f = None ->
      outcome_of c' h = None /\ items (_load_queue c') = rest ++ [Some h]).
Proof.
  intros Hcode Hitems Hf. cbv zeta. unfold exec.
  rewrite (load_worker_start _ _ _ _ _ Hitems Hf).
  set (c0 := with_load_queue (mkQueue rest (unfinished_tasks (_load_queue c))) c).
  assert (Hf0 : futures c0 !! h = Some f) by exact Hf.
  assert (Howed0 : forall q, owed c0 q = (owed c q + if is_queue Load q then 1 else 0)%Z).
  { intros []; simpl; try lia. unfold in_hand. simpl. rewrite Hitems. simpl length. lia. }
  pose proof (dispatch_returns message h c0 (ex_intro _ f Hf0)) as Hok.
  pose proof (owed_dispatch message h c0) as Howed1.
  destruct (_handle_problem_status message h c0) as [c1 r] eqn:Hd.
  simpl in Hok, Howed1. subst r.
  assert (Hrun : try_except
                   (load_result h (ResultResponse code (Some message)) ;; ret Continue)
                   (fun err => ret Exited) c0
                 = (with_load_queue (task_done (_load_queue c1)) c1, Ok Continue)).
  { unfold try_except, bind at 1, load_result, bind at 1, try_except, bind at 1.
    rewrite (get_result_success _ _ _ Hcode). unfold ret at 1.
    unfold bind. rewrite Hd. reflexivity. }
  rewrite Hrun. unfold bind. rewrite Hd. simpl.
  split; [reflexivity|]. split; [reflexivity|]. split.
  - intros q. specialize (Howed1 q). specialize (Howed0 q).
    destruct q; simpl in *; try lia. unfold in_hand in *. simpl. lia.
  - intros Hpair Hs [id_ Hi] Ha Hdates Hnone.
    destruct (dispatch_reaches_route message STATUS_COMPLETE id_ h c0 f Hpair Hs Hi Hdates Hf0)
      as (c2 & f2 & Hbody & Hf2 & _ & _ & Hout & _ & _ & _ & _ & _ & Hlq & _).
    assert (Hc1 : c1 = with_load_queue (put (Some h) (_load_queue c2)) c2).
    { unfold _handle_problem_status, try_except in Hd. rewrite Hbody in Hd.
      unfold route_status in Hd. rewrite bool_decide_eq_true_2 in Hd by reflexivity.
      rewrite Ha in Hd. unfold _load, modify in Hd. now inversion Hd. }
    subst c1. unfold outcome_of. simpl. rewrite Hf2, Hout, Hlq. split; [exact Hnone|reflexivity].
Qed.

Lemma load_success_is_dispatched_witness :
  items (_load_queue (exec (_do_load_results
                              (ResultResponse 200 (Some (completed_reply "123" None))))
                        loading_client))
  = [Some 0%nat].
Proof.
  destruct (load_success_is_dispatched 200 (completed_reply "123" None) 0%nat []
              loading_client (submitted_future "123" 0) eq_refl eq_refl eq_refl)
    as (_ & _ & _ & H).
  apply H; try reflexivity.
  - now left.
  - now exists "123".
  - repeat split; discriminate.
Defined.

(** ** The cancel worker *)

Lemma unpack_items_some batch c : unpack_items (map Some batch) c = (c, Ok batch).
Proof.
  induction batch as [|item batch IH]; [reflexivity|].
  simpl. unfold bind, ret. now rewrite IH.
Qed.

Lemma elem_of_cancel_targets h batch :
  h ∈ cancel_targets batch <-> exists id_, (id_, Some h) ∈ batch.
Proof.
  unfold cancel_targets. rewrite list_elem_of_omap. split.
  - intros ([id_ fh] & Hin & Hsnd). simpl in Hsnd. subst fh. eauto.
  - intros (id_ & Hin). exists (id_, Some h). split; [exact Hin | reflexivity].
Qed.

Lemma fail_items_facts err batch : forall c,
  all_alive (cancel_targets batch) c ->
  exists c',
    for_each (map Some batch) (fail_item err) c = (c', Ok tt)
    /\ c' = with_futures (futures c') c
    /\ forall h, futures c' !! h
         = if bool_decide (h ∈ cancel_targets batch)
           then settle (Error err err) <$> futures c !! h
           else futures c !! h.
Proof.
  induction batch as [|[id_ fh] batch IH]; intros c Hvalid.
  - exists c. split; [reflexivity|]. split; [now destruct c|]. intros h. reflexivity.
  - destruct fh as [h0|].
    + destruct (Hvalid h0) as [f Hf]; [left|].
      set (c1 := with_futures (<[h0 := settle (Error err err) f]> (futures c)) c).
      assert (H1 : fail_item err (Some (id_, Some h0)) c = (c1, Ok tt)).
      { simpl. unfold _set_error. now rewrite (update_future_some _ _ _ _ Hf). }
      destruct (IH c1) as (c' & Hrun & Hshape & Hheap).
      { intros h Hh. simpl. destruct (decide (h = h0)) as [->|Hne].
        - rewrite lookup_insert_eq. eauto.
        - rewrite lookup_insert_ne by congruence. apply Hvalid. now right. }
      exists c'. split; [|split].
      * cbn [map for_each]. rewrite (bind_ok _ _ _ _ _ H1). exact Hrun.
      * rewrite Hshape. reflexivity.
      * intros h. rewrite Hheap. simpl.
        destruct (decide (h = h0)) as [->|Hne].
        -- rewrite lookup_insert_eq, Hf.
           rewrite (bool_decide_eq_true_2 (h0 ∈ h0 :: cancel_targets batch)) by left.
           simpl. rewrite settle_idempotent. now destruct (bool_decide _).
        -- rewrite lookup_insert_ne by congruence.
           destruct (bool_decide (h ∈ cancel_targets batch)) eqn:Hb.
           ++ apply bool_decide_eq_true_1 in Hb.
              rewrite bool_decide_eq_true_2; [reflexivity | now right].
           ++ apply bool_decide_eq_false_1 in Hb.
              rewrite bool_decide_eq_false_2; [reflexivity|].
              intros Hin. apply elem_of_cons in Hin as [?|?]; contradiction.
    + destruct (IH c) as (c' & Hrun & Hshape & Hheap); [exact Hvalid|].
      exists c'. split; [|split; [exact Hshape | exact Hheap]].
      cbn [map for_each fail_item]. unfold bind, ret. exact Hrun.
Qed.

Lemma cancel_acks (item_list : list (option (string * option handle))) c :
  exists c',
    for_each item_list (fun _ => cancel_task_done) c = (c', Ok tt)
    /\ (futures c' = futures c /\ delete_log c' = delete_log c
        /\ items (_cancel_queue c') = items (_cancel_queue c))
    /\ acknowledged Cancel (Z.of_nat (length item_list)) c c'.
Proof.
  apply (for_each_acknowledges
           (fun c' => futures c' = futures c /\ delete_log c' = delete_log c
                      /\ items (_cancel_queue c') = items (_cancel_queue c))).
  - intros _ c1 _ Hc1. eexists. split; [reflexivity|]. split; [exact Hc1|].
    intros []; simpl; unfold in_hand; simpl; lia.
  - now repeat split.
Qed.

Lemma session_delete_result batch reply c :
  session_delete batch reply c
  = (with_delete_log (delete_log c ++ [batch]) c,
     match delete_failure reply with
     | Some e => Raise e
     | None => Ok tt
     end).
Proof. unfold session_delete, bind, modify. now destruct reply. Qed.

(** X14. One iteration of the cancel worker sends every queued cancel request in
    one DELETE, in queue order, and acknowledges each. A response counts as
    success whatever its status code: no future is written. On a timeout or a
    transport error every future of the request that was not settled fails
    with that exception itself, not wrapped. *)
Theorem cancel_worker_sends_whole_queue
    (reply : HttpReply) (first : string * option handle)
    (others : list (string * option handle)) (c : Client) :
  items (_cancel_queue c) = map Some (first :: others) ->
  all_alive (cancel_targets (first :: others)) c ->
  let batch := first :: others in
  let c' := exec (_do_cancel_problems reply) c in
  _do_cancel_problems reply c = (c', Ok Continue)
  /\ items (_cancel_queue c') = []
  /\ delete_log c' = delete_log c ++ [batch]
  /\ same_owed c c'
  /\ (forall h, h ∉ cancel_targets batch -> futures c' !! h = futures c !! h)
  /\ match delete_failure reply with
     | None => futures c' = futures c
     | Some e =>
         forall h f, h ∈ cancel_targets batch ->
           futures c !! h = Some f -> outcome f = None ->
           outcome_of c' h = Some (Error e e)
     end.
Proof.
  intros Hitems Halive batch. cbv zeta. unfold exec.
  rewrite cancel_worker_closed, Hitems. cbn [map].
  change (Some first :: map Some others) with (map Some batch).
  set (c0 := with_cancel_queue (mkQueue [] (unfinished_tasks (_cancel_queue c))) c).
  set (c1 := with_delete_log (delete_log c0 ++ [batch]) c0).
  assert (Howed1 : forall q, owed c1 q
                     = (owed c q + if is_queue Cancel q
                                   then Z.of_nat (length batch) else 0)%Z).
  { intros []; simpl; try lia. unfold in_hand. simpl. rewrite Hitems.
    rewrite length_map. simpl length. lia. }
  assert (Hsent : exists c2,
            try_except
              (let* unpacked := unpack_items (map Some batch) in
               session_delete unpacked reply)
              (fun err => for_each (map Some batch) (fail_item err)) c0 = (c2, Ok tt)
            /\ c2 = with_futures (futures c2) c1
            /\ (forall h, h ∉ cancel_targets batch -> futures c2 !! h = futures c !! h)
            /\ match delete_failure reply with
               | None => futures c2 = futures c
               | Some e =>
                   forall h f, h ∈ cancel_targets batch ->
                     futures c !! h = Some f -> outcome f = None ->
                     outcome_of c2 h = Some (Error e e)
               end).
  { unfold try_except, bind. rewrite unpack_items_some, session_delete_result.
    fold c1. destruct (delete_failure reply) as [e|].
    - destruct (fail_items_facts e batch c1 Halive) as (c2 & Hrun & Hshape & Hheap).
      exists c2. split; [exact Hrun|]. split; [exact Hshape|]. split.
      + intros h Hh. now rewrite Hheap, bool_decide_eq_false_2 by exact Hh.
      + intros h f Hh Hf Hnone. unfold outcome_of.
        rewrite Hheap, bool_decide_eq_true_2 by exact Hh.
        change (futures c1) with (futures c). rewrite Hf. simpl.
        now apply settle_outcome.
    - exists c1. split; [reflexivity|]. now repeat split. }
  destruct Hsent as (c2 & Hrun & Hshape & Hothers & Hfailed).
  destruct (cancel_acks (map Some batch) c2) as (c3 & Hacks & (Hheap3 & Hlog3 & Hitems3) & Hack).
  assert (Hbatch : cancel_batch (map Some batch) reply c0 = (c3, Ok Continue)).
  { unfold cancel_batch, try_except at 1, bind at 1.
    fold (fail_item). change (fun err : Exn =>
        for_each (map Some batch)
          (fun item => match item with
                       | Some (_, Some h) => _set_error h err err
                       | Some (_, None) => ret tt
                       | None => raise (TypeError "cannot unpack non-iterable NoneType object")
                       end))
      with (fun err : Exn => for_each (map Some batch) (fail_item err)).
    rewrite Hrun. unfold bind. rewrite Hacks. reflexivity. }
  rewrite Hbatch. simpl.
  split; [reflexivity|]. split; [rewrite Hitems3, Hshape; reflexivity|].
  split; [rewrite Hlog3, Hshape; reflexivity|]. split; [|split].
  - intros q. rewrite (Hack q). rewrite Hshape.
    change (owed (with_futures (futures c2) c1) q) with (owed c1 q).
    rewrite (Howed1 q). rewrite length_map. destruct (is_queue Cancel q); lia.
  - intros h Hh. rewrite Hheap3. now apply Hothers.
  - destruct (delete_failure reply) as [e|].
    + intros h f Hh Hf Hnone. unfold outcome_of. rewrite Hheap3.
      now apply (Hfailed h f).
    + now rewrite Hheap3.
Qed.

Lemma cancel_worker_sends_whole_queue_witness :
  delete_log (exec (_do_cancel_problems Timeout) cancelling_client)
  = [[("123", Some 0%nat)]].
Proof.
  destruct (cancel_worker_sends_whole_queue Timeout ("123", Some 0%nat) []
              cancelling_client) as (_ & _ & H & _).
  - reflexivity.
  - intros h Hh. apply list_elem_of_singleton in Hh. subst h.
    exists (submitted_future "123" 0). reflexivity.
  - exact H.
Defined.

(** ** The poll worker *)

Lemma set_errors_facts error exc_info hs : forall c,
  all_alive hs c ->
  exists c',
    for_each hs (fun h => _set_error h error exc_info) c = (c', Ok tt)
    /\ c' = with_futures (futures c') c
    /\ forall h, futures c' !! h
         = if bool_decide (h ∈ hs)
           then settle (Error error exc_info) <$> futures c !! h
           else futures c !! h.
Proof.
  induction hs as [|h0 hs IH]; intros c Hvalid.
  - exists c. split; [reflexivity|]. split; [now destruct c|]. intros h. reflexivity.
  - destruct (Hvalid h0) as [f Hf]; [left|].
    set (c1 := with_futures (<[h0 := settle (Error error exc_info) f]> (futures c)) c).
    assert (H1 : _set_error h0 error exc_info c = (c1, Ok tt)).
    { unfold _set_error. now rewrite (update_future_some _ _ _ _ Hf). }
    destruct (IH c1) as (c' & Hrun & Hshape & Hheap).
    { intros h Hh. simpl. destruct (decide (h = h0)) as [->|Hne].
      - rewrite lookup_insert_eq. eauto.
      - rewrite lookup_insert_ne by congruence. apply Hvalid. now right. }
    exists c'. split; [|split].
    + cbn [for_each]. rewrite (bind_ok _ _ _ _ _ H1). exact Hrun.
    + rewrite Hshape. reflexivity.
    + intros h. rewrite Hheap. simpl.
      destruct (decide (h = h0)) as [->|Hne].
      * rewrite lookup_insert_eq, Hf.
        rewrite (bool_decide_eq_true_2 (h0 ∈ h0 :: hs)) by left.
        simpl. rewrite settle_idempotent. now destruct (bool_decide _).
      * rewrite lookup_insert_ne by congruence.
        destruct (bool_decide (h ∈ hs)) eqn:Hb.
        -- apply bool_decide_eq_true_1 in Hb.
           rewrite bool_decide_eq_true_2; [reflexivity | now right].
        -- apply bool_decide_eq_false_1 in Hb.
           rewrite bool_decide_eq_false_2; [reflexivity|].
           intros Hin. apply elem_of_cons in Hin as [?|?]; contradiction.
Qed.

Lemma poll_response_unfold reply frame :
  poll_response reply frame
  = try_except (poll_request reply frame)
      (fun exception =>
         for_each (map snd frame) (fun h =>
           _set_error h (IOError (wrap_exception exception)) exception)).
Proof. reflexivity. Qed.

Lemma poll_request_failure reply e frame c :
  poll_failure reply = Some e -> poll_request reply frame c = (c, Raise e).
Proof.
  unfold poll_failure, poll_request, raise_for_status.
  destruct reply as [| what | code date json]; simpl.
  - intros H. inversion H. reflexivity.
  - intros H. inversion H. reflexivity.
  - unfold bind, ret, raise. simpl.
    destruct (bool_decide (code = 401)); [intros H; inversion H; reflexivity|].
    destruct ((500 <=? code)%Z && (code <? 600)%Z)%bool; [discriminate|].
    destruct ((400 <=? code)%Z && (code <? 600)%Z)%bool;
      [intros H; inversion H; reflexivity|].
    destruct json; [discriminate|]. intros H. inversion H. reflexivity.
Qed.

(** X11. When a poll request fails with anything but a status 5xx, every member
    of the frame that was not settled fails with [IOError] around the wrapped
    exception: [IOError(IOError(e))], and [IOError(SolverAuthenticationError)]
    for a 401. Nothing is put on the poll or the load queue. *)
Theorem poll_failure_fails_frame
    (reply : HttpReply) (e : Exn) (frame : Frame) (c : Client) :
  poll_failure reply = Some e ->
  (forall k h, (k, h) ∈ frame ->
     exists f, futures c !! h = Some f /\ outcome f = None) ->
  let c' := exec (poll_response reply frame) c in
  poll_response reply frame c = (c', Ok tt)
  /\ (forall k h, (k, h) ∈ frame ->
        outcome_of c' h
        = Some (Error (IOError (if is_SolverAuthenticationError e then e else IOError e)) e))
  /\ (forall h, h ∉ map snd frame -> futures c' !! h = futures c !! h)
  /\ _poll_queue c' = _poll_queue c
  /\ _load_queue c' = _load_queue c.
Proof.
  intros Hfail Hvalid. cbv zeta. unfold exec.
  rewrite poll_response_unfold. unfold try_except.
  rewrite (poll_request_failure _ _ _ _ Hfail).
  destruct (set_errors_facts (IOError (wrap_exception e)) e (map snd frame) c)
    as (c1 & Hrun & Hshape & Hheap).
  { intros h Hh. apply list_elem_of_fmap in Hh as ([k h'] & -> & Hin).
    destruct (Hvalid _ _ Hin) as (f & Hf & _). eauto. }
  rewrite Hrun. simpl. split; [reflexivity|]. split; [|split].
  - intros k h Hin. destruct (Hvalid _ _ Hin) as (f & Hf & Hnone).
    unfold outcome_of. rewrite Hheap, bool_decide_eq_true_2.
    + rewrite Hf. simpl. now apply settle_outcome.
    + apply list_elem_of_fmap. exists (k, h). now split.
  - intros h Hh. now rewrite Hheap, bool_decide_eq_false_2 by exact Hh.
  - rewrite Hshape. now split.
Qed.

Lemma poll_failure_fails_frame_witness :
  outcome_of (exec (poll_response (Response 404 0 None) ageing_frame) ageing_client) 0%nat
  = Some (Error (IOError (IOError (HTTPError 404))) (HTTPError 404)).
Proof.
  destruct (poll_failure_fails_frame (Response 404 0 None) (HTTPError 404) ageing_frame
              ageing_client eq_refl) as (_ & H & _).
  - intros k h Hin. apply list_elem_of_singleton in Hin. inversion Hin; subst.
    exists (submitted_future "123" 0). split; reflexivity.
  - apply (H (Some "123") 0%nat). left.
Defined.

(** X12. A poll reply whose first status record names an id that is not in the
    frame fails every member of the frame with
    [IOError(IOError(KeyError(id)))], and schedules no poll. *)
Theorem poll_reply_naming_unknown_id
    (code : Z) (date : Q) (status : Message) (more : list Message) (k : string)
    (frame : Frame) (c : Client) :
  poll_failure (Response code date (Some (status :: more))) = None ->
  ~ (500 <= code < 600)%Z ->
  m_id status = Some k -> Some k ∉ map fst frame ->
  (forall k' h, (k', h) ∈ frame ->
     exists f, futures c !! h = Some f /\ outcome f = None) ->
  let c' := exec (poll_response (Response code date (Some (status :: more))) frame) c in
  (forall k' h, (k', h) ∈ frame ->
     outcome_of c' h = Some (Error (IOError (IOError (KeyError k))) (KeyError k)))
  /\ _poll_queue c' = _poll_queue c.
Proof.
  intros Hok Hcode Hid Hnot Hvalid. cbv zeta. unfold exec.
  assert (Hget : frame_get (Some k) frame = None).
  { clear -Hnot. induction frame as [|[k' h] frame IH]; [reflexivity|].
    simpl in *. apply not_elem_of_cons in Hnot as [Hne Hnot].
    rewrite bool_decide_eq_false_2 by congruence. auto. }
  assert (Hreq : poll_request (Response code date (Some (status :: more))) frame c
                 = (c, Raise (KeyError k))).
  { unfold poll_failure in Hok. unfold poll_request, raise_for_status.
    unfold bind at 1, session_call, ret at 1.
    destruct (bool_decide (code = 401)); [discriminate|].
    replace ((500 <=? code)%Z && (code <? 600)%Z)%bool with false in Hok |- *
      by (symmetry; apply andb_false_iff; destruct (Z.leb_spec 500 code);
          destruct (Z.ltb_spec code 600); auto; lia).
    destruct ((400 <=? code)%Z && (code <? 600)%Z)%bool; [discriminate|].
    unfold bind, ret, response_json, status_future. simpl. now rewrite Hid, Hget. }
  rewrite poll_response_unfold. unfold try_except. rewrite Hreq.
  destruct (set_errors_facts (IOError (wrap_exception (KeyError k))) (KeyError k)
              (map snd frame) c) as (c1 & Hrun & Hshape & Hheap).
  { intros h Hh. apply list_elem_of_fmap in Hh as ([k' h'] & -> & Hin).
    destruct (Hvalid _ _ Hin) as (f & Hf & _). eauto. }
  rewrite Hrun. simpl. split.
  - intros k' h Hin. destruct (Hvalid _ _ Hin) as (f & Hf & Hnone).
    unfold outcome_of. rewrite Hheap, bool_decide_eq_true_2.
    + rewrite Hf. simpl. now apply settle_outcome.
    + apply list_elem_of_fmap. exists (k', h). now split.
  - rewrite Hshape. reflexivity.
Qed.

Lemma poll_reply_naming_unknown_id_witness :
  outcome_of (exec (poll_response (Response 200 0 (Some [pending_reply "other"]))
                      ageing_frame) ageing_client) 0%nat
  = Some (Error (IOError (IOError (KeyError "other"))) (KeyError "other")).
Proof.
  destruct (poll_reply_naming_unknown_id 200 0 (pending_reply "other") [] "other"
              ageing_frame ageing_client) as [H _].
  - reflexivity.
  - lia.
  - reflexivity.
  - intros Hin. apply list_elem_of_singleton in Hin. discriminate Hin.
  - intros k h Hin. apply list_elem_of_singleton in Hin. inversion Hin; subst.
    exists (submitted_future "123" 0). split; reflexivity.
  - apply (H (Some "123") 0%nat). left.
Defined.

#[local] Instance same_other_queues_preorder : PreOrder same_other_queues.
Proof.
  split.
  - intros c. now repeat split.
  - intros c1 c2 c3 (Hs & Hc & Hl) (Hs' & Hc' & Hl'). repeat split; congruence.
Qed.

Lemma build_frame_other_queues : respects same_other_queues build_frame.
Proof.
  unfold build_frame, add, poll_task_done.
  repeat respects_step
    ltac:(first [ respect respects_group; intros ?; intros ?; now repeat split
                | intros ?; now repeat split ]).
Qed.

Lemma add_good h frame c :
  pollable (futures c) (0%Q, Some h) -> frame_keyed (futures c) frame ->
  exists c' frame',
    add (Some h) frame c = (c', Ok (true, frame'))
    /\ futures c' = futures c
    /\ items (_poll_queue c') = items (_poll_queue c)
    /\ frame_keyed (futures c) frame'
    /\ unfinished_tasks (_poll_queue c')
       = (unfinished_tasks (_poll_queue c) - 1
          + (Z.of_nat (length frame') - Z.of_nat (length frame)))%Z.
Proof.
  intros (h' & f & Hh & Hf & Hid) Hkeyed. simpl in Hh. inversion Hh; subst h'.
  unfold add. rewrite (bind_ok _ _ _ _ _ (read_future_some _ _ _ Hf)).
  destruct (negb (frame_has (id f) frame) && negb (done f))%bool.
  - exists c, (frame ++ [(id f, h)]). split; [reflexivity|].
    split; [reflexivity|]. split; [reflexivity|]. split.
    + intros k h' Hin. apply elem_of_app in Hin as [Hin|Hin]; [eauto|].
      apply list_elem_of_singleton in Hin. inversion Hin; subst. eauto.
    + rewrite length_app. simpl. lia.
  - exists (with_poll_queue (task_done (_poll_queue c)) c), frame.
    split; [reflexivity|]. split; [reflexivity|]. split; [reflexivity|].
    split; [exact Hkeyed|]. simpl. lia.
Qed.

Lemma group_good frame_earliest pending : forall frame c,
  items (_poll_queue c) = pending ->
  Forall (pollable (futures c)) pending ->
  frame_keyed (futures c) frame ->
  exists c' frame',
    group frame_earliest pending frame c = (c', Ok (true, frame'))
    /\ futures c' = futures c
    /\ frame_keyed (futures c) frame'
    /\ backlog c' = (backlog c + (Z.of_nat (length frame') - Z.of_nat (length frame)))%Z.
Proof.
  induction pending as [|task rest IH]; intros frame c Hsync Hgood Hkeyed.
  - rewrite group_nil. exists c, frame.
    split; [reflexivity|]. split; [reflexivity|]. split; [exact Hkeyed | lia].
  - destruct (length frame <? _STATUS_QUERY_SIZE)%nat eqn:Hlt.
    2:{ rewrite (group_full _ _ _ Hlt). exists c, frame.
        split; [reflexivity|]. split; [reflexivity|]. split; [exact Hkeyed | lia]. }
    rewrite (group_cons _ _ _ _ Hlt).
    apply Forall_cons in Hgood as [Htask Hrest].
    set (c0 := set_poll_items rest c).
    assert (Hb0 : backlog c0 = (backlog c + 1)%Z).
    { unfold backlog, c0. simpl. rewrite Hsync. simpl length. lia. }
    unfold bind at 1. unfold modify at 1. fold c0.
    destruct (Qleb (fst task - frame_earliest) (inject_Z _POLL_GROUP_TIMEFRAME)).
    + destruct Htask as (h & f & Hh & Hf & Hid).
      destruct (add_good h frame c0) as
        (c1 & frame1 & Hadd & Hheap1 & Hitems1 & Hkeyed1 & Hun1); auto.
      { exists h, f. now repeat split. }
      rewrite Hh, (bind_ok _ _ _ _ _ Hadd). cbn [fst snd].
      assert (Hb1 : backlog c1
                    = (backlog c + (Z.of_nat (length frame1) - Z.of_nat (length frame)))%Z).
      { unfold backlog in *. rewrite Hun1, Hitems1. lia. }
      destruct (IH frame1 c1) as (c' & frame' & Hg & Hheap' & Hkeyed' & Hb').
      { rewrite Hitems1. reflexivity. }
      { now rewrite Hheap1. }
      { now rewrite Hheap1. }
      exists c', frame'. split; [exact Hg|].
      split; [now rewrite Hheap', Hheap1|].
      split; [now rewrite Hheap1 in Hkeyed'|].
      rewrite Hb', Hb1. lia.
    + eexists _, frame. split; [reflexivity|].
      split; [reflexivity|]. split; [exact Hkeyed|].
      unfold backlog. simpl. rewrite length_insert_by_time, Hsync. simpl length. lia.
Qed.

Lemma build_frame_good task rest c :
  items (_poll_queue c) = task :: rest ->
  Forall (pollable (futures c)) (task :: rest) ->
  exists c' frame,
    build_frame c = (c', Ok (Some (fst task, true, frame)))
    /\ futures c' = futures c
    /\ frame_keyed (futures c) frame
    /\ backlog c' = (backlog c + Z.of_nat (length frame))%Z.
Proof.
  intros Hitems Hgood. apply Forall_cons in Hgood as [Htask Hrest].
  unfold build_frame. unfold bind at 1. unfold gets at 1. unfold get_nowait.
  rewrite Hitems.
  set (c0 := with_poll_queue (mkQueue rest (unfinished_tasks (_poll_queue c))) c).
  unfold bind at 1. unfold modify at 1. fold c0.
  assert (Hb0 : backlog c0 = (backlog c + 1)%Z).
  { unfold backlog, c0. simpl. rewrite Hitems. simpl length. lia. }
  destruct Htask as (h & f & Hh & Hf & Hid).
  destruct (add_good h [] c0) as
    (c1 & frame1 & Hadd & Hheap1 & Hitems1 & Hkeyed1 & Hun1).
  { exists h, f. now repeat split. }
  { intros k h' Hin. inversion Hin. }
  rewrite Hh, (bind_ok _ _ _ _ _ Hadd). cbn [fst snd items].
  assert (Hb1 : backlog c1 = (backlog c + Z.of_nat (length frame1))%Z).
  { unfold backlog in Hb0 |- *. rewrite Hun1, Hitems1.
    change (length (@nil (option string * handle))) with 0%nat. lia. }
  destruct (group_good (fst task) rest frame1 c1)
    as (c' & frame' & Hg & Hheap' & Hkeyed' & Hb').
  { now rewrite Hitems1. }
  { now rewrite Hheap1. }
  { now rewrite Hheap1. }
  rewrite (bind_ok _ _ _ _ _ Hg). cbn [fst snd].
  exists c', frame'. split; [reflexivity|]. split; [now rewrite Hheap', Hheap1|].
  rewrite Hheap1 in Hkeyed'. split; [exact Hkeyed'|]. rewrite Hb', Hb1. lia.
Qed.

Lemma join_ids_keyed heap frame c :
  frame_keyed heap frame ->
  exists ids, join_ids frame c = (c, Ok ids) /\ length ids = length frame.
Proof.
  induction frame as [|[k h] frame IH]; intros Hkeyed.
  - exists []. split; reflexivity.
  - destruct (Hkeyed k h) as [[key ->] _]; [left|].
    destruct IH as (ids & Hrun & Hlen).
    { intros k' h' Hin. apply (Hkeyed k' h'). now right. }
    exists (key :: ids). split; [|simpl; now rewrite Hlen].
    simpl. unfold bind, ret. now rewrite Hrun.
Qed.

Lemma heap_kept_poll_request reply frame : respects heap_kept (poll_request reply frame).
Proof.
  unfold poll_request.
  repeat respects_step ltac:(first [apply heap_kept_dispatch | apply heap_kept_poll | heap_leaf]).
Qed.

Lemma owed_poll_request reply frame : respects same_owed (poll_request reply frame).
Proof.
  unfold poll_request.
  repeat respects_step ltac:(first [apply owed_dispatch | apply owed_poll | owed_leaf]).
Qed.

Lemma poll_response_returns reply frame c :
  all_alive (map snd frame) c ->
  exists c', poll_response reply frame c = (c', Ok tt) /\ same_owed c c'.
Proof.
  intros Halive. rewrite poll_response_unfold. unfold try_except.
  pose proof (heap_kept_poll_request reply frame c) as Hkept.
  pose proof (owed_poll_request reply frame c) as Howed.
  destruct (poll_request reply frame c) as [c1 [[]|e]]; simpl in Hkept, Howed.
  - exists c1. split; [reflexivity | exact Howed].
  - destruct (set_errors_facts (IOError (wrap_exception e)) e (map snd frame) c1)
      as (c2 & Hrun & Hshape & _).
    { eapply all_alive_kept; eauto. }
    exists c2. split; [exact Hrun|]. etransitivity; [exact Howed|].
    rewrite Hshape. intros []; reflexivity.
Qed.

(** X13. One iteration of the poll worker on a queue of futures that have their
    ids: whatever the reply, the worker neither raises nor exits, and every
    task it took from the queue is acknowledged or back on the queue, so that
    all four queues owe what they did. *)
Theorem poll_worker_accounts
    (reply : HttpReply) (task : Q * option handle) (rest : list (Q * option handle))
    (c : Client) :
  items (_poll_queue c) = task :: rest ->
  Forall (pollable (futures c)) (task :: rest) ->
  exists c', _do_poll_problems reply c = (c', Ok Continue) /\ same_owed c c'.
Proof.
  intros Hitems Hgood.
  destruct (build_frame_good task rest c Hitems Hgood)
    as (c1 & frame & Hbuild & Hheap1 & Hkeyed & Hb1).
  pose proof (build_frame_other_queues c) as Hother. rewrite Hbuild in Hother.
  destruct Hother as (Hsq & Hcq & Hlq). simpl in Hsq, Hcq, Hlq.
  assert (Howed1 : forall q, owed c1 q
                     = (owed c q + if is_queue Poll q
                                   then Z.of_nat (length frame) else 0)%Z).
  { intros []; simpl; rewrite ?Hsq, ?Hcq, ?Hlq; try lia. exact Hb1. }
  destruct (join_ids_keyed (futures c) frame c1 Hkeyed) as (ids & Hjoin & Hlen).
  assert (Hstart : _do_poll_problems reply c
                   = try_except
                       (match ids with
                        | [] => ret Continue
                        | _ =>
                            let* now := read_clock in
                            poll_response reply frame ;;
                            for_each frame (fun _ => poll_task_done) ;;
                            ret Continue
                        end)
                       (fun err => ret Exited) c1).
  { unfold _do_poll_problems, try_except, bind at 1. rewrite Hbuild.
    unfold bind at 1. rewrite Hjoin. reflexivity. }
  rewrite Hstart. destruct ids as [|k ids].
  - exists c1. split; [reflexivity|]. intros q. rewrite (Howed1 q).
    destruct frame; [|discriminate Hlen]. destruct q; simpl; lia.
  - set (c2 := with_clock_reads (S (clock_reads c1)) c1).
    destruct (poll_response_returns reply frame c2) as (c3 & Hresp & Howed3).
    { intros h Hh. apply list_elem_of_fmap in Hh as ([k' h'] & -> & Hin).
      change (futures c2) with (futures c1). rewrite Hheap1.
      now destruct (Hkeyed _ _ Hin). }
    destruct (for_each_acknowledges (fun _ => True) Poll frame (fun _ => poll_task_done))
      with (c := c3) as (c4 & Hacks & _ & Hack); [|exact I|].
    { intros _ c' _ _. eexists. split; [reflexivity|]. split; [exact I|].
      intros []; simpl; unfold in_hand; simpl; lia. }
    exists c4. split.
    + unfold try_except, bind at 1, read_clock. fold c2.
      unfold bind at 1. rewrite Hresp. unfold bind. rewrite Hacks. reflexivity.
    + intros q. rewrite (Hack q), (Howed3 q).
      change (owed c2 q) with (owed c1 q). rewrite (Howed1 q).
      destruct (is_queue Poll q); lia.
Qed.

Lemma poll_worker_accounts_witness :
  exists c', _do_poll_problems (Response 503 0 None) polling_one = (c', Ok Continue)
             /\ same_owed polling_one c'.
Proof.
  apply (poll_worker_accounts (Response 503 0 None) (1%Q, Some 0%nat) [] polling_one).
  - reflexivity.
  - constructor; [|constructor].
    exists 0%nat, (submitted_future "123" 0). repeat split. now exists "123".
Defined.

(** ** The time frame of a poll request *)





(** ** Filters on ranges, properties and parameters *)

Lemma min_max_int (a b : Z) :
  min_max (VInt a) (VInt b) = Ok (VInt (Z.min a b), VInt (Z.max a b)).
Proof.
  unfold min_max, py_lt, py_gt, compare_with. simpl.
  destruct (Z.compare_spec b a) as [->|Hlt|Hgt]; simpl.
  - now rewrite Z.min_id, Z.max_id.
  - rewrite Z.min_r, Z.max_l by lia. reflexivity.
  - rewrite Z.min_l, Z.max_r by lia. reflexivity.
Qed.

Lemma py_le_int (a b : Z) : py_le (VInt a) (VInt b) = Ok (a <=? b)%Z.
Proof.
  unfold py_le, compare_with. simpl. unfold Z.leb. now destruct (a ?= b)%Z.
Qed.

Lemma py_ge_int (a b : Z) : py_ge (VInt a) (VInt b) = Ok (b <=? a)%Z.
Proof.
  unfold py_ge, compare_with. simpl.
  destruct (Z.compare_spec a b), (Z.leb_spec b a); try reflexivity; lia.
Qed.

Lemma covers_int_item (a b v : Z) :
  covers_op (VList [VInt a; VInt b]) (VInt v)
  = Ok ((Z.min a b <=? v)%Z && (v <=? Z.max a b)%Z).
Proof.
  unfold covers_op. rewrite min_max_int. cbn [res_bind]. unfold res_and.
  rewrite !py_le_int. cbn [res_bind]. now destruct (Z.min a b <=? v)%Z.
Qed.

(** X17. [covers] and [within] on integer ranges: a range is the closed interval
    between its two elements, in either order; an item is covered when it lies
    in it, both ends included, and a range when its interval is contained;
    [within] is [covers] with the sides exchanged; a range side that is no
    2-element list raises [ValueError]. *)
Theorem ranges_are_closed_intervals (a b lo hi v : Z) (other : Value) :
  covers_op (VList [VInt a; VInt b]) (VInt v)
  = Ok ((Z.min a b <=? v)%Z && (v <=? Z.max a b)%Z)
  /\ covers_op (VList [VInt a; VInt b]) (VList [VInt lo; VInt hi])
     = Ok ((Z.min a b <=? Z.min lo hi)%Z && (Z.max lo hi <=? Z.max a b)%Z)
  /\ within_op (VInt v) (VList [VInt a; VInt b])
     = covers_op (VList [VInt a; VInt b]) (VInt v)
  /\ within_op (VList [VInt lo; VInt hi]) (VList [VInt a; VInt b])
     = covers_op (VList [VInt a; VInt b]) (VList [VInt lo; VInt hi])
  /\ covers_op (VInt v) other
     = Raise (ValueError "2-element list/tuple range required for LHS value")
  /\ within_op other (VInt v)
     = Raise (ValueError "2-element list/tuple range required for RHS value").
Proof.
  assert (H1 : covers_op (VList [VInt a; VInt b]) (VInt v)
               = Ok ((Z.min a b <=? v)%Z && (v <=? Z.max a b)%Z)).
  { apply covers_int_item. }
  assert (H2 : covers_op (VList [VInt a; VInt b]) (VList [VInt lo; VInt hi])
               = Ok ((Z.min a b <=? Z.min lo hi)%Z && (Z.max lo hi <=? Z.max a b)%Z)).
  { unfold covers_op. rewrite min_max_int. cbn [res_bind].
    rewrite min_max_int. cbn [res_bind].
    unfold res_and. rewrite py_le_int, py_ge_int. cbn [res_bind].
    now destruct (Z.min a b <=? Z.min lo hi)%Z. }
  split; [exact H1|]. split; [exact H2|].
  split; [unfold within_op; now rewrite H1|].
  split; [unfold within_op; now rewrite H2|].
  split; reflexivity.
Qed.

Lemma split_query_explicit re_match key name op :
  ops re_match name = Some op -> split_query re_match [key; name] = (Some name, [key]).
Proof.
  intros Hop. unfold split_query. change (reverse [key; name]) with [name; key].
  cbv beta iota. now rewrite Hop.
Qed.

Lemma split_query_implied re_match key :
  ops re_match key = None -> split_query re_match [key] = (None, [key]).
Proof.
  intros Hop. unfold split_query. change (reverse [key]) with [key].
  cbv beta iota. now rewrite Hop.
Qed.

Lemma op_or_explicit re_match name implied op :
  ops re_match name = Some op -> op_or re_match (Some name) implied = op.
Proof.
  intros Hop. unfold op_or. change (default implied (Some name)) with name.
  now rewrite Hop.
Qed.

Lemma predicate_explicit re_match solver key name op v val :
  ops re_match name = Some op ->
  dict_get key (derived_properties solver) = None ->
  dict_get key (parameters solver) = None ->
  dict_get key (properties solver) = Some v ->
  predicate re_match solver [key; name] val = op v val.
Proof.
  intros Hop Hd Hp Hq. unfold predicate. rewrite (split_query_explicit _ _ _ _ Hop).
  cbn [String.concat]. rewrite Hd.
  cbn [pluck]. rewrite Hp, Hq. cbn [is_none negb].
  rewrite !(op_or_explicit _ _ _ _ Hop). now destruct v.
Qed.

Lemma predicate_implied re_match solver key v val :
  ops re_match key = None ->
  dict_get key (derived_properties solver) = None ->
  dict_get key (parameters solver) = None ->
  dict_get key (properties solver) = Some v ->
  predicate re_match solver [key] val = Ok (py_eq v val).
Proof.
  intros Hop Hd Hp Hq. unfold predicate. rewrite (split_query_implied _ _ Hop).
  cbn [String.concat]. rewrite Hd.
  cbn [pluck]. rewrite Hp, Hq. cbn [is_none negb]. now destruct v.
Qed.

(** X18. Filters on a plain solver property with an integer value: the bare key
    and [eq] compare for equality; [lt], [lte], [gt] and [gte] compare the
    property, on the left, with the argument; [within] tests the closed range
    and [in] membership. *)
Theorem integer_property_filters
    (re_match : Value -> string -> bool) (solver : Solver) (key : string)
    (n v lo hi : Z) :
  ops re_match key = None ->
  dict_get key (derived_properties solver) = None ->
  dict_get key (parameters solver) = None ->
  dict_get key (properties solver) = Some (VInt n) ->
  predicate re_match solver [key] (VInt v) = Ok (n =? v)%Z
  /\ predicate re_match solver [key; "eq"] (VInt v) = Ok (n =? v)%Z
  /\ predicate re_match solver [key; "lt"] (VInt v) = Ok (n <? v)%Z
  /\ predicate re_match solver [key; "lte"] (VInt v) = Ok (n <=? v)%Z
  /\ predicate re_match solver [key; "gt"] (VInt v) = Ok (v <? n)%Z
  /\ predicate re_match solver [key; "gte"] (VInt v) = Ok (v <=? n)%Z
  /\ predicate re_match solver [key; "within"] (VList [VInt lo; VInt hi])
     = Ok ((Z.min lo hi <=? n)%Z && (n <=? Z.max lo hi)%Z)
  /\ predicate re_match solver [key; "in"] (VList [VInt lo; VInt hi])
     = Ok ((n =? lo)%Z || (n =? hi)%Z)%bool.
Proof.
  intros Hop Hd Hp Hq.
  split; [now rewrite (predicate_implied _ _ _ _ _ Hop Hd Hp Hq)|].
  split; [now rewrite (predicate_explicit _ _ _ "eq" _ _ _ eq_refl Hd Hp Hq)|].
  split.
  { rewrite (predicate_explicit _ _ _ "lt" _ _ _ eq_refl Hd Hp Hq). cbn [with_valid_lhs].
    unfold py_lt, compare_with. simpl. unfold Z.ltb. now destruct (n ?= v)%Z. }
  split.
  { rewrite (predicate_explicit _ _ _ "lte" _ _ _ eq_refl Hd Hp Hq). apply py_le_int. }
  split.
  { rewrite (predicate_explicit _ _ _ "gt" _ _ _ eq_refl Hd Hp Hq). cbn [with_valid_lhs].
    unfold py_gt, compare_with. simpl.
    destruct (Z.compare_spec n v), (Z.ltb_spec v n); try reflexivity; lia. }
  split.
  { rewrite (predicate_explicit _ _ _ "gte" _ _ _ eq_refl Hd Hp Hq). apply py_ge_int. }
  split.
  { rewrite (predicate_explicit _ _ _ "within" _ _ _ eq_refl Hd Hp Hq).
    cbn [with_valid_lhs]. unfold within_op. now rewrite covers_int_item. }
  rewrite (predicate_explicit _ _ _ "in" _ _ _ eq_refl Hd Hp Hq).
  unfold py_in. simpl. now rewrite orb_false_r.
Qed.

Lemma integer_property_filters_witness :
  predicate no_regex plain_solver ["num_qubits"; "gt"] (VInt 2000) = Ok true.
Proof.
  destruct (integer_property_filters no_regex plain_solver "num_qubits" 2048 2000 0 0
              eq_refl eq_refl eq_refl eq_refl) as (_ & _ & _ & _ & H & _).
  exact H.
Defined.

Lemma pluck_single d key v : dict_get key d = Some v -> pluck d [key] = v.
Proof. intros H. cbn [pluck]. rewrite H. now destruct v. Qed.

(** X19. A filter on a solver parameter without an operator tests availability:
    it holds exactly when the argument is truthy, whatever the value of the
    parameter, as [available] does; [eq] compares the value. *)
Theorem parameter_filter_tests_availability
    (re_match : Value -> string -> bool) (solver : Solver) (key : string)
    (v val : Value) :
  ops re_match key = None ->
  dict_get key (derived_properties solver) = None ->
  dict_get key (parameters solver) = Some v -> is_none v = false ->
  predicate re_match solver [key] val = Ok (truthy val)
  /\ predicate re_match solver [key; "available"] val = Ok (truthy val)
  /\ predicate re_match solver [key; "eq"] val = Ok (py_eq v val).
Proof.
  intros Hop Hd Hp Hv. pose proof (pluck_single _ _ _ Hp) as Hpluck.
  assert (Himplied : predicate re_match solver [key] val = Ok (truthy val)).
  { unfold predicate. rewrite (split_query_implied _ _ Hop).
    cbn [String.concat]. rewrite Hd, Hpluck, Hv. cbn [negb].
    change (op_or re_match None "available") with available_op.
    unfold available_op. rewrite Hv. now destruct (truthy val). }
  split; [exact Himplied|]. split.
  - unfold predicate.
    rewrite (split_query_explicit re_match key "available" available_op eq_refl).
    cbn [String.concat]. rewrite Hd, Hpluck, Hv. cbn [negb].
    rewrite (op_or_explicit re_match "available" "available" available_op eq_refl).
    unfold available_op. rewrite Hv. now destruct (truthy val).
  - unfold predicate.
    rewrite (split_query_explicit re_match key "eq" (fun prop val => Ok (py_eq prop val))
               eq_refl).
    cbn [String.concat]. rewrite Hd, Hpluck, Hv. cbn [negb].
    now rewrite (op_or_explicit re_match "eq" "available"
                   (fun prop val => Ok (py_eq prop val)) eq_refl).
Qed.

Lemma parameter_filter_tests_availability_witness :
  predicate no_regex plain_solver ["num_reads"] (VBool true) = Ok true.
Proof.
  destruct (parameter_filter_tests_availability no_regex plain_solver "num_reads"
              (VStr "Number of samples to return.") (VBool true)
              eq_refl eq_refl eq_refl eq_refl) as [H _].
  exact H.
Defined.

(** ** What [get_solvers] and [get_solver] return *)








